(** * UniPlaySong log analysis tool: [scripts/analyze_logs.py]

    A shallow embedding of the parsing, classification, metadata
    extraction, event store and report derivation of [LogAnalyzer], with
    the properties its specification states about them.

    Text is modelled as [string] (one [ascii] per character): the
    character classes of Python's [re] and [str] methods are given on the
    ASCII range, which is the range the patterns and keywords of the
    script are written in.  Outside that range Python's classes are
    larger (white space has U+0085 and U+00A0, word characters have the
    letters of other alphabets, [re.IGNORECASE] lets s match U+017F), so
    a text of the model stands for a text of ASCII characters; the
    statements that depend on a class, a letter case or a slice of a
    message say so with [is_ascii].

    Time: a [datetime] is the record of its seven fields; the difference
    of two timestamps is an exact number of microseconds ([Z]).  The
    script converts that difference with [total_seconds()], a double.
    Every stored timestamp has millisecond precision and lies in the
    years 1..9999 (lemma [stored_timestamp_ms]), where the double has an
    error below 1e-4 second, so [int(delta)] is the integer quotient by
    10^6 and [abs(total_seconds() * 1000) > 100] holds exactly when the
    difference exceeds 100000 microseconds (0.1 * 1000 is exactly
    100.0). *)

From Stdlib Require Import ZArith Ascii String Lia Sorted.
From stdpp Require Import base option list gmap strings.

Local Open Scope Z_scope.

(* ================================================================== *)
(** * Characters and strings, as Python's [str] treats them            *)
(* ================================================================== *)

Definition code (c : ascii) : Z := Z.of_N (N_of_ascii c).

(** [\d] *)
Definition is_digit (c : ascii) : bool := (48 <=? code c) && (code c <=? 57).

(** [\s] and [str.isspace]: tab, line feed, vertical tab, form feed,
    carriage return, the separators 28..31 and the space. *)
Definition is_space (c : ascii) : bool :=
  ((9 <=? code c) && (code c <=? 13)) || ((28 <=? code c) && (code c <=? 32)).

Definition is_upper (c : ascii) : bool := (65 <=? code c) && (code c <=? 90).
Definition is_lower (c : ascii) : bool := (97 <=? code c) && (code c <=? 122).

(** [\w] *)
Definition is_word (c : ascii) : bool :=
  is_digit c || is_upper c || is_lower c || (code c =? 95).

(** [.] without [re.DOTALL]: anything but a line feed. *)
Definition is_dot (c : ascii) : bool := negb (code c =? 10).

Definition char_lower (c : ascii) : ascii :=
  if is_upper c then ascii_of_N (Z.to_N (code c + 32)) else c.

Definition is_char (x c : ascii) : bool := bool_decide (c = x).

(** A literal character under [re.IGNORECASE]. *)
Definition is_char_i (x c : ascii) : bool :=
  bool_decide (char_lower c = char_lower x).

(** [str.lower] *)
Fixpoint lower (s : string) : string :=
  match s with
  | EmptyString => EmptyString
  | String c s' => String (char_lower c) (lower s')
  end.

Fixpoint starts_with (p s : string) : bool :=
  match p, s with
  | EmptyString, _ => true
  | String a p', String b s' => bool_decide (a = b) && starts_with p' s'
  | String _ _, EmptyString => false
  end.

(** [p in s] *)
Fixpoint contains (p s : string) : bool :=
  starts_with p s ||
  match s with
  | EmptyString => false
  | String _ s' => contains p s'
  end.

Fixpoint lstrip (s : string) : string :=
  match s with
  | String c s' => if is_space c then lstrip s' else s
  | EmptyString => EmptyString
  end.

Fixpoint rstrip (s : string) : string :=
  match s with
  | EmptyString => EmptyString
  | String c s' =>
      match rstrip s' with
      | EmptyString => if is_space c then EmptyString else String c EmptyString
      | t => String c t
      end
  end.

(** [str.strip] *)
Definition strip (s : string) : string := rstrip (lstrip s).

(** [s[:n]] *)
Fixpoint str_take (n : nat) (s : string) : string :=
  match n, s with
  | S n', String c s' => String c (str_take n' s')
  | _, _ => EmptyString
  end.

(** The text between the start of [s] and the start of its suffix [s']. *)
Definition prefix_upto (s s' : string) : string :=
  str_take (String.length s - String.length s') s.

Fixpoint str_all (p : ascii -> bool) (s : string) : bool :=
  match s with
  | EmptyString => true
  | String c s' => p c && str_all p s'
  end.

(** [int(s)] on a string of decimal digits. *)
Fixpoint int_digits_from (acc : Z) (s : string) : Z :=
  match s with
  | EmptyString => acc
  | String c s' => int_digits_from (10 * acc + (code c - 48)) s'
  end.

Definition int_of_digits (s : string) : Z := int_digits_from 0 s.

(* ================================================================== *)
(** * The fragment of [re] the script uses                             *)
(* ================================================================== *)

Module Re.

(** Patterns: character classes, concatenation, ordered alternation,
    greedy and lazy repetition of a character class (the only thing
    the script ever repeats) and numbered capture groups. *)
Inductive regex : Type :=
| Eps
| Chr (p : ascii -> bool)
| Seq (r1 r2 : regex)
| Alt (r1 r2 : regex)
| Rep (greedy : bool) (p : ascii -> bool)
| Group (n : nat) (r : regex).

Fixpoint rep_greedy {X} (p : ascii -> bool) (s : string)
    (k : string -> option X) : option X :=
  match s with
  | String c s' =>
      if p c then
        match rep_greedy p s' k with
        | Some x => Some x
        | None => k s
        end
      else k s
  | EmptyString => k s
  end.

Fixpoint rep_lazy {X} (p : ascii -> bool) (s : string)
    (k : string -> option X) : option X :=
  match k s with
  | Some x => Some x
  | None =>
      match s with
      | String c s' => if p c then rep_lazy p s' k else None
      | EmptyString => None
      end
  end.

(** Backtracking matcher in continuation-passing style: the first
    alternative, the longest greedy and the shortest lazy repetition
    for which the rest of the pattern succeeds are chosen, as the
    engine of [re] does. *)
Fixpoint exec {X} (r : regex) (s : string) (caps : gmap nat string)
    (k : string -> gmap nat string -> option X) : option X :=
  match r with
  | Eps => k s caps
  | Chr p =>
      match s with
      | String c s' => if p c then k s' caps else None
      | EmptyString => None
      end
  | Seq r1 r2 => exec r1 s caps (fun s1 c1 => exec r2 s1 c1 k)
  | Alt r1 r2 =>
      match exec r1 s caps k with
      | Some x => Some x
      | None => exec r2 s caps k
      end
  | Rep g p => (if g then rep_greedy else rep_lazy) p s (fun s' => k s' caps)
  | Group n r1 =>
      exec r1 s caps (fun s1 c1 => k s1 (<[n := prefix_upto s s1]> c1))
  end.

(** [pattern.match(s)]: the groups and the unmatched rest. *)
Definition match_ (r : regex) (s : string) : option (gmap nat string * string) :=
  exec r s ∅ (fun s' caps => Some (caps, s')).

(** [re.search(pattern, s)]: the leftmost position with a match. *)
Fixpoint search (r : regex) (s : string) : option (gmap nat string * string) :=
  match match_ r s with
  | Some m => Some m
  | None =>
      match s with
      | String _ s' => search r s'
      | EmptyString => None
      end
  end.

(** Derived forms. *)
Definition plus (g : bool) (p : ascii -> bool) : regex := Seq (Chr p) (Rep g p).
Definition opt (r : regex) : regex := Alt r Eps.

Fixpoint times (n : nat) (r : regex) : regex :=
  match n with
  | O => Eps
  | S n' => Seq r (times n' r)
  end.

Fixpoint seqs (rs : list regex) : regex :=
  match rs with
  | [] => Eps
  | [r] => r
  | r :: rs' => Seq r (seqs rs')
  end.

Fixpoint alts (r : regex) (rs : list regex) : regex :=
  match rs with
  | [] => r
  | r' :: rs' => Alt r (alts r' rs')
  end.

Fixpoint lit (s : string) : regex :=
  match s with
  | EmptyString => Eps
  | String c s' => Seq (Chr (is_char c)) (lit s')
  end.

Fixpoint lit_i (s : string) : regex :=
  match s with
  | EmptyString => Eps
  | String c s' => Seq (Chr (is_char_i c)) (lit_i s')
  end.

(** The words a pattern can consume, without priorities. *)
Fixpoint lang (r : regex) (w : string) : Prop :=
  match r with
  | Eps => w = EmptyString
  | Chr p => exists c, w = String c EmptyString /\ p c = true
  | Seq r1 r2 => exists u v, w = u +:+ v /\ lang r1 u /\ lang r2 v
  | Alt r1 r2 => lang r1 w \/ lang r2 w
  | Rep _ p => str_all p w = true
  | Group _ r1 => lang r1 w
  end.

(** The groups a pattern can set, and those every match sets. *)
Fixpoint groups (r : regex) : list nat :=
  match r with
  | Eps | Chr _ | Rep _ _ => []
  | Seq r1 r2 | Alt r1 r2 => groups r1 ++ groups r2
  | Group n r1 => n :: groups r1
  end.

Fixpoint sure_groups (r : regex) : list nat :=
  match r with
  | Eps | Chr _ | Rep _ _ => []
  | Seq r1 r2 => sure_groups r1 ++ sure_groups r2
  | Alt r1 r2 => filter (fun n => n ∈ sure_groups r2) (sure_groups r1)
  | Group n r1 => n :: sure_groups r1
  end.

(** The characters some class of the pattern accepts. *)
Fixpoint accepts (r : regex) (c : ascii) : bool :=
  match r with
  | Eps => false
  | Chr p | Rep _ p => p c
  | Seq r1 r2 | Alt r1 r2 => accepts r1 c || accepts r2 c
  | Group _ r1 => accepts r1 c
  end.

(** A match of the pattern on the word [w] that turns the groups
    [caps] into [caps']. *)
Fixpoint sem (r : regex) (w : string) (caps caps' : gmap nat string) : Prop :=
  match r with
  | Eps => w = EmptyString /\ caps' = caps
  | Chr p => (exists c, w = String c EmptyString /\ p c = true) /\ caps' = caps
  | Seq r1 r2 =>
      exists u v c1, w = u +:+ v /\ sem r1 u caps c1 /\ sem r2 v c1 caps'
  | Alt r1 r2 => sem r1 w caps caps' \/ sem r2 w caps caps'
  | Rep _ p => str_all p w = true /\ caps' = caps
  | Group n r1 => exists c1, sem r1 w caps c1 /\ caps' = <[n := w]> c1
  end.

End Re.

(* ================================================================== *)
(** * Exceptions                                                       *)
(* ================================================================== *)

Inductive exn : Type := ValueError | TypeError | AttributeError | IndexError | OSError.

(** A computation that returns or raises. *)
Inductive res (A : Type) : Type :=
| Ok (a : A)
| Raise (e : exn).
Arguments Ok {A} a.
Arguments Raise {A} e.

#[global] Instance res_ret : MRet res := fun A a => Ok a.
#[global] Instance res_bind : MBind res := fun A B f m =>
  match m with
  | Ok a => f a
  | Raise e => Raise e
  end.

(** [try: c  except ValueError: h] *)
Definition except_ValueError {A} (c h : res A) : res A :=
  match c with
  | Raise ValueError => h
  | _ => c
  end.

(** [m.group(n)] used as text: a group that took no part in the match
    is [None], and the first string operation on it raises. *)
Definition group_text (e : exn) (m : gmap nat string) (n : nat) : res string :=
  match m !! n with
  | Some s => Ok s
  | None => Raise e
  end.

(* ================================================================== *)
(** * [datetime]                                                       *)
(* ================================================================== *)

Record datetime : Type := mk_datetime {
  year : Z; month : Z; day : Z;
  hour : Z; minute : Z; second : Z; microsecond : Z
}.

Definition is_leap (y : Z) : bool :=
  (y mod 4 =? 0) && (negb (y mod 100 =? 0) || (y mod 400 =? 0)).

Definition days_in_month (y m : Z) : Z :=
  if m =? 2 then (if is_leap y then 29 else 28)
  else if (m =? 4) || (m =? 6) || (m =? 9) || (m =? 11) then 30
  else 31.

Definition days_before_year (y : Z) : Z :=
  let p := y - 1 in p * 365 + p / 4 - p / 100 + p / 400.

Fixpoint days_in_months (y : Z) (n : nat) : Z :=
  match n with
  | O => 0
  | S n' => days_in_months y n' + days_in_month y (Z.of_nat n)
  end.

Definition days_before_month (y m : Z) : Z := days_in_months y (Z.to_nat (m - 1)).

Definition toordinal (t : datetime) : Z :=
  days_before_year (year t) + days_before_month (year t) (month t) + day t.

(** The instant of [t] in microseconds since the start of day 0;
    [t1 - t2] is the difference of these, and timestamps are ordered by
    them. *)
Definition to_microseconds (t : datetime) : Z :=
  (((toordinal t * 24 + hour t) * 60 + minute t) * 60 + second t) * 1000000
  + microsecond t.

(** [(t1 - t2)] in microseconds. *)
Definition sub_us (t1 t2 : datetime) : Z := to_microseconds t1 - to_microseconds t2.

Definition in_range (lo hi x : Z) : bool := (lo <=? x) && (x <=? hi).

(** The constructor, which refuses fields out of range. *)
Definition datetime_new (y m d H M S us : Z) : res datetime :=
  if in_range 1 9999 y && in_range 1 12 m && in_range 1 (days_in_month y m) d
     && in_range 0 23 H && in_range 0 59 M && in_range 0 59 S
     && in_range 0 999999 us
  then Ok (mk_datetime y m d H M S us)
  else Raise ValueError.

(** ** [datetime.strptime]

    The library turns the format into a pattern: a directive becomes a
    named group (numbered here: Y 1, m 2, d 3, H 4, M 5, S 6, f 7), white
    space becomes [\s+], any other character stands for itself; the
    pattern is compiled with [re.IGNORECASE] and must consume the whole
    text. *)
Definition chr_in (lo hi : ascii) (c : ascii) : bool :=
  (code lo <=? code c) && (code c <=? code hi).

Fixpoint upto (n : nat) (r : Re.regex) : Re.regex :=
  match n with
  | O => Re.Eps
  | S n' => Re.opt (Re.Seq r (upto n' r))
  end.

Definition directive (d : ascii) : option Re.regex :=
  let digit := Re.Chr is_digit in
  if bool_decide (d = "Y"%char) then
    Some (Re.Group 1 (Re.times 4 digit))
  else if bool_decide (d = "m"%char) then
    Some (Re.Group 2 (Re.alts (Re.Seq (Re.lit "1") (Re.Chr (chr_in "0" "2")))
                         [Re.Seq (Re.lit "0") (Re.Chr (chr_in "1" "9"));
                          Re.Chr (chr_in "1" "9")]))
  else if bool_decide (d = "d"%char) then
    Some (Re.Group 3 (Re.alts (Re.Seq (Re.lit "3") (Re.Chr (chr_in "0" "1")))
                         [Re.Seq (Re.Chr (chr_in "1" "2")) digit;
                          Re.Seq (Re.lit "0") (Re.Chr (chr_in "1" "9"));
                          Re.Chr (chr_in "1" "9");
                          Re.Seq (Re.lit " ") (Re.Chr (chr_in "1" "9"))]))
  else if bool_decide (d = "H"%char) then
    Some (Re.Group 4 (Re.alts (Re.Seq (Re.lit "2") (Re.Chr (chr_in "0" "3")))
                         [Re.Seq (Re.Chr (chr_in "0" "1")) digit; digit]))
  else if bool_decide (d = "M"%char) then
    Some (Re.Group 5 (Re.alts (Re.Seq (Re.Chr (chr_in "0" "5")) digit) [digit]))
  else if bool_decide (d = "S"%char) then
    Some (Re.Group 6 (Re.alts (Re.Seq (Re.lit "6") (Re.Chr (chr_in "0" "1")))
                         [Re.Seq (Re.Chr (chr_in "0" "5")) digit; digit]))
  else if bool_decide (d = "f"%char) then
    Some (Re.Group 7 (Re.Seq (Re.Chr (chr_in "0" "9")) (upto 5 (Re.Chr (chr_in "0" "9")))))
  else None.

(** [after_space] tells that the previous character of the format was
    white space, a run of which gives one [\s+]. *)
Fixpoint format_regex (after_space : bool) (fmt : string) : option Re.regex :=
  match fmt with
  | EmptyString => Some Re.Eps
  | String c rest =>
      if bool_decide (c = "%"%char) then
        match rest with
        | String d rest' =>
            r ← directive d; r' ← format_regex false rest'; Some (Re.Seq r r')
        | EmptyString => None
        end
      else if is_space c then
        r' ← format_regex true rest;
        Some (if after_space then r' else Re.Seq (Re.plus true is_space) r')
      else
        r' ← format_regex false rest; Some (Re.Seq (Re.Chr (is_char_i c)) r')
  end.

(** [int(s)], which ignores surrounding white space. *)
Definition int_of_str (s : string) : Z := int_of_digits (strip s).

Definition field (found : gmap nat string) (n : nat) (dflt : Z) : Z :=
  match found !! n with
  | Some s => int_of_str s
  | None => dflt
  end.

Fixpoint pad_zeros (n : nat) (s : string) : string :=
  match n, s with
  | O, _ => s
  | S n', String c s' => String c (pad_zeros n' s')
  | S n', EmptyString => String "0" (pad_zeros n' EmptyString)
  end.

Definition fraction (found : gmap nat string) : Z :=
  match found !! 7%nat with
  | Some s => int_of_digits (pad_zeros 6 s)
  | None => 0
  end.

Definition strptime (data fmt : string) : res datetime :=
  match format_regex false fmt with
  | None => Raise ValueError
  | Some r =>
      match Re.match_ r data with
      | None => Raise ValueError
      | Some (found, EmptyString) =>
          datetime_new (field found 1 1900) (field found 2 1) (field found 3 1)
                       (field found 4 0) (field found 5 0) (field found 6 0)
                       (fraction found)
      | Some (_, String _ _) => Raise ValueError
      end
  end.

(* ================================================================== *)
(** * The data model of the script                                     *)
(* ================================================================== *)

Inductive ExtensionType : Type := UNIPLAYSONG | PLAYNITESOUND | UNKNOWN.

Inductive EventType : Type :=
| ON_GAME_SELECTED
| ON_APPLICATION_STARTED
| ON_SETTINGS_CHANGED
| VIDEO_IS_PLAYING_CHANGED
| SHOULD_PLAY_MUSIC
| SHOULD_PLAY_AUDIO
| PLAY_MUSIC_BASED_ON_SELECTED
| PAUSE_MUSIC
| RESUME_MUSIC
| FIRST_SELECT_STATE
| MEDIA_ELEMENTS_MONITOR
| ON_MAIN_MODEL_CHANGED
| OTHER.

#[global] Instance ExtensionType_eq_dec : EqDecision ExtensionType.
Proof. solve_decision. Defined.

#[global] Instance EventType_eq_dec : EqDecision EventType.
Proof. solve_decision. Defined.

(** The members of [EventType], in the order of the class body. *)
Definition EventType_members : list EventType :=
  [ON_GAME_SELECTED; ON_APPLICATION_STARTED; ON_SETTINGS_CHANGED;
   VIDEO_IS_PLAYING_CHANGED; SHOULD_PLAY_MUSIC; SHOULD_PLAY_AUDIO;
   PLAY_MUSIC_BASED_ON_SELECTED; PAUSE_MUSIC; RESUME_MUSIC; FIRST_SELECT_STATE;
   MEDIA_ELEMENTS_MONITOR; ON_MAIN_MODEL_CHANGED; OTHER].

(** A value of the metadata dictionary; [VNone] is Python's [None]. *)
Inductive value : Type :=
| VNone
| VBool (b : bool)
| VStr (s : string).

Record LogEvent : Type := mk_LogEvent {
  timestamp : datetime;
  extension : ExtensionType;
  event_type : EventType;
  message : string;
  raw_line : string;
  metadata : gmap string value
}.

(** The three lists of [LogAnalyzer]. *)
Record LogAnalyzer : Type := mk_LogAnalyzer {
  events : list LogEvent;
  uniplaysong_events : list LogEvent;
  playnitesound_events : list LogEvent
}.

(** [__init__] *)
Definition init : LogAnalyzer := mk_LogAnalyzer [] [] [].

(* ================================================================== *)
(** * [_classify_event]                                                *)
(* ================================================================== *)

Definition _classify_event (message : string) : EventType :=
  let message_lower := lower message in
  if contains "ongameselected" message_lower
     || contains "on game selected" message_lower then ON_GAME_SELECTED
  else if contains "onapplicationstarted" message_lower
     || contains "application started" message_lower then ON_APPLICATION_STARTED
  else if contains "onsettingschanged" message_lower
     || contains "on settings changed" message_lower then ON_SETTINGS_CHANGED
  else if contains "videoisplaying" message_lower
     || contains "video is playing" message_lower then VIDEO_IS_PLAYING_CHANGED
  else if contains "shouldplaymusic" message_lower
     || contains "should play music" message_lower then SHOULD_PLAY_MUSIC
  else if contains "shouldplayaudio" message_lower
     || contains "should play audio" message_lower then SHOULD_PLAY_AUDIO
  else if contains "playmusicbasedonselected" message_lower
     then PLAY_MUSIC_BASED_ON_SELECTED
  else if contains "pausemusic" message_lower
     || contains "pause music" message_lower then PAUSE_MUSIC
  else if contains "resumemusic" message_lower
     || contains "resume music" message_lower then RESUME_MUSIC
  else if contains "firstselect" message_lower
     || contains "_firstselect" message_lower
     || contains "first select" message_lower then FIRST_SELECT_STATE
  else if contains "mediaelementsmonitor" message_lower
     || contains "media elements monitor" message_lower then MEDIA_ELEMENTS_MONITOR
  else if contains "onmainmodelchanged" message_lower
     || contains "on main model changed" message_lower then ON_MAIN_MODEL_CHANGED
  else OTHER.

(** The specification's reading of the classifier: an ordered list of
    rules, each a category with its keywords, scanned for the first rule
    one of whose keywords occurs in the lower-cased message. *)
Definition classification_rules : list (EventType * list string) :=
  [(ON_GAME_SELECTED, ["ongameselected"; "on game selected"]);
   (ON_APPLICATION_STARTED, ["onapplicationstarted"; "application started"]);
   (ON_SETTINGS_CHANGED, ["onsettingschanged"; "on settings changed"]);
   (VIDEO_IS_PLAYING_CHANGED, ["videoisplaying"; "video is playing"]);
   (SHOULD_PLAY_MUSIC, ["shouldplaymusic"; "should play music"]);
   (SHOULD_PLAY_AUDIO, ["shouldplayaudio"; "should play audio"]);
   (PLAY_MUSIC_BASED_ON_SELECTED, ["playmusicbasedonselected"]);
   (PAUSE_MUSIC, ["pausemusic"; "pause music"]);
   (RESUME_MUSIC, ["resumemusic"; "resume music"]);
   (FIRST_SELECT_STATE, ["firstselect"; "_firstselect"; "first select"]);
   (MEDIA_ELEMENTS_MONITOR, ["mediaelementsmonitor"; "media elements monitor"]);
   (ON_MAIN_MODEL_CHANGED, ["onmainmodelchanged"; "on main model changed"])].

Definition rule_matches (message : string) (rule : EventType * list string) : bool :=
  existsb (fun kw => contains kw (lower message)) rule.2.

Fixpoint first_match (rules : list (EventType * list string)) (message : string)
    : EventType :=
  match rules with
  | [] => OTHER
  | rule :: rules' =>
      if rule_matches message rule then rule.1 else first_match rules' message
  end.

(* ================================================================== *)
(** * [_extract_metadata]                                              *)
(* ================================================================== *)

(** [[:\s]] *)
Definition colon_or_space (c : ascii) : bool := is_char ":" c || is_space c.
(** [[^,\(]] *)
Definition not_comma_paren (c : ascii) : bool := negb (is_char "," c || is_char "(" c).
(** [[^\s,]] *)
Definition not_space_comma (c : ascii) : bool := negb (is_space c || is_char "," c).

Definition true_false : Re.regex := Re.Alt (Re.lit_i "true") (Re.lit_i "false").
Definition returned : Re.regex := Re.Alt (Re.lit_i "returned") (Re.lit_i "returned:").

(** All the patterns of [_extract_metadata] are used with [re.IGNORECASE]. *)
Definition first_select_re : Re.regex :=
  Re.seqs [Re.lit_i "FirstSelect"; Re.plus true colon_or_space; Re.Group 1 true_false].

Definition skip_re : Re.regex :=
  Re.seqs [Re.lit_i "SkipMusic"; Re.plus true colon_or_space; Re.Group 1 true_false].

Definition video_re : Re.regex :=
  Re.seqs [Re.lit_i "VideoIsPlaying"; Re.plus true colon_or_space;
           Re.Group 1 (Re.alts (Re.lit_i "true")
             [Re.lit_i "false";
              Re.seqs [Re.lit_i "changing from "; Re.plus true is_word;
                       Re.lit_i " to "; Re.plus true is_word]])].

Definition game_re : Re.regex :=
  Re.seqs [Re.lit_i "Game"; Re.plus true colon_or_space;
           Re.Group 1 (Re.plus true not_comma_paren)].

Definition view_re : Re.regex :=
  Re.seqs [Re.lit_i "ActiveView"; Re.plus true colon_or_space;
           Re.Group 1 (Re.plus true not_space_comma)].

Definition mode_re : Re.regex :=
  Re.seqs [Re.lit_i "Mode"; Re.plus true colon_or_space;
           Re.Group 1 (Re.Alt (Re.lit_i "Desktop") (Re.lit_i "Fullscreen"))].

Definition should_play_re : Re.regex :=
  Re.seqs [Re.lit_i "ShouldPlayMusic"; Re.plus true colon_or_space;
           Re.Group 1 returned; Re.Rep true is_space; Re.Group 2 true_false].

Definition should_audio_re : Re.regex :=
  Re.seqs [Re.lit_i "ShouldPlayAudio"; Re.plus true colon_or_space;
           Re.Group 1 returned; Re.Rep true is_space; Re.Group 2 true_false].

(** [m.group(n).lower() == 'true']: raises [AttributeError] on [None]. *)
Definition group_bool (m : gmap nat string) (n : nat) : res value :=
  g ← group_text AttributeError m n;
  mret (VBool (bool_decide (lower g = "true"))).

(** [m.group(n).strip()] *)
Definition group_stripped (m : gmap nat string) (n : nat) : res value :=
  g ← group_text AttributeError m n; mret (VStr (strip g)).

(** [m.group(n)], stored as it is. *)
Definition group_raw (m : gmap nat string) (n : nat) : res value :=
  mret (match m !! n with Some g => VStr g | None => VNone end).

(** One step of [_extract_metadata]:
    [x = re.search(r, message, re.IGNORECASE); if x: metadata[key] = conv(x)]. *)
Definition extract_field (r : Re.regex) (key : string)
    (conv : gmap nat string -> res value) (message : string)
    (metadata : gmap string value) : res (gmap string value) :=
  match Re.search r message with
  | Some (m, _) => v ← conv m; mret (<[key := v]> metadata)
  | None => mret metadata
  end.

Definition _extract_metadata (message : string) (event_type : EventType)
    : res (gmap string value) :=
  let metadata : gmap string value := ∅ in
  metadata ← extract_field first_select_re "firstSelect" (fun m => group_bool m 1) message metadata;
  metadata ← extract_field skip_re "skipMusic" (fun m => group_bool m 1) message metadata;
  metadata ← extract_field video_re "videoIsPlaying" (fun m => group_raw m 1) message metadata;
  metadata ← extract_field game_re "game" (fun m => group_stripped m 1) message metadata;
  metadata ← extract_field view_re "activeView" (fun m => group_raw m 1) message metadata;
  metadata ← extract_field mode_re "mode" (fun m => group_raw m 1) message metadata;
  metadata ← extract_field should_play_re "shouldPlayMusic" (fun m => group_bool m 2) message metadata;
  metadata ← extract_field should_audio_re "shouldPlayAudio" (fun m => group_bool m 2) message metadata;
  mret metadata.

(** The keys [_extract_metadata] assigns, in the order of its body. *)
Definition metadata_fields : list string :=
  ["firstSelect"; "skipMusic"; "videoIsPlaying"; "game"; "activeView"; "mode";
   "shouldPlayMusic"; "shouldPlayAudio"].

(** The same steps as a table: pattern, key and conversion, in the
    order of the body, and the loop that runs a table. *)
Definition field_steps
    : list (Re.regex * string * (gmap nat string -> res value)) :=
  [(first_select_re, "firstSelect", fun m => group_bool m 1);
   (skip_re, "skipMusic", fun m => group_bool m 1);
   (video_re, "videoIsPlaying", fun m => group_raw m 1);
   (game_re, "game", fun m => group_stripped m 1);
   (view_re, "activeView", fun m => group_raw m 1);
   (mode_re, "mode", fun m => group_raw m 1);
   (should_play_re, "shouldPlayMusic", fun m => group_bool m 2);
   (should_audio_re, "shouldPlayAudio", fun m => group_bool m 2)].

Fixpoint extract_all
    (steps : list (Re.regex * string * (gmap nat string -> res value)))
    (message : string) (metadata : gmap string value)
    : res (gmap string value) :=
  match steps with
  | [] => mret metadata
  | (r, key, conv) :: steps' =>
      metadata ← extract_field r key conv message metadata;
      extract_all steps' message metadata
  end.

(* ================================================================== *)
(** * [_parse_single_log_file]                                         *)
(* ================================================================== *)

Definition digit : Re.regex := Re.Chr is_digit.

(** [\d{4}-\d{2}-\d{2} \d{2}:\d{2}:\d{2}\.\d{3}] *)
Definition timestamp_re : Re.regex :=
  Re.seqs [Re.times 4 digit; Re.lit "-"; Re.times 2 digit; Re.lit "-";
           Re.times 2 digit; Re.lit " "; Re.times 2 digit; Re.lit ":";
           Re.times 2 digit; Re.lit ":"; Re.times 2 digit;
           Re.lit "."; Re.times 3 digit].

Definition spaces : Re.regex := Re.Rep true is_space.

(** The timestamp, then three more fields after a bar each, with white
    space allowed around the bars: a word (the level), a lazy run of any
    characters (the extension) and the rest of the line (the message). *)
Definition log_pattern : Re.regex :=
  Re.seqs [Re.Group 1 timestamp_re; spaces; Re.lit "|"; spaces;
           Re.Group 2 (Re.plus true is_word); spaces; Re.lit "|"; spaces;
           Re.Group 3 (Re.Rep false is_dot); spaces; Re.lit "|"; spaces;
           Re.Group 4 (Re.Rep true is_dot)].

(** The timestamp in square brackets, white space, a word in square
    brackets (the level), white space, the rest of the line. *)
Definition filelogger_pattern : Re.regex :=
  Re.seqs [Re.lit "["; Re.Group 1 timestamp_re; Re.lit "]"; Re.plus true is_space;
           Re.lit "["; Re.Group 2 (Re.plus true is_word); Re.lit "]";
           Re.plus true is_space; Re.Group 3 (Re.Rep true is_dot)].

(** The timestamp, white space, the rest of the line. *)
Definition simple_pattern : Re.regex :=
  Re.seqs [Re.Group 1 timestamp_re; Re.plus true is_space;
           Re.Group 2 (Re.Rep true is_dot)].

Inductive line_format : Type := Tabular | FileLogger | Simple.

(** The variables a recognised line binds. [level] is bound and never
    read, so it may stay [None]. *)
Record parsed : Type := mk_parsed {
  format : line_format;
  timestamp_str : string;
  level : option string;
  extension_name : string;
  parsed_message : string
}.

(** The extension name the FileLogger and the simple branch read off the
    message (the same chain of tests in both). *)
Definition name_in (text : string) : string :=
  if contains "[UniPlaySong]" text || contains "UniPlaySong" text then "UniPlaySong"
  else if contains "[PlayniteSound]" text || contains "PlayniteSound" text
  then "PlayniteSound"
  else "Unknown".

(** The three recognisers, in order; [None] is the [continue] of a line
    that matches none. *)
Definition recognise (line : string) : res (option parsed) :=
  match Re.match_ log_pattern line with
  | Some (m, _) =>
      ts ← group_text TypeError m 1;
      ext ← group_text TypeError m 3;
      msg ← group_text TypeError m 4;
      mret (Some (mk_parsed Tabular ts (m !! 2%nat) ext msg))
  | None =>
      match Re.match_ filelogger_pattern line with
      | Some (m, _) =>
          ts ← group_text TypeError m 1;
          msg ← group_text TypeError m 3;
          mret (Some (mk_parsed FileLogger ts (m !! 2%nat) (name_in msg) msg))
      | None =>
          match Re.match_ simple_pattern line with
          | Some (m, _) =>
              ts ← group_text TypeError m 1;
              rest ← group_text TypeError m 2;
              mret (Some (mk_parsed Simple ts (Some "INFO") (name_in rest) rest))
          | None => mret None
          end
      end
  end.

Definition fmt_fraction : string := "%Y-%m-%d %H:%M:%S.%f".
Definition fmt_seconds : string := "%Y-%m-%d %H:%M:%S".

(** The two nested [try] blocks; [None] is the inner [continue]. *)
Definition parse_timestamp (timestamp_str : string) : res (option datetime) :=
  except_ValueError
    (t ← strptime timestamp_str fmt_fraction; mret (Some t))
    (except_ValueError
       (t ← strptime timestamp_str fmt_seconds; mret (Some t))
       (mret None)).

(** "Determine extension type" *)
Definition resolve_extension (extension_name message : string) : ExtensionType :=
  if contains "UniPlaySong" extension_name || contains "[UniPlaySong]" message
  then UNIPLAYSONG
  else if contains "PlayniteSound" extension_name || contains "[PlayniteSound]" message
  then PLAYNITESOUND
  else UNKNOWN.

(** The body of the loop over the lines: the event to append, or [None]
    when the line is left by a [continue]. *)
Definition process_line (raw : string) : res (option LogEvent) :=
  let line := strip raw in
  if bool_decide (line = "") then mret None else
  p ← recognise line;
  match p with
  | None => mret None
  | Some p =>
      t ← parse_timestamp (timestamp_str p);
      match t with
      | None => mret None
      | Some timestamp =>
          let extension := resolve_extension (extension_name p) (parsed_message p) in
          if bool_decide (extension = UNKNOWN) then mret None else
          let event_type := _classify_event (parsed_message p) in
          metadata ← _extract_metadata (parsed_message p) event_type;
          mret (Some (mk_LogEvent timestamp extension event_type
                                  (parsed_message p) line metadata))
      end
  end.

(** The three [append]s. *)
Definition store_event (event : LogEvent) (self : LogAnalyzer) : LogAnalyzer :=
  mk_LogAnalyzer
    (events self ++ [event])
    (if bool_decide (extension event = UNIPLAYSONG)
     then uniplaysong_events self ++ [event] else uniplaysong_events self)
    (if bool_decide (extension event = UNIPLAYSONG) then playnitesound_events self
     else if bool_decide (extension event = PLAYNITESOUND)
     then playnitesound_events self ++ [event] else playnitesound_events self).

(** The loop; an exception leaves it with the store as it is then. *)
Fixpoint parse_lines (lines : list string) (self : LogAnalyzer)
    : LogAnalyzer * option exn :=
  match lines with
  | [] => (self, None)
  | raw :: lines' =>
      match process_line raw with
      | Ok None => parse_lines lines' self
      | Ok (Some event) => parse_lines lines' (store_event event self)
      | Raise e => (self, Some e)
      end
  end.

(** [_parse_single_log_file], given the lines [readlines()] returns:
    the store afterwards and the number of events found ([0] from the
    [except Exception] handler). *)
Definition _parse_single_log_file (lines : list string) (self : LogAnalyzer)
    : LogAnalyzer * nat :=
  let events_before := length (events self) in
  match parse_lines lines self with
  | (self', None) => (self', (length (events self') - events_before)%nat)
  | (self', Some _) => (self', 0%nat)
  end.

(** [parse_log_files], given the lines of each log file that exists. *)
Fixpoint parse_files (files : list (list string)) (self : LogAnalyzer)
    (total_events : nat) : LogAnalyzer * nat :=
  match files with
  | [] => (self, total_events)
  | lines :: files' =>
      let '(self', events_found) := _parse_single_log_file lines self in
      parse_files files' self' (total_events + events_found)%nat
  end.

Definition parse_log_files (files : list (list string)) (self : LogAnalyzer)
    : LogAnalyzer * bool :=
  match files with
  | [] => (self, false)
  | _ =>
      let '(self', total_events) := parse_files files self 0%nat in
      (self', bool_decide (0 < total_events)%nat)
  end.

(* ================================================================== *)
(** * Reports                                                          *)
(* ================================================================== *)

(** A line of a report, with the values its f-string interpolates.
    Times are carried in microseconds; the script prints them in
    milliseconds with one decimal. *)
Inductive item : Type :=
| Text (s : string)
| Rule (c : ascii) (n : nat)
| BaselineLine (t : datetime)
| CountLine (label : string) (n : nat)
| WindowHeader (window : Z)
| TimelineRow (delta_us : Z) (ext : ExtensionType) (et : EventType) (msg : string)
| FirstAt (ext : ExtensionType) (t : datetime)
| MessageLine (label : string) (msg : string)
| MetadataLine (md : gmap string value)
| TimeDifference (time_diff_us : Z)
| SignificantTimingDifference
| OffsetRow (delta_us : Z) (msg : string).

(** [sorted(l, key=key)]: a stable sort, here by insertion. *)
Fixpoint insert_sorted {A} (key : A -> Z) (x : A) (l : list A) : list A :=
  match l with
  | [] => [x]
  | y :: l' => if key x <=? key y then x :: l else y :: insert_sorted key x l'
  end.

Fixpoint sorted {A} (key : A -> Z) (l : list A) : list A :=
  match l with
  | [] => []
  | x :: l' => insert_sorted key x (sorted key l')
  end.

Definition timestamp_key (e : LogEvent) : Z := to_microseconds (timestamp e).

(** [int(x)] on the quotient of [n] by [d]: rounds towards zero. *)
Definition int_div (n d : Z) : Z := Z.quot n d.

(** [window = int((event.timestamp - baseline).total_seconds())] *)
Definition window_of (baseline : datetime) (event : LogEvent) : Z :=
  int_div (sub_us (timestamp event) baseline) 1000000.

(** [time_windows[window].append(event)] on a [defaultdict(list)] *)
Definition add_to_window (baseline : datetime)
    (time_windows : gmap Z (list LogEvent)) (event : LogEvent)
    : gmap Z (list LogEvent) :=
  let window := window_of baseline event in
  <[window := default [] (time_windows !! window) ++ [event]]> time_windows.

Definition group_windows (baseline : datetime) (sorted_events : list LogEvent)
    : gmap Z (list LogEvent) :=
  foldl (add_to_window baseline) ∅ sorted_events.

(** The dictionary [time_windows] of [create_timeline_report]. *)
Definition time_windows (self : LogAnalyzer) : gmap Z (list LogEvent) :=
  match sorted timestamp_key (events self) with
  | [] => ∅
  | (first :: _) as sorted_events => group_windows (timestamp first) sorted_events
  end.

Definition timeline_row (baseline : datetime) (event : LogEvent) : item :=
  TimelineRow (sub_us (timestamp event) baseline) (extension event)
              (event_type event) (str_take 60 (message event)).

Definition window_block (baseline : datetime)
    (time_windows : gmap Z (list LogEvent)) (window : Z) : list item :=
  WindowHeader window ::
  map (timeline_row baseline)
      (sorted timestamp_key (default [] (time_windows !! window))).

Definition create_timeline_report (self : LogAnalyzer) : list item :=
  match sorted timestamp_key (events self) with
  | [] => [Text "No events found in log file."]
  | (first :: _) as sorted_events =>
      let baseline := timestamp first in
      let time_windows := group_windows baseline sorted_events in
      [Rule "=" 100; Text "TIMELINE COMPARISON REPORT"; Rule "=" 100;
       BaselineLine baseline;
       CountLine "Total events: " (length sorted_events);
       CountLine "UniPlaySong events: " (length (uniplaysong_events self));
       CountLine "PlayniteSound events: " (length (playnitesound_events self));
       Rule "=" 100; Text "EVENT TIMELINE:"]
      ++ concat (map (window_block baseline time_windows)
                     (sorted id (map fst (map_to_list time_windows))))
  end.

(** [[e for e in l if e.event_type == et]] *)
Definition of_type (et : EventType) (l : list LogEvent) : list LogEvent :=
  filter (fun e => event_type e = et) l.

(** The optional metadata line: an empty dictionary is false. *)
Definition metadata_line (e : LogEvent) : list item :=
  if bool_decide (metadata e = ∅) then [] else [MetadataLine (metadata e)].

(** [abs(time_diff) > 100], with [time_diff] in milliseconds. *)
Definition significant (time_diff_us : Z) : bool := 100000 <? Z.abs time_diff_us.

(** The comparison of the first [OnGameSelected] of each extension. *)
Definition first_selection_block (ups_selections ps_selections : list LogEvent)
    : list item :=
  match ups_selections, ps_selections with
  | ups_first :: _, ps_first :: _ =>
      [Text "First OnGameSelected Comparison:";
       FirstAt UNIPLAYSONG (timestamp ups_first);
       MessageLine "  " (message ups_first)]
      ++ metadata_line ups_first ++
      [FirstAt PLAYNITESOUND (timestamp ps_first);
       MessageLine "  " (message ps_first)]
      ++ metadata_line ps_first ++
      let time_diff := sub_us (timestamp ups_first) (timestamp ps_first) in
      TimeDifference time_diff ::
      (if significant time_diff then [SignificantTimingDifference] else [])
  | _, _ => []
  end.

Definition first_video_block (ups_video ps_video : list LogEvent) : list item :=
  match ups_video, ps_video with
  | u :: _, p :: _ =>
      [Text "First VideoIsPlaying Change:";
       MessageLine "UniPlaySong: " (message u);
       MessageLine "PlayniteSound: " (message p)]
  | _, _ => []
  end.

(** [for event in l[:5]], each offset taken from [self.events[0]]. *)
Definition offset_rows (self : LogAnalyzer) (l : list LogEvent) : res (list item) :=
  match take 5 l with
  | [] => mret []
  | shown =>
      match events self with
      | [] => Raise IndexError
      | first :: _ =>
          mret (map (fun event =>
                       OffsetRow (sub_us (timestamp event) (timestamp first))
                                 (message event)) shown)
      end
  end.

Definition first_select_block (self : LogAnalyzer) (label : string)
    (l : list LogEvent) : res (list item) :=
  match l with
  | [] => mret []
  | _ => rows ← offset_rows self l; mret (Text label :: rows)
  end.

Definition create_comparison_report (self : LogAnalyzer) : res (list item) :=
  let ups_selections := of_type ON_GAME_SELECTED (uniplaysong_events self) in
  let ps_selections := of_type ON_GAME_SELECTED (playnitesound_events self) in
  let ups_video := of_type VIDEO_IS_PLAYING_CHANGED (uniplaysong_events self) in
  let ps_video := of_type VIDEO_IS_PLAYING_CHANGED (playnitesound_events self) in
  let ups_first := of_type FIRST_SELECT_STATE (uniplaysong_events self) in
  let ps_first := of_type FIRST_SELECT_STATE (playnitesound_events self) in
  ups_rows ← first_select_block self "UniPlaySong _firstSelect changes:" ups_first;
  ps_rows ← first_select_block self "PlayniteSound _firstSelect changes:" ps_first;
  mret ([Rule "=" 100; Text "SIDE-BY-SIDE COMPARISON"; Rule "=" 100;
         Text "OnGameSelected Events:";
         CountLine "  UniPlaySong: " (length ups_selections);
         CountLine "  PlayniteSound: " (length ps_selections);
         Rule "-" 100]
        ++ first_selection_block ups_selections ps_selections ++
        [Text "VideoIsPlaying Changes:";
         CountLine "  UniPlaySong: " (length ups_video);
         CountLine "  PlayniteSound: " (length ps_video)]
        ++ first_video_block ups_video ps_video ++
        [Text "_firstSelect State Changes:";
         CountLine "  UniPlaySong: " (length ups_first);
         CountLine "  PlayniteSound: " (length ps_first)]
        ++ ups_rows ++ ps_rows).

(* ================================================================== *)
(** * Readings of the specification, and sample inputs                 *)
(* ================================================================== *)

(** The tests that the script performs on a recognised line for each
    extension: in the tabular format the name in the extension field or
    the bracketed name in the message (a bare name in the message of a
    tabular line is not looked for); in the other two formats the name,
    bracketed or bare, in the message. *)
Definition marks_uniplaysong (p : parsed) : bool :=
  match format p with
  | Tabular => contains "UniPlaySong" (extension_name p)
               || contains "[UniPlaySong]" (parsed_message p)
  | _ => contains "[UniPlaySong]" (parsed_message p)
         || contains "UniPlaySong" (parsed_message p)
  end.

Definition marks_playnitesound (p : parsed) : bool :=
  match format p with
  | Tabular => contains "PlayniteSound" (extension_name p)
               || contains "[PlayniteSound]" (parsed_message p)
  | _ => contains "[PlayniteSound]" (parsed_message p)
         || contains "PlayniteSound" (parsed_message p)
  end.

(** The names of each extension anywhere in the source-hint or in the
    message of a recognised line, bare or bracketed (a bracketed name
    contains the bare one): the markers when the words of the
    specification are taken for every format alike. *)
Definition names_uniplaysong (p : parsed) : bool :=
  contains "UniPlaySong" (extension_name p)
  || contains "UniPlaySong" (parsed_message p).

Definition names_playnitesound (p : parsed) : bool :=
  contains "PlayniteSound" (extension_name p)
  || contains "PlayniteSound" (parsed_message p).

(** What the source-hint field says by itself. *)
Definition hint_source (extension_name : string) : option ExtensionType :=
  if contains "UniPlaySong" extension_name then Some UNIPLAYSONG
  else if contains "PlayniteSound" extension_name then Some PLAYNITESOUND
  else None.

(** The resolution order the specification describes: the hint first,
    the message (bracketed or bare name) only when the hint is
    inconclusive. *)
Definition hint_first_resolution (extension_name message : string) : ExtensionType :=
  match hint_source extension_name with
  | Some ext => ext
  | None =>
      if contains "[UniPlaySong]" message || contains "UniPlaySong" message
      then UNIPLAYSONG
      else if contains "[PlayniteSound]" message || contains "PlayniteSound" message
      then PLAYNITESOUND
      else UNKNOWN
  end.

(** The text of a timestamp ends in a dot and three digits. *)
Definition dot_three_digits (ts : string) : Prop :=
  exists pre d1 d2 d3,
    ts = pre +:+ String "." (String d1 (String d2 (String d3 "")))
    /\ is_digit d1 = true /\ is_digit d2 = true /\ is_digit d3 = true.

(** A step is sound when its conversion succeeds, with a value that is
    not [None], on every match of its pattern. *)
Definition step_ok (st : Re.regex * string * (gmap nat string -> res value)) : Prop :=
  forall message m rest,
    Re.search st.1.1 message = Some (m, rest) ->
    exists v, st.2 m = Ok v /\ v <> VNone.

(** The partition invariant of the store: each of the two lists is the
    list of all events filtered by extension, and no stored event is of
    an unknown extension. *)
Definition store_invariant (self : LogAnalyzer) : Prop :=
  uniplaysong_events self = filter (fun e => extension e = UNIPLAYSONG) (events self)
  /\ playnitesound_events self
     = filter (fun e => extension e = PLAYNITESOUND) (events self)
  /\ Forall (fun e => extension e <> UNKNOWN) (events self).

(** The time differences a report shows, in microseconds, and whether it
    carries the "significant timing difference" flag. *)
Definition time_differences (report : list item) : list Z :=
  omap (fun i => match i with TimeDifference d => Some d | _ => None end) report.

Definition flagged (report : list item) : bool :=
  existsb (fun i => match i with SignificantTimingDifference => true | _ => false end)
          report.

(** The offset rows a report shows: offset in microseconds and message. *)
Definition offsets_shown (report : list item) : list (Z * string) :=
  omap (fun i => match i with OffsetRow d m => Some (d, m) | _ => None end) report.

(** The head of a list is least when no element has a smaller key. *)
Definition head_least {A} (key : A -> Z) (l : list A) : Prop :=
  match l with
  | [] => True
  | first :: _ => Forall (fun e => key first <= key e) l
  end.

(** The pattern [strptime] makes of [fmt_fraction]: the pieces before
    the dot, and the dot with the fraction group. *)
Definition dir (d : ascii) : Re.regex := default Re.Eps (directive d).

Definition fraction_prefix : list Re.regex :=
  [dir "Y"; Re.Chr (is_char_i "-"); dir "m"; Re.Chr (is_char_i "-"); dir "d";
   Re.plus true is_space; dir "H"; Re.Chr (is_char_i ":"); dir "M";
   Re.Chr (is_char_i ":"); dir "S"].

Definition fraction_suffix : Re.regex :=
  Re.Seq (Re.Chr (is_char_i ".")) (Re.Seq (dir "f") Re.Eps).

(** The pieces of [timestamp_re] before its dot. *)
Definition timestamp_prefix : list Re.regex :=
  [Re.times 4 digit; Re.lit "-"; Re.times 2 digit; Re.lit "-";
   Re.times 2 digit; Re.lit " "; Re.times 2 digit; Re.lit ":";
   Re.times 2 digit; Re.lit ":"; Re.times 2 digit].

Definition not_dot (c : ascii) : bool := negb (is_char "." c).

(** The store after the given files, from a fresh analyzer. *)
Definition store_of (files : list (list string)) : LogAnalyzer :=
  (parse_log_files files init).1.

(** An anchor and events 0.2 s, 0.9 s, 1.1 s and 2.0 s after it. *)
Definition windowing_lines : list string :=
  ["2024-01-01 10:00:00.000 | INFO | UniPlaySong | anchor";
   "2024-01-01 10:00:00.200 | INFO | UniPlaySong | a";
   "2024-01-01 10:00:00.900 | INFO | PlayniteSound | b";
   "2024-01-01 10:00:01.100 | INFO | UniPlaySong | c";
   "2024-01-01 10:00:02.000 | INFO | PlayniteSound | d"].

(** Two extensions whose first [VideoIsPlaying] events lie 500 ms apart,
    and whose first [OnGameSelected] events lie 50 ms apart, UniPlaySong
    first. *)
Definition video_lines : list string :=
  ["2024-01-01 10:00:00.000 | INFO | UniPlaySong | VideoIsPlaying: true";
   "2024-01-01 10:00:00.500 | INFO | PlayniteSound | VideoIsPlaying: true"].

Definition selection_lines : list string :=
  ["2024-01-01 10:00:00.000 | INFO | UniPlaySong | OnGameSelected Game: Foo";
   "2024-01-01 10:00:00.050 | INFO | PlayniteSound | OnGameSelected Game: Foo"].

(** A store whose first event is not its earliest: the second line is
    one second older than the first. *)
Definition unordered_lines : list string :=
  ["2024-01-01 10:00:01.000 | INFO | UniPlaySong | OnGameSelected Game: Foo";
   "2024-01-01 10:00:00.000 | INFO | UniPlaySong | _firstSelect: true"].

(** A message in which every pattern of [_extract_metadata] matches. *)
Definition full_message : string :=
  "FirstSelect: true SkipMusic: false VideoIsPlaying: true Game: Foo, ActiveView: Library, Mode: Desktop ShouldPlayMusic: returned true ShouldPlayAudio: returned: false".

(** The least timestamp of a list of events, in microseconds. *)
Definition earliest_us (l : list LogEvent) : option Z :=
  match map timestamp_key l with
  | [] => None
  | k :: ks => Some (foldr Z.min k ks)
  end.

(* ================================================================== *)
(** * The critical events report and the summary report                *)
(* ================================================================== *)

(** [event_type.value] *)
Definition EventType_value (t : EventType) : string :=
  match t with
  | ON_GAME_SELECTED => "OnGameSelected"
  | ON_APPLICATION_STARTED => "OnApplicationStarted"
  | ON_SETTINGS_CHANGED => "OnSettingsChanged"
  | VIDEO_IS_PLAYING_CHANGED => "VideoIsPlaying"
  | SHOULD_PLAY_MUSIC => "ShouldPlayMusic"
  | SHOULD_PLAY_AUDIO => "ShouldPlayAudio"
  | PLAY_MUSIC_BASED_ON_SELECTED => "PlayMusicBasedOnSelected"
  | PAUSE_MUSIC => "PauseMusic"
  | RESUME_MUSIC => "ResumeMusic"
  | FIRST_SELECT_STATE => "_firstSelect"
  | MEDIA_ELEMENTS_MONITOR => "MediaElementsMonitor"
  | ON_MAIN_MODEL_CHANGED => "OnMainModelChanged"
  | OTHER => "Other"
  end.

(** [critical_types] of [create_critical_events_report] *)
Definition critical_types : list EventType :=
  [ON_APPLICATION_STARTED; ON_GAME_SELECTED; VIDEO_IS_PLAYING_CHANGED;
   FIRST_SELECT_STATE; SHOULD_PLAY_MUSIC; SHOULD_PLAY_AUDIO;
   PLAY_MUSIC_BASED_ON_SELECTED; PAUSE_MUSIC; RESUME_MUSIC].

(** A line of the critical events report. *)
Inductive critical_item : Type :=
| CText (s : string)
| CRule (c : ascii) (n : nat)
| CFound (n : nat)
| CHeading (ext : ExtensionType)
| CEvent (delta_us : Z) (et : EventType)
| CMessage (msg : string)
| CMetadata (md : gmap string value).

(** The lines of one event of the critical events report. *)
Definition critical_event_lines (baseline : datetime) (event : LogEvent)
    : list critical_item :=
  [CEvent (sub_us (timestamp event) baseline) (event_type event);
   CMessage (message event)]
  ++ (if bool_decide (metadata event = ∅) then [] else [CMetadata (metadata event)]).

(** The body of the loop over the two extensions. *)
Definition critical_block (baseline : datetime) (critical_events : list LogEvent)
    (ext_type : ExtensionType) : list critical_item :=
  match filter (fun e => extension e = ext_type) critical_events with
  | [] => []
  | ext_events =>
      [CHeading ext_type; CRule "-" 100]
      ++ concat (map (critical_event_lines baseline) ext_events)
  end.

(** [[e for e in self.events if e.event_type in critical_types]], sorted
    by timestamp. *)
Definition critical_events_of (self : LogAnalyzer) : list LogEvent :=
  sorted timestamp_key (filter (fun e => event_type e ∈ critical_types) (events self)).

Definition create_critical_events_report (self : LogAnalyzer) : list critical_item :=
  match critical_events_of self with
  | [] => [CText "No critical events found."]
  | (first :: _) as critical_events =>
      let baseline := timestamp first in
      [CRule "=" 100; CText "CRITICAL EVENTS ANALYSIS"; CRule "=" 100;
       CFound (length critical_events); CRule "=" 100]
      ++ concat (map (critical_block baseline critical_events)
                     [UNIPLAYSONG; PLAYNITESOUND])
  end.

(** The event rows a critical events report shows. *)
Definition critical_rows (report : list critical_item) : list (Z * EventType) :=
  omap (fun i => match i with CEvent d t => Some (d, t) | _ => None end) report.

(** The number of events a critical events report announces. *)
Definition critical_found (report : list critical_item) : list nat :=
  omap (fun i => match i with CFound n => Some n | _ => None end) report.

(** The enumeration as a countable type, for dictionaries keyed by it. *)
Definition EventType_index (t : EventType) : nat :=
  match t with
  | ON_GAME_SELECTED => 0
  | ON_APPLICATION_STARTED => 1
  | ON_SETTINGS_CHANGED => 2
  | VIDEO_IS_PLAYING_CHANGED => 3
  | SHOULD_PLAY_MUSIC => 4
  | SHOULD_PLAY_AUDIO => 5
  | PLAY_MUSIC_BASED_ON_SELECTED => 6
  | PAUSE_MUSIC => 7
  | RESUME_MUSIC => 8
  | FIRST_SELECT_STATE => 9
  | MEDIA_ELEMENTS_MONITOR => 10
  | ON_MAIN_MODEL_CHANGED => 11
  | OTHER => 12
  end%nat.

Definition EventType_of_index (n : nat) : EventType :=
  default OTHER (EventType_members !! n).

#[global] Instance EventType_countable : Countable EventType.
Proof.
  refine (inj_countable' EventType_index EventType_of_index _). by intros [].
Defined.

(** [a <= b] on [str]: the lexicographic order of the characters. *)
Fixpoint str_leb (a b : string) : bool :=
  match a, b with
  | EmptyString, _ => true
  | String _ _, EmptyString => false
  | String x a', String y b' =>
      if code x <? code y then true
      else if code y <? code x then false
      else str_leb a' b'
  end.

(** [sorted(l, key=...)] for a key with the order [leb]. *)
Fixpoint insert_by {A} (leb : A -> A -> bool) (x : A) (l : list A) : list A :=
  match l with
  | [] => [x]
  | y :: l' => if leb x y then x :: l else y :: insert_by leb x l'
  end.

Fixpoint sort_by {A} (leb : A -> A -> bool) (l : list A) : list A :=
  match l with
  | [] => []
  | x :: l' => insert_by leb x (sort_by leb l')
  end.

Definition value_leb (a b : EventType) : bool :=
  str_leb (EventType_value a) (EventType_value b).

(** [counts[event.event_type] += 1] on a [defaultdict(int)], and the
    loop that counts a list of events. *)
Definition count_event (counts : gmap EventType nat) (event : LogEvent)
    : gmap EventType nat :=
  <[event_type event := S (default 0%nat (counts !! event_type event))]> counts.

Definition count_types (l : list LogEvent) : gmap EventType nat :=
  foldl count_event ∅ l.

(** A line of the summary report. [diff] is [None] when the difference
    text is empty. *)
Inductive summary_item : Type :=
| SText (s : string)
| SRule (c : ascii) (n : nat)
| SCountRow (et : EventType) (ups_count ps_count : nat) (diff : option Z)
| SSelectionBeforeVideo
| STimestamp (label : string) (t : datetime)
| SDifference (difference_us : Z)
| SVideoBeforeSelection
| SFirstSelectImmediate
| SFirstSelectDiffers.

Definition count_row (ups_counts ps_counts : gmap EventType nat)
    (event_type : EventType) : summary_item :=
  let ups_count := default 0%nat (ups_counts !! event_type) in
  let ps_count := default 0%nat (ps_counts !! event_type) in
  let diff := Z.of_nat ups_count - Z.of_nat ps_count in
  SCountRow event_type ups_count ps_count
            (if bool_decide (diff = 0) then None else Some diff).

(** "Check if OnGameSelected fires before VideoIsPlaying is set" *)
Definition selection_video_finding (ups_selections ups_video : list LogEvent)
    : list summary_item :=
  match ups_selections, ups_video with
  | first_selection :: _, first_video :: _ =>
      if timestamp_key first_selection <? timestamp_key first_video then
        [SSelectionBeforeVideo;
         STimestamp "   OnGameSelected: " (timestamp first_selection);
         STimestamp "   VideoIsPlaying: " (timestamp first_video);
         SDifference (sub_us (timestamp first_video) (timestamp first_selection))]
      else [SVideoBeforeSelection]
  | _, _ => []
  end.

(** "Check _firstSelect clearing timing":
    [abs((first_clear.timestamp - first_selection.timestamp).total_seconds()) < 0.1] *)
Definition first_clear_finding (ups_selections ups_first_changes : list LogEvent)
    : list summary_item :=
  match ups_selections, ups_first_changes with
  | first_selection :: _, first_clear :: _ =>
      if Z.abs (sub_us (timestamp first_clear) (timestamp first_selection)) <? 100000
      then [SFirstSelectImmediate]
      else [SFirstSelectDiffers]
  | _, _ => []
  end.

Definition create_summary_report (self : LogAnalyzer) : list summary_item :=
  match events self with
  | [] => [SText "No events to analyze."]
  | _ =>
      let ups_counts := count_types (uniplaysong_events self) in
      let ps_counts := count_types (playnitesound_events self) in
      let all_types : gset EventType := dom ups_counts ∪ dom ps_counts in
      let ups_selections := of_type ON_GAME_SELECTED (uniplaysong_events self) in
      let ups_video := of_type VIDEO_IS_PLAYING_CHANGED (uniplaysong_events self) in
      let ups_first_changes :=
        filter (fun e => event_type e = FIRST_SELECT_STATE
                         /\ contains "false" (lower (message e)) = true)
               (uniplaysong_events self) in
      [SRule "=" 100; SText "SUMMARY REPORT"; SRule "=" 100;
       SText "Event Counts by Type:";
       SText "Event Type                               UniPlaySong     PlayniteSound  ";
       SRule "-" 100]
      ++ map (count_row ups_counts ps_counts) (sort_by value_leb (elements all_types))
      ++ [SText "KEY FINDINGS:"; SRule "-" 100]
      ++ selection_video_finding ups_selections ups_video
      ++ first_clear_finding ups_selections ups_first_changes
  end.

(** The rows of the table of a summary report. *)
Definition count_rows (report : list summary_item)
    : list (EventType * nat * nat * option Z) :=
  omap (fun i => match i with
                 | SCountRow t u p d => Some (t, u, p, d)
                 | _ => None
                 end) report.

(** The dictionary [reports] of [generate_all_reports]: the four
    reports under their names. *)
Record reports : Type := mk_reports {
  timeline : list item;
  critical : list critical_item;
  comparison : list item;
  summary : list summary_item
}.

(** The text of a report, as it is written to a file. *)
Inductive report_text : Type :=
| TimelineText (report : list item)
| CriticalText (report : list critical_item)
| ComparisonText (report : list item)
| SummaryText (report : list summary_item).

(** [reports.items()]: a dictionary keeps the order of insertion. *)
Definition items (r : reports) : list (string * report_text) :=
  [("timeline", TimelineText (timeline r));
   ("critical", CriticalText (critical r));
   ("comparison", ComparisonText (comparison r));
   ("summary", SummaryText (summary r))].

(** [generate_all_reports] acts on the file system and on the standard
    output.  That world and its operations are left open: an operation
    returns or raises, and leaves a world behind in both cases. *)
Section output.
Context {world : Type}.

Definition io (A : Type) : Type := world -> res A * world.

Definition io_ret {A} (a : A) : io A := fun w => (Ok a, w).

Definition io_bind {A B} (m : io A) (k : A -> io B) : io B :=
  fun w =>
    match m w with
    | (Ok a, w') => k a w'
    | (Raise e, w') => (Raise e, w')
    end.

(** A computation that does not touch the world. *)
Definition io_lift {A} (r : res A) : io A := fun w => (r, w).

(** [os.makedirs(output_dir, exist_ok=True)] *)
Variable os_makedirs : string -> io unit.
(** [os.path.join(output_dir, name)] *)
Variable os_path_join : string -> string -> string.
(** [with open(output_path, 'w', encoding='utf-8') as f: f.write(content)] *)
Variable write_text : string -> report_text -> io unit.
(** [print(text)] *)
Variable print : string -> io unit.

(** The loop [for name, content in reports.items()]. *)
Fixpoint write_reports (output_dir : string) (l : list (string * report_text))
    : io unit :=
  match l with
  | [] => io_ret tt
  | (name, content) :: l' =>
      let output_path :=
        os_path_join output_dir ("log_analysis_" +:+ name +:+ ".txt") in
      io_bind (write_text output_path content) (fun _ =>
      io_bind (print ("Written " +:+ name +:+ " report to: " +:+ output_path))
              (fun _ => write_reports output_dir l'))
  end.

(** [if output_dir:] is false on [None] and on the empty text. *)
Definition generate_all_reports (self : LogAnalyzer) (output_dir : option string)
    : io reports :=
  let timeline := create_timeline_report self in
  let critical := create_critical_events_report self in
  io_bind (io_lift (create_comparison_report self)) (fun comparison =>
  let reports :=
    mk_reports timeline critical comparison (create_summary_report self) in
  match output_dir with
  | None | Some "" => io_ret reports
  | Some dir =>
      io_bind (os_makedirs dir) (fun _ =>
      io_bind (write_reports dir (items reports)) (fun _ =>
      io_ret reports))
  end).

End output.

(** The event a line gives, if any. *)
Definition line_event (raw : string) : option LogEvent :=
  match process_line raw with
  | Ok o => o
  | Raise _ => None
  end.

(** The rows and the window headers a timeline report shows. *)
Definition timeline_rows (report : list item)
    : list (Z * ExtensionType * EventType * string) :=
  omap (fun i => match i with
                 | TimelineRow d x t m => Some (d, x, t, m)
                 | _ => None
                 end) report.

Definition window_headers (report : list item) : list Z :=
  omap (fun i => match i with WindowHeader w => Some w | _ => None end) report.

(** The counts a report shows, with their labels. *)
Definition counts_shown (report : list item) : list (string * nat) :=
  omap (fun i => match i with CountLine l n => Some (l, n) | _ => None end) report.

(** [[e for e in l if e.extension == x and e.event_type == t]] *)
Definition events_of (x : ExtensionType) (t : EventType) (l : list LogEvent)
    : list LogEvent :=
  filter (fun e => extension e = x /\ event_type e = t) l.

(** A text of ASCII characters, the range on which the character classes,
    the letter cases and the slices above are those of Python. *)
Definition is_ascii (s : string) : bool := str_all (fun c => code c <? 128) s.

(** No line feed in a line. *)
Definition no_line_feed (s : string) : Prop := str_all is_dot s = true.

(** A date and time of the calendar, with a whole number of
    milliseconds. *)
Definition valid_datetime (t : datetime) : Prop :=
  1 <= year t <= 9999 /\ 1 <= month t <= 12
  /\ 1 <= day t <= days_in_month (year t) (month t)
  /\ 0 <= hour t <= 23 /\ 0 <= minute t <= 59 /\ 0 <= second t <= 59
  /\ exists ms, 0 <= ms <= 999 /\ microsecond t = 1000 * ms.

(** The extension that the bare names in a message point to,
    UniPlaySong first. *)
Definition bare_name_resolution (message : string) : ExtensionType :=
  if contains "UniPlaySong" message then UNIPLAYSONG
  else if contains "PlayniteSound" message then PLAYNITESOUND
  else UNKNOWN.

(* ================================================================== *)
(** * Facts about strings                                              *)
(* ================================================================== *)

#[local] Arguments String.append !_ _ / : simpl nomatch.

Lemma append_nil_r (s : string) : s +:+ "" = s.
Proof. induction s as [|c s IH]; simpl; [done | by rewrite IH]. Qed.

Lemma append_assoc (a b c : string) : (a +:+ b) +:+ c = a +:+ (b +:+ c).
Proof. induction a as [|x a IH]; simpl; [done | by rewrite IH]. Qed.

Lemma length_append (a b : string) :
  String.length (a +:+ b) = (String.length a + String.length b)%nat.
Proof. induction a as [|x a IH]; simpl; [done | by rewrite IH]. Qed.

Lemma str_take_append (a b : string) : str_take (String.length a) (a +:+ b) = a.
Proof. induction a as [|x a IH]; simpl; [by destruct b | by rewrite IH]. Qed.

Lemma prefix_upto_append (w s' : string) : prefix_upto (w +:+ s') s' = w.
Proof.
  unfold prefix_upto. rewrite length_append.
  replace (String.length w + String.length s' - String.length s')%nat
    with (String.length w) by lia.
  apply str_take_append.
Qed.

Lemma str_all_append (p : ascii -> bool) (a b : string) :
  str_all p (a +:+ b) = str_all p a && str_all p b.
Proof.
  induction a as [|x a IH]; simpl; [done |].
  by rewrite IH, andb_assoc.
Qed.

Lemma str_all_impl (p q : ascii -> bool) (s : string) :
  (forall c, p c = true -> q c = true) -> str_all p s = true -> str_all q s = true.
Proof.
  intros Hpq. induction s as [|c s IH]; simpl; [done |].
  intros [Hc Hs]%andb_true_iff. rewrite (Hpq _ Hc). by apply IH.
Qed.

(* ================================================================== *)
(** * Facts about the matcher                                          *)
(* ================================================================== *)

Section matcher.
Context {X : Type}.
Implicit Types (k : string -> gmap nat string -> option X) (x : X).

Lemma rep_greedy_sound p s (k : string -> option X) x :
  Re.rep_greedy p s k = Some x ->
  exists w s', s = w +:+ s' /\ str_all p w = true /\ k s' = Some x.
Proof.
  revert x. induction s as [|c s IH]; intros x; simpl.
  - intros H. by exists "", "".
  - destruct (p c) eqn:Hc.
    + destruct (Re.rep_greedy p s k) as [y|] eqn:Hr.
      * intros [= <-]. destruct (IH _ eq_refl) as (w & s' & -> & Hw & Hk).
        exists (String c w), s'. simpl. by rewrite Hc, Hw.
      * intros Hk. by exists "", (String c s).
    + intros Hk. by exists "", (String c s).
Qed.

Lemma rep_lazy_sound p s (k : string -> option X) x :
  Re.rep_lazy p s k = Some x ->
  exists w s', s = w +:+ s' /\ str_all p w = true /\ k s' = Some x.
Proof.
  revert x. induction s as [|c s IH]; intros x; simpl.
  - destruct (k "") as [y|] eqn:Hk; [|done]. intros [= <-]. by exists "", "".
  - destruct (k (String c s)) as [y|] eqn:Hk.
    + intros [= <-]. by exists "", (String c s).
    + destruct (p c) eqn:Hc; [|done]. intros Hr.
      destruct (IH _ Hr) as (w & s' & -> & Hw & Hk').
      exists (String c w), s'. simpl. by rewrite Hc, Hw.
Qed.

(** Whatever the matcher hands to its continuation is the rest of the
    text after a word of the pattern's language; groups outside the
    pattern are untouched, groups set stay set, and the groups every
    match sets are set. *)
Lemma exec_sound r : forall s caps k x,
  Re.exec r s caps k = Some x ->
  exists w s' caps',
    s = w +:+ s' /\ Re.lang r w /\ k s' caps' = Some x
    /\ (forall n, n ∉ Re.groups r -> caps' !! n = caps !! n)
    /\ (forall n, n ∈ Re.sure_groups r -> is_Some (caps' !! n))
    /\ (forall n, is_Some (caps !! n) -> is_Some (caps' !! n)).
Proof.
  induction r as [|p|r1 IH1 r2 IH2|r1 IH1 r2 IH2|g p|n r1 IH1];
    intros s caps k x H; simpl in H.
  - exists "", s, caps. simpl. split_and!; try done. intros n Hn. inversion Hn.
  - destruct s as [|c s]; [done|]. destruct (p c) eqn:Hc; [|done].
    exists (String c ""), s, caps. simpl. split_and!; try done; [by exists c|].
    intros n Hn. inversion Hn.
  - apply IH1 in H as (w1 & s1 & c1 & -> & Hl1 & H & Hf1 & Hs1 & Hm1).
    apply IH2 in H as (w2 & s2 & c2 & -> & Hl2 & H & Hf2 & Hs2 & Hm2).
    exists (w1 +:+ w2), s2, c2. simpl. split_and!.
    + by rewrite append_assoc.
    + by exists w1, w2.
    + done.
    + intros n Hn. rewrite Hf2, Hf1; [done | |]; intros Hi; apply Hn;
        apply elem_of_app; auto.
    + intros n [Hn|Hn]%elem_of_app; [apply Hm2, Hs1, Hn | apply Hs2, Hn].
    + intros n Hn. by apply Hm2, Hm1.
  - destruct (Re.exec r1 s caps k) as [y|] eqn:H1.
    + injection H as <-.
      apply IH1 in H1 as (w & s' & c' & -> & Hl & H & Hf & Hs & Hm).
      exists w, s', c'. simpl. split_and!; try done; [by left | |].
      * intros n Hn. apply Hf. intros Hi. apply Hn, elem_of_app. by left.
      * intros n Hn. apply list_elem_of_filter in Hn as [_ Hn]. by apply Hs.
    + apply IH2 in H as (w & s' & c' & -> & Hl & H & Hf & Hs & Hm).
      exists w, s', c'. simpl. split_and!; try done; [by right | |].
      * intros n Hn. apply Hf. intros Hi. apply Hn, elem_of_app. by right.
      * intros n Hn. apply list_elem_of_filter in Hn as [Hn _]. by apply Hs.
  - assert (exists w s', s = w +:+ s' /\ str_all p w = true
                         /\ k s' caps = Some x) as (w & s' & -> & Hw & Hk).
    { destruct g; [by apply rep_greedy_sound in H | by apply rep_lazy_sound in H]. }
    exists w, s', caps. simpl. split_and!; try done. intros m Hm. inversion Hm.
  - apply IH1 in H as (w & s' & c' & -> & Hl & H & Hf & Hs & Hmono).
    exists w, s', (<[n := prefix_upto (w +:+ s') s']> c'). simpl. split_and!; try done.
    + intros m Hm. apply not_elem_of_cons in Hm as [Hne Hm].
      rewrite lookup_insert_ne by done. by apply Hf.
    + intros m Hm. destruct (decide (m = n)) as [->|Hne].
      * rewrite lookup_insert_eq. by eexists.
      * rewrite lookup_insert_ne by done. apply Hs.
        by apply elem_of_cons in Hm as [?|?].
    + intros m Hm. destruct (decide (m = n)) as [->|Hne].
      * rewrite lookup_insert_eq. by eexists.
      * rewrite lookup_insert_ne by done. by apply Hmono.
Qed.

(** A group's text is the word its body consumed. *)
Lemma exec_group n r s caps k x :
  Re.exec (Re.Group n r) s caps k = Some x ->
  exists w s' caps',
    s = w +:+ s' /\ Re.lang r w /\ k s' (<[n := w]> caps') = Some x.
Proof.
  simpl. intros H.
  apply exec_sound in H as (w & s' & c' & -> & Hl & H & _).
  rewrite prefix_upto_append in H. by exists w, s', c'.
Qed.

End matcher.

Lemma match_sound r s m rest :
  Re.match_ r s = Some (m, rest) ->
  exists w, s = w +:+ rest /\ Re.lang r w
            /\ (forall n, n ∈ Re.sure_groups r -> is_Some (m !! n)).
Proof.
  unfold Re.match_. intros H.
  apply exec_sound in H as (w & s' & c' & -> & Hl & [= <- <-] & _ & Hs & _).
  by exists w.
Qed.

Lemma search_sure r s m rest n :
  Re.search r s = Some (m, rest) -> n ∈ Re.sure_groups r -> is_Some (m !! n).
Proof.
  induction s as [|c s IH]; simpl.
  - destruct (Re.match_ r "") as [[m' rest']|] eqn:Hm; [|done].
    intros [= <- <-] Hn. by apply match_sound in Hm as (_ & _ & _ & Hs); apply Hs.
  - destruct (Re.match_ r (String c s)) as [[m' rest']|] eqn:Hm; [|done].
    intros [= <- <-] Hn. by apply match_sound in Hm as (_ & _ & _ & Hs); apply Hs.
Qed.

(** A word of a pattern's language is made of characters that some
    class of the pattern accepts. *)
Lemma lang_accepts r : forall w, Re.lang r w -> str_all (Re.accepts r) w = true.
Proof.
  induction r as [|p|r1 IH1 r2 IH2|r1 IH1 r2 IH2|g p|n r1 IH1]; intros w; simpl.
  - by intros ->.
  - intros (c & -> & Hc). simpl. by rewrite Hc.
  - intros (u & v & -> & Hu & Hv). rewrite str_all_append.
    apply andb_true_iff. split.
    + eapply str_all_impl; [|by apply IH1]. intros c ->. done.
    + eapply str_all_impl; [|by apply IH2]. intros c ->. by rewrite orb_true_r.
  - intros [H|H].
    + eapply str_all_impl; [|by apply IH1]. intros c ->. done.
    + eapply str_all_impl; [|by apply IH2]. intros c ->. by rewrite orb_true_r.
  - done.
  - apply IH1.
Qed.

(* ================================================================== *)
(** * The event classifier                                             *)
(* ================================================================== *)

Lemma first_match_earliest rules message i rule :
  rules !! i = Some rule ->
  rule_matches message rule = true ->
  (forall j r, (j < i)%nat -> rules !! j = Some r -> rule_matches message r = false) ->
  first_match rules message = rule.1.
Proof.
  revert i. induction rules as [|r0 rules IH]; intros i Hi Hm Hbefore; [done|].
  destruct i as [|i]; simpl in *.
  - injection Hi as ->. by rewrite Hm.
  - rewrite (Hbefore 0%nat r0) by (done || lia).
    apply (IH i); [done..|]. intros j r Hj. apply (Hbefore (S j)). lia.
Qed.

Lemma first_match_none rules message :
  (forall rule, rule ∈ rules -> rule_matches message rule = false) ->
  first_match rules message = OTHER.
Proof.
  induction rules as [|r0 rules IH]; intros H; simpl; [done|].
  rewrite (H r0) by apply list_elem_of_here.
  apply IH. intros rule Hr. apply H. by apply list_elem_of_further.
Qed.

Lemma first_match_before rules message i ri :
  rules !! i = Some ri ->
  rule_matches message ri = true ->
  exists k rk, (k <= i)%nat /\ rules !! k = Some rk
               /\ first_match rules message = rk.1.
Proof.
  revert i. induction rules as [|r0 rules IH]; intros i Hi Hm; [done|].
  simpl. destruct (rule_matches message r0) eqn:H0.
  - exists 0%nat, r0. split_and!; [lia | done | done].
  - destruct i as [|i]; simpl in Hi; [injection Hi as ->; congruence|].
    destruct (IH i Hi Hm) as (k & rk & Hk & Hrk & Hf).
    exists (S k), rk. split_and!; [lia | done | done].
Qed.

Lemma classification_rules_distinct :
  NoDup (classification_rules.*1).
Proof. compute_done. Qed.

Lemma classify_is_first_match message :
  _classify_event message = first_match classification_rules message.
Proof.
  unfold _classify_event, classification_rules, first_match, rule_matches.
  cbn [existsb fst snd]. by rewrite !orb_false_r, ?orb_assoc.
Qed.

Lemma EventType_members_complete (t : EventType) : t ∈ EventType_members.
Proof. destruct t; unfold EventType_members; set_solver. Qed.

Lemma EventType_members_NoDup : NoDup EventType_members.
Proof. compute_done. Qed.

(** C2, as stated: the taxonomy does not have fourteen categories. The
    enumeration [EventType] has thirteen members, so no list of fourteen
    distinct categories exists. *)
Lemma C2_not_fourteen_categories :
  length EventType_members <> 14%nat
  /\ ~ exists l : list EventType, NoDup l /\ length l = 14%nat.
Proof.
  split; [done|]. intros (l & Hnd & Hlen).
  assert (length l <= length EventType_members)%nat as Hle.
  { apply submseteq_length, NoDup_submseteq; [done|].
    intros t _. apply EventType_members_complete. }
  simpl in Hle. lia.
Qed.

(** C2, amended: the classifier is a first-match-wins scan over a fixed
    ordered list of twelve keyword rules, with [OTHER] as the catch-all,
    thirteen categories in all. The category of a message is that of the
    earliest rule one of whose keywords occurs in the lower-cased
    message, and [OTHER] when no rule matches; a message that matches
    two rules therefore gets the category of the earlier one. *)
Theorem C2_classifier_first_match (message : string) :
  length classification_rules = 12%nat
  /\ length EventType_members = 13%nat
  /\ NoDup EventType_members
  /\ (forall t, t ∈ EventType_members)
  /\ _classify_event message = first_match classification_rules message
  /\ (forall i rule,
        classification_rules !! i = Some rule ->
        rule_matches message rule = true ->
        (forall j r, (j < i)%nat -> classification_rules !! j = Some r ->
                     rule_matches message r = false) ->
        _classify_event message = rule.1)
  /\ (forall i j ri rj,
        (i < j)%nat ->
        classification_rules !! i = Some ri ->
        classification_rules !! j = Some rj ->
        rule_matches message ri = true ->
        rule_matches message rj = true ->
        _classify_event message <> rj.1)
  /\ ((forall rule, rule ∈ classification_rules -> rule_matches message rule = false) ->
      _classify_event message = OTHER).
Proof.
  split_and!; try done.
  - apply EventType_members_NoDup.
  - apply EventType_members_complete.
  - apply classify_is_first_match.
  - intros i rule Hi Hm Hb. rewrite classify_is_first_match.
    by apply (first_match_earliest _ _ i).
  - intros i j ri rj Hij Hi Hj Hmi _ Heq. rewrite classify_is_first_match in Heq.
    destruct (first_match_before _ _ _ _ Hi Hmi) as (k & rk & Hk & Hrk & Hf).
    assert (k = j) as ->; [|lia].
    apply (NoDup_lookup _ _ _ rk.1 classification_rules_distinct);
      rewrite list_lookup_fmap; [by rewrite Hrk | rewrite Hj; simpl; congruence].
  - intros H. rewrite classify_is_first_match. by apply first_match_none.
Qed.

(* ================================================================== *)
(** * The metadata extractor                                           *)
(* ================================================================== *)

Lemma group_bool_ok r n message m rest :
  n ∈ Re.sure_groups r -> Re.search r message = Some (m, rest) ->
  exists v, group_bool m n = Ok v /\ v <> VNone.
Proof.
  intros Hn Hs. destruct (search_sure _ _ _ _ _ Hs Hn) as [g Hg].
  unfold group_bool, group_text. rewrite Hg. simpl. by eexists.
Qed.

Lemma group_stripped_ok r n message m rest :
  n ∈ Re.sure_groups r -> Re.search r message = Some (m, rest) ->
  exists v, group_stripped m n = Ok v /\ v <> VNone.
Proof.
  intros Hn Hs. destruct (search_sure _ _ _ _ _ Hs Hn) as [g Hg].
  unfold group_stripped, group_text. rewrite Hg. simpl. by eexists.
Qed.

Lemma group_raw_ok r n message m rest :
  n ∈ Re.sure_groups r -> Re.search r message = Some (m, rest) ->
  exists v, group_raw m n = Ok v /\ v <> VNone.
Proof.
  intros Hn Hs. destruct (search_sure _ _ _ _ _ Hs Hn) as [g Hg].
  unfold group_raw. rewrite Hg. by eexists.
Qed.

Lemma field_steps_ok : Forall step_ok field_steps.
Proof.
  unfold field_steps.
  repeat apply Forall_cons_2; try apply Forall_nil_2;
    intros message m rest Hs; simpl in *;
    first [ eapply group_bool_ok | eapply group_stripped_ok | eapply group_raw_ok ];
    try exact Hs; compute_done.
Qed.

Lemma field_steps_keys : field_steps.*1.*2 = metadata_fields.
Proof. reflexivity. Qed.

Lemma metadata_fields_NoDup : NoDup metadata_fields.
Proof. compute_done. Qed.

Lemma extract_all_spec steps message :
  Forall step_ok steps -> NoDup (steps.*1.*2) ->
  forall md, exists md',
    extract_all steps message md = Ok md'
    /\ (forall k, k ∉ steps.*1.*2 -> md' !! k = md !! k)
    /\ (forall r key conv, (r, key, conv) ∈ steps ->
          match Re.search r message with
          | Some _ => exists v, md' !! key = Some v /\ v <> VNone
          | None => md' !! key = md !! key
          end)
    /\ (forall k v, md' !! k = Some v -> v <> VNone \/ md !! k = Some v).
Proof.
  induction steps as [|[[r key] conv] steps IH]; intros Hok Hnd md.
  - exists md. split_and!; try done; [|auto]. intros r key conv Hin. inversion Hin.
  - apply Forall_cons in Hok as [Hst Hok]. simpl in Hnd.
    apply NoDup_cons in Hnd as [Hkey Hnd]. specialize (IH Hok Hnd).
    simpl. unfold extract_field.
    destruct (Re.search r message) as [[m rest]|] eqn:Hs.
    + destruct (Hst message m rest Hs) as (v & Hv & Hnone). simpl in Hv.
      rewrite Hv. simpl.
      destruct (IH (<[key := v]> md)) as (md' & -> & Hout & Hin & Hval).
      exists md'. split_and!; [done | | |].
      * intros k [Hne Hk]%not_elem_of_cons. rewrite Hout by done.
        by rewrite lookup_insert_ne.
      * intros r' key' conv' [[= -> -> ->]|Hin']%elem_of_cons.
        -- rewrite Hs. exists v. by rewrite Hout, lookup_insert_eq.
        -- specialize (Hin _ _ _ Hin'). destruct (Re.search r' message); [done|].
           rewrite Hin, lookup_insert_ne; [done|]. intros ->. apply Hkey.
           apply list_elem_of_fmap. exists (r', key'). split; [done|].
           apply list_elem_of_fmap. by exists (r', key', conv').
      * intros k w Hk. destruct (Hval _ _ Hk) as [?|Hk']; [by left|].
        destruct (decide (key = k)) as [->|Hne].
        -- rewrite lookup_insert_eq in Hk'. injection Hk' as <-. by left.
        -- rewrite lookup_insert_ne in Hk' by done. by right.
    + simpl. destruct (IH md) as (md' & -> & Hout & Hin & Hval).
      exists md'. split_and!; [done | | | done].
      * intros k [Hne Hk]%not_elem_of_cons. by apply Hout.
      * intros r' key' conv' [[= -> -> ->]|Hin']%elem_of_cons.
        -- rewrite Hs. by apply Hout.
        -- exact (Hin _ _ _ Hin').
Qed.

Lemma extract_metadata_unfold message event_type :
  _extract_metadata message event_type = extract_all field_steps message ∅.
Proof.
  unfold _extract_metadata. simpl.
  repeat (destruct (extract_field _ _ _ _ _); simpl; [|done]). done.
Qed.

(** C6, as stated: more than seven fields are produced. In this message
    every pattern matches, and the dictionary has eight keys. *)
Lemma C6_eight_fields_produced :
  exists md, _extract_metadata full_message OTHER = Ok md /\ size md = 8%nat.
Proof.
  assert ((md ← _extract_metadata full_message OTHER; Ok (size md)) = Ok 8%nat)
    as H by (vm_compute; reflexivity).
  destruct (_extract_metadata full_message OTHER) as [md|]; [|done].
  exists md. simpl in H. by injection H as ->.
Qed.

(** C6, amended: for every message the extractor returns a dictionary
    whose keys are among the eight field names of its body (not seven);
    each key is present exactly when its own pattern occurs in the
    message, independently of the others, and no key is bound to
    [None]. *)
Theorem C6_metadata_keys (message : string) (event_type : EventType) :
  exists md,
    _extract_metadata message event_type = Ok md
    /\ length metadata_fields = 8%nat
    /\ NoDup metadata_fields
    /\ field_steps.*1.*2 = metadata_fields
    /\ (forall k, is_Some (md !! k) -> k ∈ metadata_fields)
    /\ (forall r key conv, (r, key, conv) ∈ field_steps ->
          (is_Some (md !! key) <-> is_Some (Re.search r message)))
    /\ (forall k, md !! k <> Some VNone).
Proof.
  rewrite extract_metadata_unfold.
  destruct (extract_all_spec field_steps message field_steps_ok
              (eq_ind_r NoDup metadata_fields_NoDup field_steps_keys) ∅)
    as (md & -> & Hout & Hin & Hval).
  exists md. split_and!; try done.
  - apply metadata_fields_NoDup.
  - intros k Hk. destruct (decide (k ∈ metadata_fields)) as [|Hn]; [done|].
    rewrite <- field_steps_keys in Hn. rewrite (Hout _ Hn), lookup_empty in Hk.
    by destruct Hk.
  - intros r key conv Hstep. specialize (Hin _ _ _ Hstep).
    destruct (Re.search r message) as [x|].
    + destruct Hin as (v & -> & _). split; by eexists.
    + rewrite Hin, lookup_empty. split; intros [? ?]; done.
  - intros k Hk. destruct (Hval _ _ Hk) as [?|Hk']; [done|].
    by rewrite lookup_empty in Hk'.
Qed.

(* ================================================================== *)
(** * The line parser                                                  *)
(* ================================================================== *)

Lemma lang_seqs_cons r l w :
  Re.lang (Re.seqs (r :: l)) w ->
  exists u v, w = u +:+ v /\ Re.lang r u /\ Re.lang (Re.seqs l) v.
Proof.
  destruct l as [|r' l]; [|done].
  intros H. exists w, "". by rewrite append_nil_r.
Qed.

Lemma lang_seqs_app rs1 rs2 : forall w,
  Re.lang (Re.seqs (rs1 ++ rs2)) w ->
  exists u v, w = u +:+ v /\ Re.lang (Re.seqs rs1) u /\ Re.lang (Re.seqs rs2) v.
Proof.
  induction rs1 as [|r rs1 IH]; intros w H.
  - by exists "", w.
  - change ((r :: rs1) ++ rs2) with (r :: (rs1 ++ rs2)) in H.
    apply lang_seqs_cons in H as (u & v & -> & Hu & Hv).
    apply IH in Hv as (u' & v' & -> & Hu' & Hv').
    exists (u +:+ u'), v'. rewrite append_assoc. split_and!; [done | | done].
    destruct rs1 as [|r' rs1]; simpl in *.
    + subst u'. by rewrite append_nil_r.
    + by exists u, u'.
Qed.

Lemma timestamp_shape ts : Re.lang timestamp_re ts -> dot_three_digits ts.
Proof.
  change timestamp_re with
    (Re.seqs ([Re.times 4 digit; Re.lit "-"; Re.times 2 digit; Re.lit "-";
               Re.times 2 digit; Re.lit " "; Re.times 2 digit; Re.lit ":";
               Re.times 2 digit; Re.lit ":"; Re.times 2 digit]
              ++ [Re.lit "."; Re.times 3 digit])).
  intros (pre & v & -> & _ & Hv)%lang_seqs_app.
  simpl in Hv.
  destruct Hv as (? & ? & -> & (? & ? & -> & (c & -> & Hc) & ->)
                    & (? & ? & -> & (d1 & -> & H1)
                       & (? & ? & -> & (d2 & -> & H2)
                          & (? & ? & -> & (d3 & -> & H3) & ->)))).
  apply bool_decide_eq_true in Hc as ->.
  by exists pre, d1, d2, d3.
Qed.

Lemma exec_group_then n r rest_re s caps m rest :
  n ∉ Re.groups rest_re ->
  Re.exec (Re.Seq (Re.Group n r) rest_re) s caps
          (fun s' caps' => Some (caps', s')) = Some (m, rest) ->
  exists w, m !! n = Some w /\ Re.lang r w.
Proof.
  intros Hn H.
  change (Re.exec (Re.Group n r) s caps
            (fun s1 c1 => Re.exec rest_re s1 c1 (fun s' caps' => Some (caps', s')))
          = Some (m, rest)) in H.
  apply exec_group in H as (w & s' & c' & -> & Hl & H).
  apply exec_sound in H as (_ & _ & c'' & _ & _ & [= <- <-] & Hf & _).
  exists w. by rewrite Hf, lookup_insert_eq.
Qed.

Lemma exec_prefix_group_then pre n r rest_re s m rest :
  n ∉ Re.groups rest_re ->
  Re.match_ (Re.Seq pre (Re.Seq (Re.Group n r) rest_re)) s = Some (m, rest) ->
  exists w, m !! n = Some w /\ Re.lang r w.
Proof.
  unfold Re.match_. intros Hn H.
  change (Re.exec pre s ∅
            (fun s1 c1 => Re.exec (Re.Seq (Re.Group n r) rest_re) s1 c1
                            (fun s' caps' => Some (caps', s')))
          = Some (m, rest)) in H.
  apply exec_sound in H as (_ & s' & c' & _ & _ & H & _).
  by apply exec_group_then in H.
Qed.

Lemma log_pattern_groups line m rest :
  Re.match_ log_pattern line = Some (m, rest) ->
  (exists ts, m !! 1%nat = Some ts /\ Re.lang timestamp_re ts)
  /\ is_Some (m !! 3%nat) /\ is_Some (m !! 4%nat).
Proof.
  intros H. split.
  - unfold Re.match_, log_pattern in H. cbn [Re.seqs] in H.
    apply exec_group_then in H; [done | compute_done].
  - apply match_sound in H as (_ & _ & _ & Hs). split; apply Hs; compute_done.
Qed.

Lemma filelogger_pattern_groups line m rest :
  Re.match_ filelogger_pattern line = Some (m, rest) ->
  (exists ts, m !! 1%nat = Some ts /\ Re.lang timestamp_re ts)
  /\ is_Some (m !! 3%nat).
Proof.
  intros H. split.
  - unfold filelogger_pattern in H. cbn [Re.seqs] in H.
    apply exec_prefix_group_then in H; [done | compute_done].
  - apply match_sound in H as (_ & _ & _ & Hs). apply Hs; compute_done.
Qed.

Lemma simple_pattern_groups line m rest :
  Re.match_ simple_pattern line = Some (m, rest) ->
  (exists ts, m !! 1%nat = Some ts /\ Re.lang timestamp_re ts)
  /\ is_Some (m !! 2%nat).
Proof.
  intros H. split.
  - unfold Re.match_, simple_pattern in H. cbn [Re.seqs] in H.
    apply exec_group_then in H; [done | compute_done].
  - apply match_sound in H as (_ & _ & _ & Hs). apply Hs; compute_done.
Qed.

(** The recognisers never raise, and the timestamp text they bind is a
    word of the timestamp pattern. *)
Lemma recognise_spec line :
  exists o, recognise line = Ok o
    /\ (forall p, o = Some p -> Re.lang timestamp_re (timestamp_str p))
    /\ (o = None <-> Re.match_ log_pattern line = None
                     /\ Re.match_ filelogger_pattern line = None
                     /\ Re.match_ simple_pattern line = None).
Proof.
  unfold recognise, group_text.
  destruct (Re.match_ log_pattern line) as [[m rest]|] eqn:H1.
  { apply log_pattern_groups in H1 as ((ts & -> & Hts) & [e ->] & [msg ->]).
    simpl. eexists. split; [done|]. split.
    - by intros p [= <-].
    - split; [done | by intros (? & _)]. }
  destruct (Re.match_ filelogger_pattern line) as [[m rest]|] eqn:H2.
  { apply filelogger_pattern_groups in H2 as ((ts & -> & Hts) & [msg ->]).
    simpl. eexists. split; [done|]. split.
    - by intros p [= <-].
    - split; [done | by intros (_ & ? & _)]. }
  destruct (Re.match_ simple_pattern line) as [[m rest]|] eqn:H3.
  { apply simple_pattern_groups in H3 as ((ts & -> & Hts) & [msg ->]).
    simpl. eexists. split; [done|]. split.
    - by intros p [= <-].
    - split; [done | by intros (_ & _ & ?)]. }
  exists None. by split_and!.
Qed.

Lemma strptime_raises data fmt e : strptime data fmt = Raise e -> e = ValueError.
Proof.
  unfold strptime, datetime_new.
  repeat (case_match; try congruence).
Qed.

(** The whole-second format cannot consume a dot. *)
Lemma strptime_seconds_fails ts :
  dot_three_digits ts -> strptime ts fmt_seconds = Raise ValueError.
Proof.
  intros (pre & d1 & d2 & d3 & -> & _).
  unfold strptime.
  destruct (format_regex false fmt_seconds) as [r|] eqn:Hr; [|done].
  assert (Re.accepts r "." = false) as Hdot.
  { assert ((r' ← format_regex false fmt_seconds; Some (Re.accepts r' "."))
            = Some false) as Hc by (vm_compute; reflexivity).
    rewrite Hr in Hc. simpl in Hc. congruence. }
  destruct (Re.match_ r _) as [[found rest]|] eqn:Hm; [|done].
  destruct rest as [|c rest]; [|done].
  apply match_sound in Hm as (w & Hw & Hl & _).
  rewrite append_nil_r in Hw. subst w.
  apply lang_accepts in Hl. rewrite str_all_append in Hl. simpl in Hl.
  rewrite Hdot in Hl. by rewrite andb_false_r in Hl.
Qed.

Lemma parse_timestamp_spec ts :
  dot_three_digits ts ->
  parse_timestamp ts =
    match strptime ts fmt_fraction with
    | Ok t => Ok (Some t)
    | Raise _ => Ok None
    end.
Proof.
  intros Hts. unfold parse_timestamp.
  destruct (strptime ts fmt_fraction) as [t|e] eqn:Hf; simpl; [done|].
  apply strptime_raises in Hf as ->. simpl.
  by rewrite (strptime_seconds_fails _ Hts).
Qed.

Lemma extract_metadata_ok message event_type :
  exists md, _extract_metadata message event_type = Ok md.
Proof.
  rewrite extract_metadata_unfold.
  destruct (extract_all_spec field_steps message field_steps_ok
              (eq_ind_r NoDup metadata_fields_NoDup field_steps_keys) ∅)
    as (md & -> & _).
  by exists md.
Qed.

(** The event [process_line] builds from a recognised line. *)
Lemma process_line_recognised raw p :
  recognise (strip raw) = Ok (Some p) ->
  strip raw <> "" ->
  process_line raw =
    match strptime (timestamp_str p) fmt_fraction with
    | Raise _ => Ok None
    | Ok t =>
        let ext := resolve_extension (extension_name p) (parsed_message p) in
        if bool_decide (ext = UNKNOWN) then Ok None
        else
          md ← _extract_metadata (parsed_message p)
                                 (_classify_event (parsed_message p));
          Ok (Some (mk_LogEvent t ext (_classify_event (parsed_message p))
                                (parsed_message p) (strip raw) md))
    end.
Proof.
  intros Hr Hne. unfold process_line.
  rewrite bool_decide_eq_false_2 by done. rewrite Hr. simpl.
  destruct (recognise_spec (strip raw)) as (o & Ho & Hts & _).
  rewrite Hr in Ho. injection Ho as <-.
  rewrite (parse_timestamp_spec _ (timestamp_shape _ (Hts p eq_refl))).
  by destruct (strptime _ fmt_fraction).
Qed.

Lemma process_line_ok raw : exists o, process_line raw = Ok o.
Proof.
  destruct (decide (strip raw = "")) as [He|Hne].
  { exists None. unfold process_line. by rewrite bool_decide_eq_true_2. }
  destruct (recognise_spec (strip raw)) as ([p|] & Ho & _).
  - rewrite (process_line_recognised _ _ Ho Hne).
    destruct (strptime _ _); [|by eexists]. simpl.
    case_bool_decide; [by eexists|].
    destruct (extract_metadata_ok (parsed_message p)
                (_classify_event (parsed_message p))) as (md & ->).
    by eexists.
  - exists None. unfold process_line.
    rewrite bool_decide_eq_false_2 by done. by rewrite Ho.
Qed.

Lemma parse_lines_no_exception lines : forall self, (parse_lines lines self).2 = None.
Proof.
  induction lines as [|raw lines IH]; intros self; cbn [parse_lines]; [done|].
  destruct (process_line_ok raw) as ([e|] & ->); apply IH.
Qed.

(** C4: for every input line the loop body returns without raising.  A
    line that none of the three recognisers matches, and a line whose
    timestamp text both [strptime] calls refuse, give no event; a line
    that gives no event leaves the store as it is and the loop goes on
    with the next line; no exception ever leaves the loop. *)
Theorem C4_skip_and_continue (raw : string) :
  (exists o, process_line raw = Ok o)
  /\ (Re.match_ log_pattern (strip raw) = None ->
      Re.match_ filelogger_pattern (strip raw) = None ->
      Re.match_ simple_pattern (strip raw) = None ->
      process_line raw = Ok None)
  /\ (forall p, recognise (strip raw) = Ok (Some p) ->
        (forall t, strptime (timestamp_str p) fmt_fraction <> Ok t) ->
        (forall t, strptime (timestamp_str p) fmt_seconds <> Ok t) ->
        process_line raw = Ok None)
  /\ (process_line raw = Ok None ->
      forall lines self, parse_lines (raw :: lines) self = parse_lines lines self)
  /\ (forall lines self, (parse_lines (raw :: lines) self).2 = None).
Proof.
  split_and!.
  - apply process_line_ok.
  - intros H1 H2 H3. unfold process_line. case_bool_decide; [done|].
    destruct (recognise_spec (strip raw)) as (o & -> & _ & Hnone).
    assert (o = None) as ->; [|reflexivity].
    apply Hnone. split_and!; assumption.
  - intros p Hp Hf _. unfold process_line. case_bool_decide; [done|].
    rewrite Hp. simpl.
    destruct (recognise_spec (strip raw)) as (o & Ho & Hts & _).
    rewrite Hp in Ho. injection Ho as <-.
    rewrite (parse_timestamp_spec _ (timestamp_shape _ (Hts p eq_refl))).
    destruct (strptime _ fmt_fraction) as [t|] eqn:Ht; [by destruct (Hf t)|done].
  - intros H lines self. cbn [parse_lines]. by rewrite H.
  - intros lines self. apply parse_lines_no_exception.
Qed.

(** C8: the timestamp text that any of the three recognisers binds ends
    in a dot followed by three digits, so [strptime] with the
    whole-second format raises on it; the timestamp of an event made
    from the line is the result of the fractional-seconds parse, and
    when that parse fails the line gives no event. *)
Theorem C8_fraction_parse_only (raw : string) (p : parsed) :
  recognise (strip raw) = Ok (Some p) ->
  dot_three_digits (timestamp_str p)
  /\ strptime (timestamp_str p) fmt_seconds = Raise ValueError
  /\ (forall e, process_line raw = Ok (Some e) ->
        strptime (timestamp_str p) fmt_fraction = Ok (timestamp e))
  /\ (forall x, strptime (timestamp_str p) fmt_fraction = Raise x ->
        process_line raw = Ok None).
Proof.
  intros Hp.
  destruct (recognise_spec (strip raw)) as (o & Ho & Hts & _).
  rewrite Hp in Ho. injection Ho as <-.
  pose proof (timestamp_shape _ (Hts p eq_refl)) as Hshape.
  split_and!; [done | by apply strptime_seconds_fails | |].
  - intros e He. destruct (decide (strip raw = "")) as [Hs|Hs].
    { unfold process_line in He. by rewrite bool_decide_eq_true_2 in He. }
    rewrite (process_line_recognised _ _ Hp Hs) in He.
    destruct (strptime _ fmt_fraction) as [t|]; [|done]. simpl in He.
    case_bool_decide; [done|].
    destruct (_extract_metadata _ _); simpl in He; [|done].
    by injection He as <-.
  - intros x Hx. destruct (decide (strip raw = "")) as [Hs|Hs].
    { unfold process_line. by rewrite bool_decide_eq_true_2. }
    by rewrite (process_line_recognised _ _ Hp Hs), Hx.
Qed.

Lemma C8_fraction_parse_only_witness :
  let raw := "[2024-01-01 10:00:00.050] [INFO] [UniPlaySong] OnGameSelected" in
  let p := mk_parsed FileLogger "2024-01-01 10:00:00.050" (Some "INFO")
                     "UniPlaySong" "[UniPlaySong] OnGameSelected" in
  recognise (strip raw) = Ok (Some p)
  /\ dot_three_digits (timestamp_str p)
  /\ strptime (timestamp_str p) fmt_seconds = Raise ValueError.
Proof.
  intros raw p.
  assert (recognise (strip raw) = Ok (Some p)) as H by (vm_compute; reflexivity).
  split; [exact H|].
  destruct (C8_fraction_parse_only raw p H) as (H1 & H2 & _). by split.
Defined.

(* ================================================================== *)
(** * The source classifier                                            *)
(* ================================================================== *)

Lemma process_line_inv raw e :
  process_line raw = Ok (Some e) ->
  exists p,
    recognise (strip raw) = Ok (Some p)
    /\ strptime (timestamp_str p) fmt_fraction = Ok (timestamp e)
    /\ extension e = resolve_extension (extension_name p) (parsed_message p)
    /\ extension e <> UNKNOWN
    /\ event_type e = _classify_event (parsed_message p)
    /\ message e = parsed_message p
    /\ raw_line e = strip raw
    /\ _extract_metadata (message e) (event_type e) = Ok (metadata e).
Proof.
  intros He. destruct (decide (strip raw = "")) as [Hs|Hs].
  { unfold process_line in He. by rewrite bool_decide_eq_true_2 in He. }
  destruct (recognise_spec (strip raw)) as ([p|] & Ho & _).
  2:{ unfold process_line in He. rewrite bool_decide_eq_false_2 in He by done.
      rewrite Ho in He. discriminate He. }
  rewrite (process_line_recognised _ _ Ho Hs) in He. exists p.
  destruct (strptime _ fmt_fraction) as [t|]; [|discriminate He].
  cbn zeta in He. case_bool_decide; [discriminate He|].
  destruct (_extract_metadata _ _) as [md|] eqn:Hmd; [|discriminate He].
  injection He as <-. by split_and!.
Qed.

Lemma recognise_name_in line p :
  recognise line = Ok (Some p) -> format p <> Tabular ->
  extension_name p = name_in (parsed_message p).
Proof.
  unfold recognise, group_text.
  destruct (Re.match_ log_pattern line) as [[m rest]|] eqn:H1.
  { apply log_pattern_groups in H1 as ((ts & -> & _) & [e ->] & [msg ->]).
    intros [= <-] Hf. by destruct Hf. }
  destruct (Re.match_ filelogger_pattern line) as [[m rest]|] eqn:H2.
  { apply filelogger_pattern_groups in H2 as ((ts & -> & _) & [msg ->]).
    by intros [= <-] _. }
  destruct (Re.match_ simple_pattern line) as [[m rest]|] eqn:H3.
  { apply simple_pattern_groups in H3 as ((ts & -> & _) & [msg ->]).
    by intros [= <-] _. }
  intros H. discriminate H.
Qed.

Lemma resolve_unknown_dropped raw p :
  recognise (strip raw) = Ok (Some p) ->
  resolve_extension (extension_name p) (parsed_message p) = UNKNOWN ->
  process_line raw = Ok None.
Proof.
  intros Hp Hu. destruct (decide (strip raw = "")) as [Hs|Hs].
  { unfold process_line. by rewrite bool_decide_eq_true_2. }
  rewrite (process_line_recognised _ _ Hp Hs).
  destruct (strptime _ fmt_fraction); [|reflexivity].
  cbn zeta. by rewrite bool_decide_eq_true_2.
Qed.

(** C3, as stated: the hint is not always decisive.  A tabular line whose
    extension field names PlayniteSound and whose message carries the
    bracketed UniPlaySong marker is stored as a UniPlaySong event; and a
    tabular line with an inconclusive field and the bare name UniPlaySong
    in its message is dropped, no bare-name search taking place. *)
Lemma C3_hint_not_decisive :
  let raw1 := "2024-01-01 10:00:00.000 | INFO | PlayniteSound | [UniPlaySong] relayed" in
  let raw2 := "2024-01-01 10:00:00.000 | INFO | Playnite | UniPlaySong started" in
  recognise (strip raw1)
    = Ok (Some (mk_parsed Tabular "2024-01-01 10:00:00.000" (Some "INFO")
                          "PlayniteSound" "[UniPlaySong] relayed"))
  /\ hint_source "PlayniteSound" = Some PLAYNITESOUND
  /\ hint_first_resolution "PlayniteSound" "[UniPlaySong] relayed" = PLAYNITESOUND
  /\ match process_line raw1 with
     | Ok (Some e) => extension e = UNIPLAYSONG
     | _ => False
     end
  /\ recognise (strip raw2)
    = Ok (Some (mk_parsed Tabular "2024-01-01 10:00:00.000" (Some "INFO")
                          "Playnite" "UniPlaySong started"))
  /\ hint_first_resolution "Playnite" "UniPlaySong started" = UNIPLAYSONG
  /\ process_line raw2 = Ok None.
Proof. split_and!; vm_compute; reflexivity. Qed.

(** C3, amended: every recognised line resolves to exactly one of
    UniPlaySong, PlayniteSound and unknown: UniPlaySong when the source
    hint contains that name or the message contains the bracketed name;
    otherwise PlayniteSound when the hint contains that name or the
    message contains its bracketed name; otherwise unknown (in the
    bracketed and bare formats the hint itself is read off the message,
    by a bracketed-or-bare name search, UniPlaySong first).  A line that
    resolves to unknown gives no event and leaves the store, and so every
    count, unchanged; an event that is stored carries the resolved
    source, which is not unknown. *)
Theorem C3_source_resolution (raw : string) (p : parsed) :
  recognise (strip raw) = Ok (Some p) ->
  let ext := resolve_extension (extension_name p) (parsed_message p) in
  (ext = UNIPLAYSONG <->
     contains "UniPlaySong" (extension_name p) = true
     \/ contains "[UniPlaySong]" (parsed_message p) = true)
  /\ (ext = PLAYNITESOUND <->
     ext <> UNIPLAYSONG
     /\ (contains "PlayniteSound" (extension_name p) = true
         \/ contains "[PlayniteSound]" (parsed_message p) = true))
  /\ (ext = UNKNOWN <-> ext <> UNIPLAYSONG /\ ext <> PLAYNITESOUND)
  /\ (format p <> Tabular -> extension_name p = name_in (parsed_message p))
  /\ (ext = UNKNOWN ->
      process_line raw = Ok None
      /\ forall lines self, parse_lines (raw :: lines) self = parse_lines lines self)
  /\ (forall e, process_line raw = Ok (Some e) ->
        extension e = ext /\ ext <> UNKNOWN).
Proof.
  intros Hp ext. split_and!.
  - subst ext. unfold resolve_extension.
    destruct (contains "UniPlaySong" (extension_name p)),
             (contains "[UniPlaySong]" (parsed_message p)),
             (contains "PlayniteSound" (extension_name p)),
             (contains "[PlayniteSound]" (parsed_message p));
      cbn; split; intros H; first [reflexivity | discriminate H | by left | by right
                                  | destruct H as [H|H]; discriminate H ].
  - subst ext. unfold resolve_extension.
    destruct (contains "UniPlaySong" (extension_name p)),
             (contains "[UniPlaySong]" (parsed_message p)),
             (contains "PlayniteSound" (extension_name p)),
             (contains "[PlayniteSound]" (parsed_message p));
      cbn; split;
      first [ intros H; discriminate H
            | intros [H _]; by destruct H
            | intros [_ [H|H]]; discriminate H
            | intros _; split; [intros H; discriminate H | by left]
            | intros _; split; [intros H; discriminate H | by right]
            | intros _; reflexivity ].
  - destruct ext; split;
      first [ intros H; discriminate H
            | intros [H _]; by destruct H
            | intros [_ H]; by destruct H
            | intros _; split; intros H; discriminate H
            | intros _; reflexivity ].
  - intros Hf. exact (recognise_name_in _ _ Hp Hf).
  - intros Hu. assert (process_line raw = Ok None) as H
      by exact (resolve_unknown_dropped raw p Hp Hu).
    split; [exact H|]. intros lines self. cbn [parse_lines]. by rewrite H.
  - intros e (p' & Hp' & _ & He & Hne & _)%process_line_inv.
    rewrite Hp in Hp'. injection Hp' as <-. subst ext.
    split; [exact He | by rewrite <- He].
Qed.

Lemma C3_source_resolution_witness :
  let raw := "[2024-01-01 10:00:00.050] [INFO] [PlayniteSound] OnGameSelected" in
  let p := mk_parsed FileLogger "2024-01-01 10:00:00.050" (Some "INFO")
                     "PlayniteSound" "[PlayniteSound] OnGameSelected" in
  recognise (strip raw) = Ok (Some p)
  /\ (resolve_extension (extension_name p) (parsed_message p) = UNKNOWN <->
      resolve_extension (extension_name p) (parsed_message p) <> UNIPLAYSONG
      /\ resolve_extension (extension_name p) (parsed_message p) <> PLAYNITESOUND).
Proof.
  intros raw p.
  assert (recognise (strip raw) = Ok (Some p)) as H by (vm_compute; reflexivity).
  split; [exact H|].
  destruct (C3_source_resolution raw p H) as (_ & _ & H3 & _). exact H3.
Defined.

(* ================================================================== *)
(** * The event store                                                  *)
(* ================================================================== *)

Lemma store_event_invariant event self :
  extension event <> UNKNOWN ->
  store_invariant self -> store_invariant (store_event event self).
Proof.
  intros Hne (Hu & Hp & Hall). unfold store_invariant, store_event. cbn.
  rewrite !filter_app, <- Hu, <- Hp. split_and!.
  - case_bool_decide.
    + by rewrite filter_cons_True.
    + by rewrite filter_cons_False, app_nil_r.
  - case_bool_decide as Ha.
    + rewrite filter_cons_False, app_nil_r; [done|]. by rewrite Ha.
    + case_bool_decide.
      * by rewrite filter_cons_True.
      * by rewrite filter_cons_False, app_nil_r.
  - apply Forall_app. split; [done|]. by apply Forall_singleton.
Qed.

Lemma parse_lines_invariant lines : forall self,
  store_invariant self -> store_invariant (parse_lines lines self).1.
Proof.
  induction lines as [|raw lines IH]; intros self Hinv; cbn [parse_lines]; [done|].
  destruct (process_line raw) as [[e|]|x] eqn:He; [| by apply IH | done].
  apply IH, store_event_invariant; [|done].
  by apply process_line_inv in He as (p & _ & _ & _ & Hne & _).
Qed.

Lemma parse_single_invariant lines self :
  store_invariant self -> store_invariant (_parse_single_log_file lines self).1.
Proof.
  intros Hinv. unfold _parse_single_log_file.
  pose proof (parse_lines_invariant lines self Hinv) as H.
  by destruct (parse_lines lines self) as [self' [x|]].
Qed.

Lemma parse_files_invariant files : forall self n,
  store_invariant self -> store_invariant (parse_files files self n).1.
Proof.
  induction files as [|lines files IH]; intros self n Hinv; cbn [parse_files]; [done|].
  pose proof (parse_single_invariant lines self Hinv) as H.
  destruct (_parse_single_log_file lines self) as [self' found]. by apply IH.
Qed.

Lemma store_of_invariant files : store_invariant (store_of files).
Proof.
  unfold store_of, parse_log_files.
  assert (store_invariant init) as Hinit.
  { unfold store_invariant, init. cbn. by split_and!. }
  destruct files as [|lines files]; [done|].
  pose proof (parse_files_invariant (lines :: files) init 0 Hinit) as H.
  by destruct (parse_files (lines :: files) init 0) as [self' total].
Qed.

Lemma partition_lengths (l : list LogEvent) :
  Forall (fun e => extension e <> UNKNOWN) l ->
  length l = (length (filter (fun e => extension e = UNIPLAYSONG) l)
              + length (filter (fun e => extension e = PLAYNITESOUND) l))%nat.
Proof.
  induction 1 as [|e l He Hl IH]; [done|].
  destruct (extension e) eqn:Hx; [| |done].
  - rewrite filter_cons_True, filter_cons_False by (by rewrite ?Hx). cbn. lia.
  - rewrite filter_cons_False, filter_cons_True by (by rewrite ?Hx). cbn. lia.
Qed.

(** C10: after any sequence of log files has been processed from a fresh
    analyzer, the UniPlaySong list is exactly the list of all events
    filtered by that extension, in the order of insertion, and likewise
    the PlayniteSound list; so every stored event is in the list of its
    extension, each list holds events of its extension only, and the
    lengths of the two lists add up to the length of the full list. *)
Theorem C10_partition_invariant (files : list (list string)) :
  let self := store_of files in
  uniplaysong_events self = filter (fun e => extension e = UNIPLAYSONG) (events self)
  /\ playnitesound_events self
     = filter (fun e => extension e = PLAYNITESOUND) (events self)
  /\ (forall e, e ∈ events self ->
        (extension e = UNIPLAYSONG -> e ∈ uniplaysong_events self)
        /\ (extension e = PLAYNITESOUND -> e ∈ playnitesound_events self)
        /\ (extension e = UNIPLAYSONG \/ extension e = PLAYNITESOUND))
  /\ (forall e, e ∈ uniplaysong_events self ->
        extension e = UNIPLAYSONG /\ e ∈ events self)
  /\ (forall e, e ∈ playnitesound_events self ->
        extension e = PLAYNITESOUND /\ e ∈ events self)
  /\ length (events self)
     = (length (uniplaysong_events self) + length (playnitesound_events self))%nat.
Proof.
  intros self. destruct (store_of_invariant files) as (Hu & Hp & Hall).
  fold self in Hu, Hp, Hall. split_and!; [done | done | | | |].
  - intros e He. rewrite Hu, Hp, !list_elem_of_filter. split_and!; [done | done |].
    rewrite Forall_forall in Hall. specialize (Hall e He).
    destruct (extension e); [by left | by right | done].
  - intros e He. rewrite Hu in He. by apply list_elem_of_filter in He.
  - intros e He. rewrite Hp in He. by apply list_elem_of_filter in He.
  - rewrite Hu, Hp. by apply partition_lengths.
Qed.

(* ================================================================== *)
(** * Sorting and time windows                                         *)
(* ================================================================== *)

Section sorting.
Context {A : Type} (key : A -> Z).

Lemma insert_sorted_perm x l : insert_sorted key x l ≡ₚ x :: l.
Proof.
  induction l as [|y l IH]; cbn; [done|].
  destruct (key x <=? key y); [done|].
  rewrite IH. apply Permutation_swap.
Qed.

Lemma sorted_perm l : sorted key l ≡ₚ l.
Proof.
  induction l as [|x l IH]; cbn; [done|].
  by rewrite insert_sorted_perm, IH.
Qed.

Lemma elem_of_sorted x l : x ∈ sorted key l <-> x ∈ l.
Proof. by rewrite sorted_perm. Qed.

Lemma insert_sorted_head_least x l :
  head_least key l -> head_least key (insert_sorted key x l).
Proof.
  destruct l as [|y l]; cbn.
  - intros _. apply Forall_singleton. lia.
  - intros Hy. destruct (key x <=? key y) eqn:Hxy.
    + apply Z.leb_le in Hxy. apply Forall_cons. split; [lia|].
      eapply Forall_impl; [exact Hy|]. cbn. intros e He. lia.
    + apply Z.leb_gt in Hxy. apply Forall_cons. split; [lia|].
      rewrite insert_sorted_perm. apply Forall_cons. split; [lia|].
      by apply Forall_cons in Hy as [_ Hy].
Qed.

Lemma sorted_head_least l : head_least key (sorted key l).
Proof.
  induction l as [|x l IH]; cbn; [done|]. by apply insert_sorted_head_least.
Qed.

Lemma sorted_head_min l first rest :
  sorted key l = first :: rest ->
  first ∈ l /\ forall e, e ∈ l -> key first <= key e.
Proof.
  intros Hs. split.
  - apply elem_of_sorted. rewrite Hs. apply list_elem_of_here.
  - intros e He. pose proof (sorted_head_least l) as H. rewrite Hs in H.
    cbn in H. rewrite Forall_forall in H. apply H.
    rewrite <- Hs. by apply elem_of_sorted.
Qed.

End sorting.

Lemma foldr_min_spec k ks :
  foldr Z.min k ks ∈ k :: ks
  /\ Forall (fun x => foldr Z.min k ks <= x) (k :: ks).
Proof.
  induction ks as [|y ks [Hin Hle]]; cbn.
  - split; [apply list_elem_of_here | apply Forall_singleton; lia].
  - apply Forall_cons in Hle as [Hk Hks]. split.
    + destruct (Z.min_spec y (foldr Z.min k ks)) as [[_ ->]|[_ ->]].
      * apply list_elem_of_further, list_elem_of_here.
      * apply elem_of_cons in Hin as [->|Hin]; [apply list_elem_of_here|].
        by do 2 apply list_elem_of_further.
    + repeat apply Forall_cons_2; [lia | lia |].
      eapply Forall_impl; [exact Hks|]. cbn. intros x Hx. lia.
Qed.

(** The earliest timestamp is that of the head of the sorted events. *)
Lemma earliest_is_sorted_head l first rest :
  sorted timestamp_key l = first :: rest ->
  earliest_us l = Some (timestamp_key first).
Proof.
  intros Hs. destruct (sorted_head_min _ _ _ _ Hs) as [Hin Hmin].
  unfold earliest_us. destruct l as [|e0 l]; [by apply elem_of_nil in Hin|].
  cbn [map]. f_equal.
  destruct (foldr_min_spec (timestamp_key e0) (map timestamp_key l)) as [Hm Hle].
  change (timestamp_key e0 :: map timestamp_key l)
    with (timestamp_key <$> (e0 :: l)) in Hm, Hle.
  apply list_elem_of_fmap in Hm as (em & Hem & Hm).
  rewrite Forall_fmap, Forall_forall in Hle.
  specialize (Hle first Hin). specialize (Hmin em Hm). cbn in Hle. lia.
Qed.

Lemma add_to_window_lookup baseline tw e w :
  default [] (add_to_window baseline tw e !! w)
  = default [] (tw !! w) ++ (if decide (window_of baseline e = w) then [e] else []).
Proof.
  unfold add_to_window. cbn zeta. case_decide as Hw.
  - subst w. by rewrite lookup_insert_eq.
  - rewrite lookup_insert_ne by done. by rewrite app_nil_r.
Qed.

(** Each window holds, in order, the events whose index it is. *)
Lemma group_windows_lookup baseline l w :
  default [] (group_windows baseline l !! w)
  = filter (fun e => window_of baseline e = w) l.
Proof.
  unfold group_windows.
  assert (forall tw, default [] (foldl (add_to_window baseline) tw l !! w)
            = default [] (tw !! w) ++ filter (fun e => window_of baseline e = w) l)
    as H.
  { induction l as [|e l IH]; intros tw; cbn [foldl].
    - by rewrite filter_nil, app_nil_r.
    - rewrite IH, add_to_window_lookup, <- app_assoc. f_equal.
      case_decide.
      + by rewrite filter_cons_True.
      + by rewrite filter_cons_False. }
  by rewrite H, lookup_empty.
Qed.

Lemma time_windows_elem self e w :
  e ∈ events self ->
  exists first,
    first ∈ events self
    /\ (forall e', e' ∈ events self -> timestamp_key first <= timestamp_key e')
    /\ earliest_us (events self) = Some (timestamp_key first)
    /\ (e ∈ default [] (time_windows self !! w)
        <-> w = (timestamp_key e - timestamp_key first) / 1000000).
Proof.
  intros He. unfold time_windows.
  destruct (sorted timestamp_key (events self)) as [|first rest] eqn:Hs.
  { apply (elem_of_sorted timestamp_key) in He. rewrite Hs in He.
    by apply elem_of_nil in He. }
  destruct (sorted_head_min _ _ _ _ Hs) as [Hin Hmin].
  exists first. split_and!; [done | done | by eapply earliest_is_sorted_head |].
  rewrite group_windows_lookup, list_elem_of_filter, <- Hs, elem_of_sorted.
  unfold window_of, int_div, sub_us. fold (timestamp_key e) (timestamp_key first).
  rewrite Z.quot_div_nonneg by (specialize (Hmin e He); lia).
  split; [by intros [<- _] | by intros ->].
Qed.

(** C5: every event is in the window whose index is the floor of the
    whole seconds elapsed since the earliest timestamp of the events
    being windowed, and in no other; in particular events 0.2 s, 0.9 s,
    1.1 s and 2.0 s after the anchor are in windows 0, 0, 1 and 2. *)
Theorem C5_window_index (self : LogAnalyzer) :
  (forall e w, e ∈ events self ->
     exists anchor,
       earliest_us (events self) = Some anchor
       /\ (forall e', e' ∈ events self -> anchor <= timestamp_key e')
       /\ (exists e0, e0 ∈ events self /\ timestamp_key e0 = anchor)
       /\ (e ∈ default [] (time_windows self !! w)
           <-> w = (timestamp_key e - anchor) / 1000000))
  /\ (let sample := store_of [windowing_lines] in
      let anchor := default 0 (earliest_us (events sample)) in
      (fun e => (timestamp_key e - anchor, message e)) <$> events sample
        = [(0, "anchor"); (200000, "a"); (900000, "b"); (1100000, "c");
           (2000000, "d")]
      /\ message <$> default [] (time_windows sample !! 0) = ["anchor"; "a"; "b"]
      /\ message <$> default [] (time_windows sample !! 1) = ["c"]
      /\ message <$> default [] (time_windows sample !! 2) = ["d"]).
Proof.
  split.
  - intros e w He.
    destruct (time_windows_elem self e w He) as (first & Hin & Hmin & Hearly & Hw).
    exists (timestamp_key first). split_and!; [done | done | by exists first | done].
  - cbn zeta. split_and!; vm_compute; reflexivity.
Qed.

(* ================================================================== *)
(** * The comparison report                                            *)
(* ================================================================== *)

Lemma time_differences_app l1 l2 :
  time_differences (l1 ++ l2) = time_differences l1 ++ time_differences l2.
Proof. apply omap_app. Qed.

Lemma flagged_app l1 l2 : flagged (l1 ++ l2) = flagged l1 || flagged l2.
Proof. apply existsb_app. Qed.

Lemma offsets_shown_app l1 l2 :
  offsets_shown (l1 ++ l2) = offsets_shown l1 ++ offsets_shown l2.
Proof. apply omap_app. Qed.

Lemma elem_of_time_differences d report :
  d ∈ time_differences report <-> TimeDifference d ∈ report.
Proof.
  unfold time_differences. rewrite list_elem_of_omap. split.
  - intros (i & Hi & Hd). destruct i; try discriminate Hd. by injection Hd as ->.
  - intros H. by exists (TimeDifference d).
Qed.

Lemma flagged_elem report :
  flagged report = true <-> SignificantTimingDifference ∈ report.
Proof.
  unfold flagged. rewrite existsb_exists. split.
  - intros (i & Hi & Hf). destruct i; try discriminate Hf.
    by apply list_elem_of_In.
  - intros H. exists SignificantTimingDifference. by rewrite <- list_elem_of_In.
Qed.

Lemma metadata_line_plain e :
  time_differences (metadata_line e) = []
  /\ flagged (metadata_line e) = false
  /\ offsets_shown (metadata_line e) = [].
Proof. unfold metadata_line. by case_bool_decide. Qed.

Lemma first_selection_block_timing ups ps :
  match ups, ps with
  | ups_first :: _, ps_first :: _ =>
      let time_diff := sub_us (timestamp ups_first) (timestamp ps_first) in
      time_differences (first_selection_block ups ps) = [time_diff]
      /\ flagged (first_selection_block ups ps) = significant time_diff
  | _, _ =>
      time_differences (first_selection_block ups ps) = []
      /\ flagged (first_selection_block ups ps) = false
  end
  /\ offsets_shown (first_selection_block ups ps) = [].
Proof.
  destruct ups as [|u ups], ps as [|p ps]; try done.
  cbn zeta. unfold first_selection_block.
  destruct (metadata_line_plain u) as (Hu1 & Hu2 & Hu3).
  destruct (metadata_line_plain p) as (Hp1 & Hp2 & Hp3).
  revert Hu1 Hu2 Hu3 Hp1 Hp2 Hp3.
  generalize (metadata_line u) (metadata_line p)
             (sub_us (timestamp u) (timestamp p)).
  intros mu mp d Hu1 Hu2 Hu3 Hp1 Hp2 Hp3.
  rewrite !time_differences_app, !flagged_app, !offsets_shown_app.
  rewrite Hu1, Hu2, Hu3, Hp1, Hp2, Hp3.
  destruct (significant d); by split_and!.
Qed.

Lemma first_video_block_plain ups ps :
  time_differences (first_video_block ups ps) = []
  /\ flagged (first_video_block ups ps) = false
  /\ offsets_shown (first_video_block ups ps) = [].
Proof. by destruct ups, ps. Qed.

Lemma offset_rows_plain (f : LogEvent -> item) l :
  (forall e, exists d m, f e = OffsetRow d m) ->
  time_differences (map f l) = [] /\ flagged (map f l) = false.
Proof.
  intros Hf. induction l as [|e l [IH1 IH2]]; [done|].
  destruct (Hf e) as (d & m & He). cbn. by rewrite He.
Qed.

(** The rows of a [_firstSelect] block, when the store has a first
    event. *)
Lemma first_select_block_spec self label l first rest :
  events self = first :: rest ->
  exists rows,
    first_select_block self label l = Ok rows
    /\ time_differences rows = [] /\ flagged rows = false
    /\ offsets_shown rows
       = map (fun e => (sub_us (timestamp e) (timestamp first), message e)) (take 5 l).
Proof.
  intros Hev. unfold first_select_block, offset_rows. rewrite Hev.
  destruct l as [|e l]; [by exists []|].
  change (take 5 (e :: l)) with (e :: take 4 l). cbn [mbind res_bind mret res_ret].
  eexists. split; [reflexivity|].
  set (f := fun event : LogEvent =>
              OffsetRow (sub_us (timestamp event) (timestamp first)) (message event)).
  destruct (offset_rows_plain f (e :: take 4 l)) as [H1 H2].
  { intros e'. by eexists _, _. }
  split_and!.
  - exact H1.
  - exact H2.
  - cbn. f_equal. induction (take 4 l) as [|e' l' IH]; [done|]. cbn. by rewrite IH.
Qed.

Lemma first_select_block_empty self label :
  first_select_block self label [] = Ok [].
Proof. done. Qed.

(** On a store that satisfies the partition invariant the report is
    built without an exception; its only time difference and flag are
    those of the [OnGameSelected] comparison, and its offset rows refer
    to the first stored event. *)
Lemma comparison_report_spec self :
  store_invariant self ->
  exists report,
    create_comparison_report self = Ok report
    /\ time_differences report
       = time_differences
           (first_selection_block
              (of_type ON_GAME_SELECTED (uniplaysong_events self))
              (of_type ON_GAME_SELECTED (playnitesound_events self)))
    /\ flagged report
       = flagged
           (first_selection_block
              (of_type ON_GAME_SELECTED (uniplaysong_events self))
              (of_type ON_GAME_SELECTED (playnitesound_events self)))
    /\ forall first rest, events self = first :: rest ->
         offsets_shown report
         = map (fun e => (sub_us (timestamp e) (timestamp first), message e))
               (take 5 (of_type FIRST_SELECT_STATE (uniplaysong_events self))
                ++ take 5 (of_type FIRST_SELECT_STATE (playnitesound_events self))).
Proof.
  intros (Hu & Hp & _). unfold create_comparison_report. cbn zeta.
  set (sel := first_selection_block _ _).
  set (vid := first_video_block _ _).
  destruct (first_selection_block_timing
              (of_type ON_GAME_SELECTED (uniplaysong_events self))
              (of_type ON_GAME_SELECTED (playnitesound_events self))) as [_ Hsel].
  fold sel in Hsel.
  destruct (first_video_block_plain
              (of_type VIDEO_IS_PLAYING_CHANGED (uniplaysong_events self))
              (of_type VIDEO_IS_PLAYING_CHANGED (playnitesound_events self)))
    as (Hv1 & Hv2 & Hv3).
  fold vid in Hv1, Hv2, Hv3.
  destruct (events self) as [|first rest] eqn:Hev.
  - rewrite Hu, Hp. unfold of_type. rewrite !filter_nil.
    cbn [first_select_block mbind res_bind mret res_ret].
    eexists. split; [reflexivity|].
    rewrite !time_differences_app, !flagged_app, Hv1, Hv2. cbn.
    rewrite !app_nil_r, !orb_false_r. split_and!; [done | done |].
    intros first rest H. discriminate H.
  - destruct (first_select_block_spec self "UniPlaySong _firstSelect changes:"
                (of_type FIRST_SELECT_STATE (uniplaysong_events self)) _ _ Hev)
      as (r1 & -> & Ht1 & Hf1 & Ho1).
    destruct (first_select_block_spec self "PlayniteSound _firstSelect changes:"
                (of_type FIRST_SELECT_STATE (playnitesound_events self)) _ _ Hev)
      as (r2 & -> & Ht2 & Hf2 & Ho2).
    cbn [mbind res_bind mret res_ret].
    eexists. split; [reflexivity|].
    rewrite !time_differences_app, !flagged_app, !offsets_shown_app.
    rewrite Hv1, Hv2, Hv3, Ht1, Ht2, Hf1, Hf2, Ho1, Ho2, Hsel. cbn.
    rewrite !app_nil_r, !orb_false_r. split_and!; [done | done |].
    intros first' rest' [= <- <-]. by rewrite map_app.
Qed.

(** C1, as stated: the comparison of first occurrences is not made for
    every family, and the difference shown is not absolute.  With a first
    [VideoIsPlaying] event in each extension, 500 ms apart, the report
    shows no time difference and no flag; with first [OnGameSelected]
    events 50 ms apart, UniPlaySong first, it shows -50 ms. *)
Lemma C1_only_selection_compared_signed :
  match of_type VIDEO_IS_PLAYING_CHANGED (uniplaysong_events (store_of [video_lines])),
        of_type VIDEO_IS_PLAYING_CHANGED (playnitesound_events (store_of [video_lines])),
        create_comparison_report (store_of [video_lines]) with
  | u :: _, p :: _, Ok report =>
      Z.abs (sub_us (timestamp u) (timestamp p)) = 500000
      /\ time_differences report = []
      /\ flagged report = false
  | _, _, _ => False
  end
  /\ match create_comparison_report (store_of [selection_lines]) with
     | Ok report => time_differences report = [-50000]
     | Raise _ => False
     end.
Proof. vm_compute. by split_and!. Qed.

(** C1, amended: in the pairwise comparison report of the store built
    from any log files, a time difference is shown for the game-selection
    family only: when both extensions have at least one such event, the
    report shows the signed difference, in stored order the first
    UniPlaySong occurrence minus the first PlayniteSound one, and carries
    the "significant timing difference" flag exactly when the absolute
    value of that difference exceeds 100 ms; otherwise, and for the
    video-playing and first-select families always, no difference and no
    flag are shown. *)
Theorem C1_selection_timing (files : list (list string)) :
  let self := store_of files in
  exists report,
    create_comparison_report self = Ok report
    /\ match of_type ON_GAME_SELECTED (uniplaysong_events self),
             of_type ON_GAME_SELECTED (playnitesound_events self) with
       | ups_first :: _, ps_first :: _ =>
           let time_diff := sub_us (timestamp ups_first) (timestamp ps_first) in
           (forall d, TimeDifference d ∈ report <-> d = time_diff)
           /\ (SignificantTimingDifference ∈ report <-> 100000 < Z.abs time_diff)
       | _, _ =>
           (forall d, TimeDifference d ∉ report)
           /\ SignificantTimingDifference ∉ report
       end.
Proof.
  intros self.
  destruct (comparison_report_spec self (store_of_invariant files))
    as (report & Hr & Ht & Hf & _).
  exists report. split; [exact Hr|].
  destruct (first_selection_block_timing
              (of_type ON_GAME_SELECTED (uniplaysong_events self))
              (of_type ON_GAME_SELECTED (playnitesound_events self))) as [Hsel _].
  destruct (of_type ON_GAME_SELECTED (uniplaysong_events self)) as [|u ups],
           (of_type ON_GAME_SELECTED (playnitesound_events self)) as [|p ps];
    cbn zeta in *; destruct Hsel as [Hs1 Hs2]; rewrite Hs1 in Ht; rewrite Hs2 in Hf.
  1-3: split;
    [ intros d Hd%elem_of_time_differences; rewrite Ht in Hd; by apply elem_of_nil in Hd
    | intros Hd%flagged_elem; rewrite Hf in Hd; discriminate Hd ].
  split.
  - intros d. rewrite <- elem_of_time_differences, Ht. apply list_elem_of_singleton.
  - rewrite <- flagged_elem, Hf. unfold significant. apply Z.ltb_lt.
Qed.

(** C7 at a store whose first event is not its earliest: the only
    [_firstSelect] event has the earliest timestamp of the store, so its
    offset from the global earliest timestamp is 0 ms, and the report
    shows -1000 ms, the offset from the first stored event. *)
Lemma C7_offset_from_first_stored :
  let self := store_of [unordered_lines] in
  match of_type FIRST_SELECT_STATE (uniplaysong_events self),
        create_comparison_report self with
  | [event], Ok report =>
      earliest_us (events self) = Some (timestamp_key event)
      /\ offsets_shown report = [(-1000000, "_firstSelect: true")]
  | _, _ => False
  end.
Proof. vm_compute. by split. Qed.

(** What the report does for the first-select family on any store built
    from log files: up to the first five occurrences of each extension,
    each with its offset from the first stored event. *)
Lemma first_select_offsets (files : list (list string)) first rest :
  let self := store_of files in
  events self = first :: rest ->
  exists report,
    create_comparison_report self = Ok report
    /\ offsets_shown report
       = map (fun e => (sub_us (timestamp e) (timestamp first), message e))
             (take 5 (of_type FIRST_SELECT_STATE (uniplaysong_events self))
              ++ take 5 (of_type FIRST_SELECT_STATE (playnitesound_events self))).
Proof.
  intros self Hev.
  destruct (comparison_report_spec self (store_of_invariant files))
    as (report & Hr & _ & _ & Ho).
  exists report. split; [exact Hr | exact (Ho _ _ Hev)].
Qed.

(* ================================================================== *)
(** * Stored timestamps have millisecond precision                     *)
(* ================================================================== *)

Section matcher_sem.
Context {X : Type}.

Lemma exec_sem r : forall s caps (k : string -> gmap nat string -> option X) x,
  Re.exec r s caps k = Some x ->
  exists w s' caps', s = w +:+ s' /\ Re.sem r w caps caps' /\ k s' caps' = Some x.
Proof.
  induction r as [|p|r1 IH1 r2 IH2|r1 IH1 r2 IH2|g p|n r1 IH1];
    intros s caps k x H; simpl in H.
  - by exists "", s, caps.
  - destruct s as [|c s]; [done|]. destruct (p c) eqn:Hc; [|done].
    exists (String c ""), s, caps. split_and!; [done | | done].
    split; [by exists c | done].
  - apply IH1 in H as (w1 & s1 & c1 & -> & Hl1 & H).
    apply IH2 in H as (w2 & s2 & c2 & -> & Hl2 & H).
    exists (w1 +:+ w2), s2, c2. split_and!; [by rewrite append_assoc | | done].
    by exists w1, w2, c1.
  - destruct (Re.exec r1 s caps k) as [y|] eqn:H1.
    + injection H as <-. apply IH1 in H1 as (w & s' & c' & -> & Hl & H).
      exists w, s', c'. split_and!; [done | by left | done].
    + apply IH2 in H as (w & s' & c' & -> & Hl & H).
      exists w, s', c'. split_and!; [done | by right | done].
  - assert (exists w s', s = w +:+ s' /\ str_all p w = true
                         /\ k s' caps = Some x) as (w & s' & -> & Hw & Hk).
    { destruct g; [by apply rep_greedy_sound in H | by apply rep_lazy_sound in H]. }
    by exists w, s', caps.
  - apply IH1 in H as (w & s' & c' & -> & Hl & H).
    rewrite prefix_upto_append in H.
    exists w, s', (<[n := w]> c'). split_and!; [done | | done]. by exists c'.
Qed.

End matcher_sem.

Lemma match_sem r s m rest :
  Re.match_ r s = Some (m, rest) -> exists w, s = w +:+ rest /\ Re.sem r w ∅ m.
Proof.
  unfold Re.match_. intros H.
  apply exec_sem in H as (w & s' & c' & -> & Hl & [= <- <-]). by exists w.
Qed.

Lemma sem_lang r : forall w c c', Re.sem r w c c' -> Re.lang r w.
Proof.
  induction r as [|p|r1 IH1 r2 IH2|r1 IH1 r2 IH2|g p|n r1 IH1];
    intros w c c'; simpl.
  - by intros [-> _].
  - by intros [H _].
  - intros (u & v & c1 & -> & H1 & H2). exists u, v. split_and!; eauto.
  - intros [H|H]; eauto.
  - by intros [H _].
  - intros (c1 & H & _). eauto.
Qed.

(** A word of a pattern that accepts no dot has no dot. *)
Lemma lang_no_dot r w :
  Re.accepts r "." = false -> Re.lang r w -> str_all not_dot w = true.
Proof.
  intros Hdot Hl. apply lang_accepts in Hl.
  eapply str_all_impl; [|exact Hl].
  intros c Hc. unfold not_dot, is_char. case_bool_decide as Heq; [|done].
  subst c. congruence.
Qed.

(** A right-nested sequence splits into the words of its pieces and the
    word of its last part. *)
Lemma sem_chain rs last : forall w c c',
  Forall (fun r => Re.accepts r "." = false) rs ->
  Re.sem (foldr Re.Seq last rs) w c c' ->
  exists u v c1, w = u +:+ v /\ str_all not_dot u = true /\ Re.sem last v c1 c'.
Proof.
  induction rs as [|r rs IH]; intros w c c' Hrs H; cbn [foldr] in H.
  - by exists "", w, c.
  - apply Forall_cons in Hrs as [Hr Hrs].
    destruct H as (u & v & c1 & -> & Hu & Hv).
    apply IH in Hv as (u' & v' & c2 & -> & Hu' & Hv'); [|done].
    exists (u +:+ u'), v', c2. rewrite append_assoc, str_all_append, Hu'.
    split_and!; [done | | done].
    by rewrite (lang_no_dot r u Hr (sem_lang _ _ _ _ Hu)).
Qed.

Lemma first_dot_unique u : forall u' v v',
  str_all not_dot u = true -> str_all not_dot u' = true ->
  u +:+ String "." v = u' +:+ String "." v' -> u = u' /\ v = v'.
Proof.
  induction u as [|a u IH]; intros [|a' u'] v v' Hu Hu' Heq; simpl in *.
  - by injection Heq as ->.
  - injection Heq as <- _. by rewrite andb_false_l in Hu'.
  - injection Heq as -> _. by rewrite andb_false_l in Hu.
  - injection Heq as -> Heq.
    apply andb_true_iff in Hu as [_ Hu]. apply andb_true_iff in Hu' as [_ Hu'].
    destruct (IH _ _ _ Hu Hu' Heq) as [-> ->]. done.
Qed.

Lemma is_char_i_dot c : is_char_i "." c = true -> c = "."%char.
Proof.
  destruct c as [[] [] [] [] [] [] [] []]; vm_compute; intros H;
    first [discriminate H | reflexivity].
Qed.

Lemma timestamp_shape_strong ts :
  Re.lang timestamp_re ts ->
  exists pre d1 d2 d3,
    ts = pre +:+ String "." (String d1 (String d2 (String d3 "")))
    /\ str_all not_dot pre = true.
Proof.
  change timestamp_re with (Re.seqs (timestamp_prefix ++ [Re.lit "."; Re.times 3 digit])).
  intros (pre & v & -> & Hpre & Hv)%lang_seqs_app.
  simpl in Hv.
  destruct Hv as (? & ? & -> & (? & ? & -> & (c & -> & Hc) & ->)
                    & (? & ? & -> & (d1 & -> & H1)
                       & (? & ? & -> & (d2 & -> & H2)
                          & (? & ? & -> & (d3 & -> & H3) & ->)))).
  apply bool_decide_eq_true in Hc as ->.
  exists pre, d1, d2, d3. split; [done|].
  apply (lang_no_dot (Re.seqs timestamp_prefix)); [vm_compute; reflexivity | done].
Qed.

Lemma fraction_regex_eq :
  format_regex false fmt_fraction = Some (foldr Re.Seq fraction_suffix fraction_prefix).
Proof. reflexivity. Qed.

Lemma fraction_prefix_no_dot :
  Forall (fun r => Re.accepts r "." = false) fraction_prefix.
Proof. unfold fraction_prefix. repeat apply Forall_cons_2; try apply Forall_nil_2;
  vm_compute; reflexivity. Qed.

(** On the text of a recognised timestamp, the fraction group of
    [strptime] is the three digits after the dot. *)
Lemma fraction_group ts found :
  Re.lang timestamp_re ts ->
  Re.match_ (foldr Re.Seq fraction_suffix fraction_prefix) ts = Some (found, "") ->
  exists d1 d2 d3, found !! 7%nat = Some (String d1 (String d2 (String d3 ""))).
Proof.
  intros (pre & d1 & d2 & d3 & -> & Hpre)%timestamp_shape_strong Hm.
  apply match_sem in Hm as (w & Hw & Hsem). rewrite append_nil_r in Hw. subst w.
  apply sem_chain in Hsem as (u & v & c1 & Heq & Hu & Hv);
    [|apply fraction_prefix_no_dot].
  unfold fraction_suffix in Hv.
  destruct Hv as (? & ? & c2 & -> & [(c & -> & Hc) ->]
                    & (f & ? & c3 & -> & Hf & [-> ->])).
  apply is_char_i_dot in Hc as ->.
  change (dir "f") with
    (Re.Group 7 (Re.Seq (Re.Chr (chr_in "0" "9")) (upto 5 (Re.Chr (chr_in "0" "9")))))
    in Hf.
  destruct Hf as (c4 & _ & ->).
  rewrite append_nil_r in Heq. simpl in Heq.
  apply first_dot_unique in Heq as [_ <-]; [|done..].
  exists d1, d2, d3. by rewrite lookup_insert_eq.
Qed.

(** The timestamp of a recognised line is a whole number of
    milliseconds, in the years 1 to 9999. *)
Lemma strptime_fraction_ms ts t :
  Re.lang timestamp_re ts ->
  strptime ts fmt_fraction = Ok t ->
  (exists ms, microsecond t = 1000 * ms) /\ 1 <= year t <= 9999.
Proof.
  intros Hts. unfold strptime. rewrite fraction_regex_eq.
  destruct (Re.match_ _ ts) as [[found rest]|] eqn:Hm; [|done].
  destruct rest; [|done].
  destruct (fraction_group ts found Hts Hm) as (d1 & d2 & d3 & Hf).
  unfold datetime_new. case_match eqn:Hrange; [|done]. intros [= <-]. cbn.
  split.
  - unfold fraction. rewrite Hf. unfold int_of_digits. cbn.
    exists (100 * (code d1 - 48) + 10 * (code d2 - 48) + (code d3 - 48)).
    change (code "0") with 48. lia.
  - repeat (apply andb_true_iff in Hrange as [Hrange ?]).
    unfold in_range in Hrange. lia.
Qed.

(** Every event stored from a line has such a timestamp. *)
Lemma stored_timestamp_ms raw e :
  process_line raw = Ok (Some e) ->
  (exists ms, microsecond (timestamp e) = 1000 * ms)
  /\ 1 <= year (timestamp e) <= 9999.
Proof.
  intros (p & Hp & Ht & _)%process_line_inv.
  destruct (recognise_spec (strip raw)) as (o & Ho & Hts & _).
  rewrite Hp in Ho. injection Ho as <-.
  exact (strptime_fraction_ms _ _ (Hts p eq_refl) Ht).
Qed.

(* ================================================================== *)
(** * The store as a function of the lines                             *)
(* ================================================================== *)

Lemma line_event_spec raw : process_line raw = Ok (line_event raw).
Proof.
  unfold line_event. by destruct (process_line_ok raw) as (o & ->).
Qed.

Lemma store_event_events e self :
  events (store_event e self) = events self ++ [e]
  /\ uniplaysong_events (store_event e self)
     = uniplaysong_events self ++ filter (fun e => extension e = UNIPLAYSONG) [e]
  /\ playnitesound_events (store_event e self)
     = playnitesound_events self ++ filter (fun e => extension e = PLAYNITESOUND) [e].
Proof.
  unfold store_event. cbn [events uniplaysong_events playnitesound_events].
  split_and!; [done | |].
  - case_bool_decide.
    + by rewrite filter_cons_True.
    + by rewrite filter_cons_False, app_nil_r.
  - case_bool_decide as Ha.
    + rewrite filter_cons_False, app_nil_r; [done|]. by rewrite Ha.
    + case_bool_decide.
      * by rewrite filter_cons_True.
      * by rewrite filter_cons_False, app_nil_r.
Qed.

Lemma parse_lines_events lines : forall self,
  let new := omap line_event lines in
  parse_lines lines self =
    (mk_LogAnalyzer
       (events self ++ new)
       (uniplaysong_events self ++ filter (fun e => extension e = UNIPLAYSONG) new)
       (playnitesound_events self
        ++ filter (fun e => extension e = PLAYNITESOUND) new),
     None).
Proof.
  induction lines as [|raw lines IH]; intros self; cbn [parse_lines omap list_omap].
  - cbn zeta. rewrite !filter_nil, !app_nil_r. by destruct self.
  - rewrite (line_event_spec raw). destruct (line_event raw) as [e|].
    + rewrite IH. cbn zeta.
      destruct (store_event_events e self) as (-> & -> & ->).
      rewrite !filter_cons, !filter_nil.
      repeat case_decide; by rewrite <- ?app_assoc.
    + by rewrite IH.
Qed.

Lemma parse_single_events lines self :
  let new := omap line_event lines in
  _parse_single_log_file lines self =
    (mk_LogAnalyzer
       (events self ++ new)
       (uniplaysong_events self ++ filter (fun e => extension e = UNIPLAYSONG) new)
       (playnitesound_events self
        ++ filter (fun e => extension e = PLAYNITESOUND) new),
     length new).
Proof.
  cbn zeta. unfold _parse_single_log_file. rewrite parse_lines_events. cbn.
  f_equal. rewrite length_app. lia.
Qed.

Lemma parse_files_events files : forall self n,
  let new := omap line_event (concat files) in
  parse_files files self n =
    (mk_LogAnalyzer
       (events self ++ new)
       (uniplaysong_events self ++ filter (fun e => extension e = UNIPLAYSONG) new)
       (playnitesound_events self
        ++ filter (fun e => extension e = PLAYNITESOUND) new),
     (n + length new)%nat).
Proof.
  induction files as [|lines files IH]; intros self n; cbn [parse_files concat].
  - cbn. rewrite !app_nil_r, Nat.add_0_r. by destruct self.
  - rewrite parse_single_events. cbn zeta. rewrite IH. cbn.
    rewrite omap_app, !filter_app, length_app, <- !app_assoc. f_equal. lia.
Qed.

(** The store after parsing log files is the store before with, appended
    in order, the events of the lines that give one, file after file;
    the two extension lists grow by the new events of their extension.
    So stored events are never removed, reordered or altered, and parsing
    several files is parsing their lines in one sequence. *)
Theorem parsing_appends_line_events (files : list (list string)) (self : LogAnalyzer) :
  let self' := (parse_log_files files self).1 in
  let new := omap line_event (concat files) in
  events self' = events self ++ new
  /\ uniplaysong_events self'
     = uniplaysong_events self ++ filter (fun e => extension e = UNIPLAYSONG) new
  /\ playnitesound_events self'
     = playnitesound_events self ++ filter (fun e => extension e = PLAYNITESOUND) new
  /\ (forall files2,
        (parse_log_files files2 self').1 = (parse_log_files (files ++ files2) self).1).
Proof.
  assert (forall fs s,
            (parse_log_files fs s).1 =
            let new := omap line_event (concat fs) in
            mk_LogAnalyzer
              (events s ++ new)
              (uniplaysong_events s ++ filter (fun e => extension e = UNIPLAYSONG) new)
              (playnitesound_events s
               ++ filter (fun e => extension e = PLAYNITESOUND) new)) as Hfs.
  { intros fs s. unfold parse_log_files. destruct fs as [|l fs].
    - cbn. rewrite !app_nil_r. by destruct s.
    - by rewrite parse_files_events. }
  cbn zeta. rewrite Hfs. cbn. split_and!; [done..|].
  intros files2. rewrite !Hfs. cbn.
  by rewrite concat_app, omap_app, !filter_app, <- !app_assoc.
Qed.

(** [parse_log_files] answers [True] exactly when it stored at least one
    new event; with no log file it answers [False] and leaves the store
    as it is.  The number [_parse_single_log_file] returns is the number
    of events it appended. *)
Theorem parse_log_files_flag (files : list (list string)) (self : LogAnalyzer) :
  ((parse_log_files files self).2 = true
   <-> (length (events self) < length (events (parse_log_files files self).1))%nat)
  /\ parse_log_files [] self = (self, false)
  /\ (forall lines,
        ((_parse_single_log_file lines self).2
         = length (events (_parse_single_log_file lines self).1)
           - length (events self))%nat).
Proof.
  split_and!.
  - unfold parse_log_files. destruct files as [|l fs].
    + cbn. split; [done | lia].
    + rewrite parse_files_events. cbn. rewrite length_app.
      rewrite bool_decide_eq_true. lia.
  - done.
  - intros lines. rewrite parse_single_events. cbn. rewrite length_app. lia.
Qed.

(* ================================================================== *)
(** * Stored events                                                    *)
(* ================================================================== *)

Lemma datetime_new_valid y m d H M S us t :
  datetime_new y m d H M S us = Ok t ->
  1 <= year t <= 9999 /\ 1 <= month t <= 12
  /\ 1 <= day t <= days_in_month (year t) (month t)
  /\ 0 <= hour t <= 23 /\ 0 <= minute t <= 59 /\ 0 <= second t <= 59
  /\ 0 <= microsecond t <= 999999.
Proof.
  unfold datetime_new. case_match eqn:Hrange; [|done]. intros [= <-]. cbn.
  repeat (apply andb_true_iff in Hrange as [Hrange ?]).
  unfold in_range in *. lia.
Qed.

Lemma strptime_valid data fmt t :
  strptime data fmt = Ok t ->
  1 <= year t <= 9999 /\ 1 <= month t <= 12
  /\ 1 <= day t <= days_in_month (year t) (month t)
  /\ 0 <= hour t <= 23 /\ 0 <= minute t <= 59 /\ 0 <= second t <= 59
  /\ 0 <= microsecond t <= 999999.
Proof.
  unfold strptime. repeat (case_match; try done). apply datetime_new_valid.
Qed.

Lemma lstrip_all p s : str_all p s = true -> str_all p (lstrip s) = true.
Proof.
  induction s as [|c s IH]; [done|]. cbn. intros [Hc Hs]%andb_true_iff.
  destruct (is_space c); [by apply IH|]. cbn. by rewrite Hc, Hs.
Qed.

Lemma rstrip_all p s : str_all p s = true -> str_all p (rstrip s) = true.
Proof.
  induction s as [|c s IH]; [done|]. cbn. intros [Hc Hs]%andb_true_iff.
  specialize (IH Hs). destruct (rstrip s) as [|c' s'].
  - destruct (is_space c); [done|]. cbn. by rewrite Hc.
  - cbn in *. by rewrite Hc, IH.
Qed.

Lemma strip_all p s : str_all p s = true -> str_all p (strip s) = true.
Proof. intros H. by apply rstrip_all, lstrip_all. Qed.

(** Every event in a store built from log files was made from one of
    their lines: its raw line is that line stripped and is not empty, its
    extension is one of the two known ones, its category and its metadata
    are those of its message alone, and its timestamp is a date and time
    of the calendar with a whole number of milliseconds. *)
Theorem stored_event_well_formed (files : list (list string)) (e : LogEvent) :
  e ∈ events (store_of files) ->
  (exists raw, raw ∈ concat files /\ process_line raw = Ok (Some e)
               /\ raw_line e = strip raw)
  /\ raw_line e <> ""
  /\ (extension e = UNIPLAYSONG \/ extension e = PLAYNITESOUND)
  /\ event_type e = _classify_event (message e)
  /\ _extract_metadata (message e) (event_type e) = Ok (metadata e)
  /\ valid_datetime (timestamp e).
Proof.
  intros He. unfold store_of in He.
  destruct (parsing_appends_line_events files init) as (Hev & _).
  cbn zeta in Hev. rewrite Hev in He. cbn in He.
  apply list_elem_of_omap in He as (raw & Hraw & Hle).
  assert (process_line raw = Ok (Some e)) as Hp
    by (by rewrite line_event_spec, Hle).
  destruct (process_line_inv raw e Hp)
    as (p & Hrec & Hts & Hext & Hne & Hty & Hmsg & Hraw_line & Hmd).
  split_and!.
  - by exists raw.
  - rewrite Hraw_line. intros Hs. unfold process_line in Hp.
    by rewrite bool_decide_eq_true_2 in Hp.
  - destruct (extension e); [by left | by right | done].
  - by rewrite Hty, Hmsg.
  - done.
  - destruct (stored_timestamp_ms raw e Hp) as [(ms & Hms) _].
    destruct (strptime_valid _ _ _ Hts) as (? & ? & ? & ? & ? & ? & ?).
    unfold valid_datetime. split_and!; try lia. exists ms. split; [lia | done].
Qed.

Lemma stored_event_well_formed_witness :
  let e := mk_LogEvent (mk_datetime 2024 1 1 10 0 0 200000) UNIPLAYSONG OTHER "a"
             "2024-01-01 10:00:00.200 | INFO | UniPlaySong | a" ∅ in
  e ∈ events (store_of [windowing_lines])
  /\ valid_datetime (timestamp e)
  /\ event_type e = _classify_event (message e).
Proof.
  intros e.
  assert (e ∈ events (store_of [windowing_lines])) as H.
  { apply list_elem_of_lookup. exists 1%nat. vm_compute. reflexivity. }
  split; [exact H|].
  destruct (stored_event_well_formed [windowing_lines] e H) as (_ & _ & _ & Ht & _ & Hv).
  by split.
Defined.

(* ================================================================== *)
(** * The message of a recognised line                                 *)
(* ================================================================== *)

Lemma str_take_all s : str_take (String.length s) s = s.
Proof. induction s as [|c s IH]; cbn; [done | by rewrite IH]. Qed.

Lemma rep_greedy_all {X} p s (k : string -> option X) x :
  str_all p s = true -> k "" = Some x -> Re.rep_greedy p s k = Some x.
Proof.
  intros Hs Hk. induction s as [|c s IH]; cbn; [done|].
  cbn in Hs. apply andb_true_iff in Hs as [-> Hs]. by rewrite (IH Hs).
Qed.

Lemma exec_chain_suffix {X} rs last : forall s caps
    (k : string -> gmap nat string -> option X) x,
  Re.exec (foldr Re.Seq last rs) s caps k = Some x ->
  exists w s' c', s = w +:+ s' /\ Re.exec last s' c' k = Some x.
Proof.
  induction rs as [|r rs IH]; intros s caps k x H; cbn [foldr] in H.
  - by exists "", s, caps.
  - change (Re.exec r s caps (fun s1 c1 => Re.exec (foldr Re.Seq last rs) s1 c1 k)
            = Some x) in H.
    apply exec_sound in H as (w & s' & c' & -> & _ & H & _).
    apply IH in H as (w' & s'' & c'' & -> & H).
    exists (w +:+ w'), s'', c''. by rewrite append_assoc.
Qed.

(** A pattern that ends in a group of [.*] binds that group to all that
    is left of a line without a line feed. *)
Lemma last_group_rest rs n line m rest :
  str_all is_dot line = true ->
  Re.match_ (foldr Re.Seq (Re.Group n (Re.Rep true is_dot)) rs) line = Some (m, rest) ->
  exists pre msg, m !! n = Some msg /\ line = pre +:+ msg.
Proof.
  unfold Re.match_. intros Hline H.
  apply exec_chain_suffix in H as (w & s' & c' & -> & H).
  rewrite str_all_append in Hline. apply andb_true_iff in Hline as [_ Hs'].
  cbn [Re.exec] in H.
  rewrite (rep_greedy_all is_dot s' _ (<[n := s']> c', "") Hs') in H.
  - injection H as <- <-. exists w, s'. by rewrite lookup_insert_eq.
  - unfold prefix_upto. cbn [String.length]. by rewrite Nat.sub_0_r, str_take_all.
Qed.

Lemma recognise_message_suffix line p :
  str_all is_dot line = true ->
  recognise line = Ok (Some p) ->
  exists pre, line = pre +:+ parsed_message p.
Proof.
  intros Hline. unfold recognise, group_text.
  destruct (Re.match_ log_pattern line) as [[m rest]|] eqn:H1.
  { pose proof H1 as H1'.
    apply log_pattern_groups in H1 as ((ts & -> & _) & [e ->] & _).
    change log_pattern with
      (foldr Re.Seq (Re.Group 4 (Re.Rep true is_dot))
         [Re.Group 1 timestamp_re; spaces; Re.lit "|"; spaces;
          Re.Group 2 (Re.plus true is_word); spaces; Re.lit "|"; spaces;
          Re.Group 3 (Re.Rep false is_dot); spaces; Re.lit "|"; spaces]) in H1'.
    apply last_group_rest in H1' as (pre & msg & -> & ->); [|done].
    intros [= <-]. by exists pre. }
  destruct (Re.match_ filelogger_pattern line) as [[m rest]|] eqn:H2.
  { pose proof H2 as H2'.
    apply filelogger_pattern_groups in H2 as ((ts & -> & _) & _).
    change filelogger_pattern with
      (foldr Re.Seq (Re.Group 3 (Re.Rep true is_dot))
         [Re.lit "["; Re.Group 1 timestamp_re; Re.lit "]"; Re.plus true is_space;
          Re.lit "["; Re.Group 2 (Re.plus true is_word); Re.lit "]";
          Re.plus true is_space]) in H2'.
    apply last_group_rest in H2' as (pre & msg & -> & ->); [|done].
    intros [= <-]. by exists pre. }
  destruct (Re.match_ simple_pattern line) as [[m rest]|] eqn:H3.
  { pose proof H3 as H3'.
    apply simple_pattern_groups in H3 as ((ts & -> & _) & _).
    change simple_pattern with
      (foldr Re.Seq (Re.Group 2 (Re.Rep true is_dot))
         [Re.Group 1 timestamp_re; Re.plus true is_space]) in H3'.
    apply last_group_rest in H3' as (pre & msg & -> & ->); [|done].
    intros [= <-]. by exists pre. }
  intros H. discriminate H.
Qed.

Lemma rstrip_append_space c s :
  is_space c = true -> rstrip (s +:+ String c "") = rstrip s.
Proof.
  intros Hc. induction s as [|a s IH]; cbn; [by rewrite Hc|]. by rewrite IH.
Qed.

(** Stripping removes the line feed that ends a line. *)
Lemma strip_line_feed s : strip (s +:+ String "010"%char "") = strip s.
Proof.
  unfold strip. induction s as [|a s IH]; [done|]. cbn [String.append lstrip].
  destruct (is_space a); [exact IH|].
  by apply (rstrip_append_space "010"%char (String a s)).
Qed.

Lemma readlines_line_stripped body :
  no_line_feed body ->
  no_line_feed (strip body)
  /\ no_line_feed (strip (body +:+ String "010"%char "")).
Proof.
  intros H. rewrite strip_line_feed. split; by apply strip_all.
Qed.

(** The message of an event is the end of its raw line.  [readlines]
    gives lines that end in a line feed (the last one may not) and have
    none inside, so that the stripped line has no line feed: the raw
    line of the event is that stripped line, and the message is a
    suffix of it. *)
Theorem message_is_line_suffix (raw : string) (e : LogEvent) :
  no_line_feed (strip raw) ->
  process_line raw = Ok (Some e) ->
  raw_line e = strip raw /\ exists pre, raw_line e = pre +:+ message e.
Proof.
  intros Hraw (p & Hrec & _ & _ & _ & _ & Hmsg & Hline & _)%process_line_inv.
  split; [done|]. rewrite Hline, Hmsg.
  by apply recognise_message_suffix.
Qed.

Lemma message_is_line_suffix_witness :
  let raw := "  [2024-01-01 10:00:00.200] [INFO] [UniPlaySong] a  "
             +:+ String "010"%char "" in
  let e := mk_LogEvent (mk_datetime 2024 1 1 10 0 0 200000) UNIPLAYSONG OTHER
             "[UniPlaySong] a" "[2024-01-01 10:00:00.200] [INFO] [UniPlaySong] a" ∅ in
  str_all is_dot raw = false
  /\ no_line_feed (strip raw) /\ process_line raw = Ok (Some e)
  /\ exists pre, raw_line e = pre +:+ message e.
Proof.
  intros raw e.
  assert (no_line_feed (strip raw)) as H1 by (vm_compute; reflexivity).
  assert (process_line raw = Ok (Some e)) as H2 by (vm_compute; reflexivity).
  split_and!; [vm_compute; reflexivity | exact H1 | exact H2 |].
  exact (proj2 (message_is_line_suffix raw e H1 H2)).
Defined.

(* ================================================================== *)
(** * Bare names decide the extension of bracketed and bare lines      *)
(* ================================================================== *)

Lemma starts_with_prefix p : forall q s,
  starts_with (p +:+ q) s = true -> starts_with p s = true.
Proof.
  induction p as [|a p IH]; intros q [|b s]; cbn; try done.
  intros [-> H]%andb_true_iff. by rewrite (IH _ _ H).
Qed.

Lemma contains_prefix p q s : contains (p +:+ q) s = true -> contains p s = true.
Proof.
  induction s as [|b s IH]; cbn.
  - rewrite !orb_false_r. apply starts_with_prefix.
  - intros [H|H]%orb_true_iff.
    + by rewrite (starts_with_prefix _ _ _ H).
    + rewrite (IH H). apply orb_true_r.
Qed.

Lemma starts_with_contains p s : starts_with p s = true -> contains p s = true.
Proof. destruct s; cbn; by intros ->. Qed.

Lemma contains_tail c p s : contains (String c p) s = true -> contains p s = true.
Proof.
  induction s as [|b s IH]; cbn; [done|].
  intros [H|H]%orb_true_iff.
  - apply andb_true_iff in H as [_ H].
    rewrite (starts_with_contains _ _ H). apply orb_true_r.
  - rewrite (IH H). apply orb_true_r.
Qed.

Lemma bracketed_UniPlaySong s :
  contains "[UniPlaySong]" s = true -> contains "UniPlaySong" s = true.
Proof.
  intros H. apply contains_tail in H.
  change "UniPlaySong]" with ("UniPlaySong" +:+ "]") in H.
  by apply contains_prefix in H.
Qed.

Lemma bracketed_PlayniteSound s :
  contains "[PlayniteSound]" s = true -> contains "PlayniteSound" s = true.
Proof.
  intros H. apply contains_tail in H.
  change "PlayniteSound]" with ("PlayniteSound" +:+ "]") in H.
  by apply contains_prefix in H.
Qed.

(** For a line of the bracketed or of the bare format the extension is
    decided by the bare names in the message alone: UniPlaySong when its
    name occurs, else PlayniteSound when its name occurs, else unknown;
    the tests for the bracketed names change nothing. *)
Theorem non_tabular_source_by_bare_name (raw : string) (p : parsed) :
  recognise (strip raw) = Ok (Some p) ->
  format p <> Tabular ->
  resolve_extension (extension_name p) (parsed_message p)
  = bare_name_resolution (parsed_message p).
Proof.
  intros Hp Hf. rewrite (recognise_name_in _ _ Hp Hf).
  unfold resolve_extension, name_in, bare_name_resolution.
  pose proof (bracketed_UniPlaySong (parsed_message p)) as Ha.
  pose proof (bracketed_PlayniteSound (parsed_message p)) as Hb.
  destruct (contains "[UniPlaySong]" (parsed_message p)),
           (contains "UniPlaySong" (parsed_message p)),
           (contains "[PlayniteSound]" (parsed_message p)),
           (contains "PlayniteSound" (parsed_message p));
    try (by specialize (Ha eq_refl)); try (by specialize (Hb eq_refl));
    vm_compute; reflexivity.
Qed.

Lemma non_tabular_source_by_bare_name_witness :
  let raw := "2024-01-01 10:00:00.050 PlayniteSound before UniPlaySong" in
  let p := mk_parsed Simple "2024-01-01 10:00:00.050" (Some "INFO")
                     "UniPlaySong" "PlayniteSound before UniPlaySong" in
  recognise (strip raw) = Ok (Some p)
  /\ format p <> Tabular
  /\ resolve_extension (extension_name p) (parsed_message p)
     = bare_name_resolution (parsed_message p).
Proof.
  intros raw p.
  assert (recognise (strip raw) = Ok (Some p)) as H by (vm_compute; reflexivity).
  assert (format p <> Tabular) as Hf by (intros Hx; discriminate Hx).
  split_and!; [exact H | exact Hf |].
  exact (non_tabular_source_by_bare_name raw p H Hf).
Defined.

(* ================================================================== *)
(** * The values of the metadata fields                                *)
(* ================================================================== *)

Lemma search_sem r s m rest :
  Re.search r s = Some (m, rest) -> exists w, Re.sem r w ∅ m.
Proof.
  induction s as [|c s IH]; cbn [Re.search].
  - destruct (Re.match_ r "") as [[m' rest']|] eqn:Hm; [|done].
    intros [= <- <-]. apply match_sem in Hm as (w & _ & Hw). by exists w.
  - destruct (Re.match_ r (String c s)) as [[m' rest']|] eqn:Hm; [|done].
    intros [= <- <-]. apply match_sem in Hm as (w & _ & Hw). by exists w.
Qed.

(** The group of a field pattern holds a word of the group's body. *)
Lemma sem_field_group key p body w m :
  Re.sem (Re.seqs [Re.lit_i key; Re.plus true p; Re.Group 1 body]) w ∅ m ->
  exists g, m !! 1%nat = Some g /\ Re.lang body g.
Proof.
  cbn [Re.seqs Re.sem].
  intros (u & v & c1 & -> & _ & (u2 & v2 & c2 & -> & _ & (c3 & Hb & ->))).
  exists v2. rewrite lookup_insert_eq. split; [done | by eapply sem_lang].
Qed.

Lemma sem_result_group key p r1 body w m :
  Re.sem (Re.seqs [Re.lit_i key; Re.plus true p; Re.Group 1 r1;
                   Re.Rep true is_space; Re.Group 2 body]) w ∅ m ->
  exists g, m !! 2%nat = Some g /\ Re.lang body g.
Proof.
  cbn [Re.seqs Re.sem].
  intros (u & v & c1 & -> & _ & (u2 & v2 & c2 & -> & _
            & (u3 & v3 & c3 & -> & _ & (u4 & v4 & c4 & -> & _ & (c5 & Hb & ->))))).
  exists v4. rewrite lookup_insert_eq. split; [done | by eapply sem_lang].
Qed.

Lemma lower_append a b : lower (a +:+ b) = lower a +:+ lower b.
Proof. induction a as [|x a IH]; cbn; [done | by rewrite IH]. Qed.

Lemma lang_lit_i s : forall g, Re.lang (Re.lit_i s) g -> lower g = lower s.
Proof.
  induction s as [|c s IH]; intros g; cbn [Re.lit_i Re.lang].
  - by intros ->.
  - intros (u & v & -> & (x & -> & Hx) & Hv). cbn.
    apply bool_decide_eq_true in Hx. by rewrite Hx, (IH _ Hv).
Qed.

Lemma lang_true_false g :
  Re.lang true_false g -> lower g = "true" \/ lower g = "false".
Proof. intros [H|H]; apply lang_lit_i in H; [by left | by right]. Qed.

Lemma lang_plus p g :
  Re.lang (Re.plus true p) g -> g <> "" /\ str_all p g = true.
Proof.
  intros (u & v & -> & (c & -> & Hc) & Hv). cbn in *. by rewrite Hc, Hv.
Qed.

(** [str.strip] gives a text that it leaves as it is. *)
Lemma rstrip_idem s : rstrip (rstrip s) = rstrip s.
Proof.
  induction s as [|c s IH]; [done|]. cbn.
  destruct (rstrip s) as [|c' t] eqn:Hr.
  - destruct (is_space c) eqn:Hc; [done|]. cbn. by rewrite Hc.
  - cbn [rstrip] in *. by rewrite IH.
Qed.

Lemma lstrip_head s :
  lstrip s = "" \/ exists c s', lstrip s = String c s' /\ is_space c = false.
Proof.
  induction s as [|c s IH]; [by left|]. cbn.
  destruct (is_space c) eqn:Hc; [done|]. right. by exists c, s.
Qed.

Lemma rstrip_head c s :
  is_space c = false -> exists t, rstrip (String c s) = String c t.
Proof. intros Hc. cbn. rewrite Hc. destruct (rstrip s); by eexists. Qed.

Lemma strip_idem s : strip (strip s) = strip s.
Proof.
  unfold strip.
  assert (lstrip (rstrip (lstrip s)) = rstrip (lstrip s)) as ->.
  { destruct (lstrip_head s) as [->|(c & s' & -> & Hc)]; [done|].
    destruct (rstrip_head c s' Hc) as [t ->]. cbn. by rewrite Hc. }
  apply rstrip_idem.
Qed.

Lemma extract_all_untouched steps message : forall md md' k,
  extract_all steps message md = Ok md' -> k ∉ steps.*1.*2 -> md' !! k = md !! k.
Proof.
  induction steps as [|[[r key] conv] steps IH]; intros md md' k; cbn.
  - by intros [= <-].
  - unfold extract_field.
    intros H [Hne Hk]%not_elem_of_cons.
    destruct (Re.search r message) as [[m rest]|]; cbn in H.
    + destruct (conv m) as [v|]; cbn in H; [|done].
      rewrite (IH _ _ _ H Hk). by rewrite lookup_insert_ne.
    + by apply IH.
Qed.

(** The value of a key is the conversion of a match of its pattern. *)
Lemma extract_all_value steps message : forall md md' r key conv v,
  NoDup (steps.*1.*2) ->
  extract_all steps message md = Ok md' ->
  (r, key, conv) ∈ steps ->
  md !! key = None ->
  md' !! key = Some v ->
  exists w m, Re.sem r w ∅ m /\ conv m = Ok v.
Proof.
  induction steps as [|[[r0 key0] conv0] steps IH];
    intros md md' r key conv v Hnd H Hin Hmd Hv; [by apply elem_of_nil in Hin|].
  cbn in Hnd. apply NoDup_cons in Hnd as [Hkey0 Hnd].
  cbn in H. unfold extract_field in H.
  apply elem_of_cons in Hin as [[= -> -> ->]|Hin].
  - destruct (Re.search r0 message) as [[m rest]|] eqn:Hs; cbn in H.
    + destruct (conv0 m) as [v0|] eqn:Hc; cbn in H; [|done].
      rewrite (extract_all_untouched _ _ _ _ _ H Hkey0), lookup_insert_eq in Hv.
      injection Hv as ->. apply search_sem in Hs as (w & Hw). by exists w, m.
    + rewrite (extract_all_untouched _ _ _ _ _ H Hkey0) in Hv. congruence.
  - assert (key <> key0) as Hne.
    { intros ->. apply Hkey0. apply list_elem_of_fmap. exists (r, key0).
      split; [done|]. apply list_elem_of_fmap. by exists (r, key0, conv). }
    destruct (Re.search r0 message) as [[m rest]|]; cbn in H.
    + destruct (conv0 m) as [v0|]; cbn in H; [|done].
      apply (IH _ _ _ _ _ _ Hnd H Hin); [|done]. by rewrite lookup_insert_ne.
    + by apply (IH _ _ _ _ _ _ Hnd H Hin).
Qed.

Lemma metadata_value message event_type md r key conv v :
  _extract_metadata message event_type = Ok md ->
  (r, key, conv) ∈ field_steps ->
  md !! key = Some v ->
  exists w m, Re.sem r w ∅ m /\ conv m = Ok v.
Proof.
  rewrite extract_metadata_unfold. intros H Hin Hv.
  apply (extract_all_value field_steps message ∅ md r key conv v); try done.
  rewrite field_steps_keys. apply metadata_fields_NoDup.
Qed.

Lemma group_bool_value m n g v :
  m !! n = Some g -> group_bool m n = Ok v -> exists b, v = VBool b.
Proof.
  unfold group_bool, group_text. intros ->. cbn. intros [= <-]. by eexists.
Qed.

(** The groups of a match are parts of the text that was matched. *)
Lemma sem_caps_all (p : ascii -> bool) r : forall w c c',
  Re.sem r w c c' -> str_all p w = true ->
  (forall n g, c !! n = Some g -> str_all p g = true) ->
  forall n g, c' !! n = Some g -> str_all p g = true.
Proof.
  induction r as [|q|r1 IH1 r2 IH2|r1 IH1 r2 IH2|b q|k r1 IH1];
    intros w c c'; cbn [Re.sem].
  - intros [_ ->] _ Hc. exact Hc.
  - intros [_ ->] _ Hc. exact Hc.
  - intros (u & v & c1 & -> & H1 & H2) Hw Hc.
    rewrite str_all_append in Hw. apply andb_true_iff in Hw as [Hu Hv].
    eapply IH2; [exact H2 | exact Hv |]. eapply IH1; [exact H1 | exact Hu | exact Hc].
  - intros [H|H] Hw Hc; [eapply IH1 | eapply IH2]; eassumption.
  - intros [_ ->] _ Hc. exact Hc.
  - intros (c1 & H1 & ->) Hw Hc n g.
    destruct (decide (n = k)) as [->|Hn].
    + rewrite lookup_insert_eq. by intros [= <-].
    + rewrite lookup_insert_ne by done. eapply IH1; eassumption.
Qed.

Lemma search_caps_all (p : ascii -> bool) r s m rest :
  Re.search r s = Some (m, rest) -> str_all p s = true ->
  forall n g, m !! n = Some g -> str_all p g = true.
Proof.
  assert (forall t, Re.match_ r t = Some (m, rest) -> str_all p t = true ->
            forall n g, m !! n = Some g -> str_all p g = true) as Hmatch.
  { intros t (w & -> & Hw)%match_sem Ht.
    rewrite str_all_append in Ht. apply andb_true_iff in Ht as [Ht _].
    eapply sem_caps_all; [exact Hw | exact Ht |]. intros n g Hg.
    by rewrite lookup_empty in Hg. }
  induction s as [|c s IH]; cbn [Re.search].
  - destruct (Re.match_ r "") as [[m' rest']|] eqn:Hm; [|done].
    intros [= -> ->]. by apply Hmatch.
  - destruct (Re.match_ r (String c s)) as [[m' rest']|] eqn:Hm.
    + intros [= -> ->]. by apply Hmatch.
    + intros Hs [_ Ht]%andb_true_iff. by apply IH.
Qed.

(** The texts among the metadata values are made of characters of the
    message. *)
Lemma extract_all_text (p : ascii -> bool) steps message :
  Forall (fun st : Re.regex * string * (gmap nat string -> res value) =>
            forall m s, st.2 m = Ok (VStr s) ->
              (forall n g, m !! n = Some g -> str_all p g = true) ->
              str_all p s = true) steps ->
  str_all p message = true ->
  forall md md',
    extract_all steps message md = Ok md' ->
    (forall k s, md !! k = Some (VStr s) -> str_all p s = true) ->
    forall k s, md' !! k = Some (VStr s) -> str_all p s = true.
Proof.
  intros Hsteps Hmsg. induction Hsteps as [|[[r key] conv] steps Hst Hsteps IH];
    intros md md' H Hmd; cbn [extract_all] in H.
  - injection H as <-. exact Hmd.
  - unfold extract_field in H.
    destruct (Re.search r message) as [[m rest]|] eqn:Hs; cbn in H.
    + destruct (conv m) as [v|] eqn:Hc; cbn in H; [|done].
      eapply IH; [exact H|]. intros k s.
      destruct (decide (k = key)) as [->|Hk].
      * rewrite lookup_insert_eq. intros [= ->].
        apply (Hst m s Hc). by eapply search_caps_all.
      * rewrite lookup_insert_ne by done. apply Hmd.
    + eapply IH; [exact H | exact Hmd].
Qed.

Lemma field_steps_text (p : ascii -> bool) :
  Forall (fun st : Re.regex * string * (gmap nat string -> res value) =>
            forall m s, st.2 m = Ok (VStr s) ->
              (forall n g, m !! n = Some g -> str_all p g = true) ->
              str_all p s = true) field_steps.
Proof.
  assert (forall n m s, group_bool m n = Ok (VStr s) -> False) as Hbool.
  { intros n m s. unfold group_bool, group_text. by destruct (m !! n). }
  assert (forall n m s, group_raw m n = Ok (VStr s) -> m !! n = Some s) as Hraw.
  { intros n m s. unfold group_raw. destruct (m !! n); cbn; by intros [= ->]. }
  assert (forall n m s, group_stripped m n = Ok (VStr s) ->
            exists g, m !! n = Some g /\ s = strip g) as Hstr.
  { intros n m s. unfold group_stripped, group_text.
    destruct (m !! n) as [g|]; cbn; [|done]. intros [= <-]. by exists g. }
  unfold field_steps. repeat apply Forall_cons_2; try apply Forall_nil_2;
    intros m s Hc Hm; cbn [snd] in Hc;
    first [ by destruct (Hbool _ _ _ Hc)
          | apply Hraw in Hc; by eapply Hm
          | apply Hstr in Hc as (g & Hg & ->); apply strip_all; by eapply Hm ].
Qed.

(** For a message of ASCII characters (on other characters
    [re.IGNORECASE] and [\s] accept more than the classes above) the
    metadata values are typed by their key, and their texts are made of
    ASCII characters too: the four flags are booleans;
    the mode is the text Desktop or Fullscreen in the case of the
    message; the game is a text without surrounding white space, comma
    or opening parenthesis; the active view is a non-empty text without
    white space or comma; the video state is the text true or false, or
    a text that starts with "changing from ". *)
Theorem metadata_values_typed (message : string) (event_type : EventType) :
  is_ascii message = true ->
  exists md,
    _extract_metadata message event_type = Ok md
    /\ (forall k v,
          k ∈ ["firstSelect"; "skipMusic"; "shouldPlayMusic"; "shouldPlayAudio"] ->
          md !! k = Some v -> exists b, v = VBool b)
    /\ (forall v, md !! "mode" = Some v ->
          exists s, v = VStr s /\ (lower s = "desktop" \/ lower s = "fullscreen"))
    /\ (forall v, md !! "game" = Some v ->
          exists s, v = VStr s /\ strip s = s /\ str_all not_comma_paren s = true)
    /\ (forall v, md !! "activeView" = Some v ->
          exists s, v = VStr s /\ s <> "" /\ str_all not_space_comma s = true)
    /\ (forall v, md !! "videoIsPlaying" = Some v ->
          exists s, v = VStr s
            /\ (lower s = "true" \/ lower s = "false"
                \/ exists rest, lower s = "changing from " +:+ rest))
    /\ (forall k s, md !! k = Some (VStr s) -> is_ascii s = true).
Proof.
  intros Hascii.
  destruct (extract_metadata_ok message event_type) as (md & Hmd).
  exists md. split; [done|].
  assert (forall k s, md !! k = Some (VStr s) -> is_ascii s = true) as Htext.
  { pose proof Hmd as Hall. rewrite extract_metadata_unfold in Hall.
    apply (extract_all_text _ field_steps message (field_steps_text _) Hascii ∅ md Hall).
    intros k s Hk. by rewrite lookup_empty in Hk. }
  split_and!; [| | | | | exact Htext].
  - intros k v Hk Hv. unfold field_steps in *.
    repeat (apply elem_of_cons in Hk as [->|Hk]); [| | | | by apply elem_of_nil in Hk].
    + destruct (metadata_value _ _ _ first_select_re "firstSelect" (fun m => group_bool m 1) v Hmd)
        as (w & m & Hw & Hc); [set_solver | done |].
      apply sem_field_group in Hw as (g & Hg & _). by eapply group_bool_value.
    + destruct (metadata_value _ _ _ skip_re "skipMusic" (fun m => group_bool m 1) v Hmd)
        as (w & m & Hw & Hc); [set_solver | done |].
      apply sem_field_group in Hw as (g & Hg & _). by eapply group_bool_value.
    + destruct (metadata_value _ _ _ should_play_re "shouldPlayMusic" (fun m => group_bool m 2) v Hmd)
        as (w & m & Hw & Hc); [set_solver | done |].
      apply sem_result_group in Hw as (g & Hg & _). by eapply group_bool_value.
    + destruct (metadata_value _ _ _ should_audio_re "shouldPlayAudio" (fun m => group_bool m 2) v Hmd)
        as (w & m & Hw & Hc); [set_solver | done |].
      apply sem_result_group in Hw as (g & Hg & _). by eapply group_bool_value.
  - intros v Hv.
    destruct (metadata_value _ _ _ mode_re "mode" (fun m => group_raw m 1) v Hmd)
      as (w & m & Hw & Hc); [unfold field_steps; set_solver | done |].
    apply sem_field_group in Hw as (g & Hg & Hl).
    unfold group_raw in Hc. rewrite Hg in Hc. injection Hc as <-.
    exists g. split; [done|].
    destruct Hl as [H|H]; apply lang_lit_i in H; [by left | by right].
  - intros v Hv.
    destruct (metadata_value _ _ _ game_re "game" (fun m => group_stripped m 1) v Hmd)
      as (w & m & Hw & Hc); [unfold field_steps; set_solver | done |].
    apply sem_field_group in Hw as (g & Hg & [_ Hl]%lang_plus).
    unfold group_stripped, group_text in Hc. rewrite Hg in Hc. injection Hc as <-.
    exists (strip g). split_and!; [done | apply strip_idem | by apply strip_all].
  - intros v Hv.
    destruct (metadata_value _ _ _ view_re "activeView" (fun m => group_raw m 1) v Hmd)
      as (w & m & Hw & Hc); [unfold field_steps; set_solver | done |].
    apply sem_field_group in Hw as (g & Hg & [Hne Hl]%lang_plus).
    unfold group_raw in Hc. rewrite Hg in Hc. injection Hc as <-. by exists g.
  - intros v Hv.
    destruct (metadata_value _ _ _ video_re "videoIsPlaying" (fun m => group_raw m 1) v Hmd)
      as (w & m & Hw & Hc); [unfold field_steps; set_solver | done |].
    apply sem_field_group in Hw as (g & Hg & Hl).
    unfold group_raw in Hc. rewrite Hg in Hc. injection Hc as <-.
    exists g. split; [done|]. cbn [Re.alts Re.lang Re.seqs] in Hl.
    destruct Hl as [H|[H|(u & rest & -> & H & _)]]; apply lang_lit_i in H.
    + by left.
    + right. by left.
    + right. right. exists (lower rest). by rewrite lower_append, H.
Qed.

Lemma metadata_values_typed_witness :
  is_ascii full_message = true
  /\ exists md,
       _extract_metadata full_message OTHER = Ok md
       /\ (forall v, md !! "mode" = Some v ->
             exists s, v = VStr s /\ (lower s = "desktop" \/ lower s = "fullscreen")).
Proof.
  assert (is_ascii full_message = true) as H by (vm_compute; reflexivity).
  split; [exact H|].
  destruct (metadata_values_typed full_message OTHER H) as (md & Hmd & _ & Hmode & _).
  exists md. split; [exact Hmd | exact Hmode].
Defined.

(* ================================================================== *)
(** * Counts and exceptions of the comparison report                   *)
(* ================================================================== *)

Lemma sub_us_keys (a b : LogEvent) :
  sub_us (timestamp a) (timestamp b) = timestamp_key a - timestamp_key b.
Proof. unfold sub_us, timestamp_key. reflexivity. Qed.

Lemma counts_shown_app l1 l2 :
  counts_shown (l1 ++ l2) = counts_shown l1 ++ counts_shown l2.
Proof. apply omap_app. Qed.

Lemma first_selection_block_counts ups ps :
  counts_shown (first_selection_block ups ps) = [].
Proof.
  destruct ups as [|u ups], ps as [|p ps]; try done.
  unfold first_selection_block.
  assert (forall e, counts_shown (metadata_line e) = []) as Hm.
  { intros e. unfold metadata_line. by case_bool_decide. }
  pose proof (Hm u) as Hu. pose proof (Hm p) as Hp. revert Hu Hp.
  generalize (metadata_line u) (metadata_line p)
             (sub_us (timestamp u) (timestamp p)).
  intros mu mp d Hu Hp.
  rewrite !counts_shown_app, Hu, Hp.
  by destruct (significant d).
Qed.

Lemma first_video_block_counts ups ps : counts_shown (first_video_block ups ps) = [].
Proof. by destruct ups, ps. Qed.

Lemma first_select_block_cases self label l :
  match l, events self with
  | [], _ => first_select_block self label l = Ok []
  | _ :: _, [] => first_select_block self label l = Raise IndexError
  | _ :: _, first :: _ =>
      exists rows, first_select_block self label l = Ok rows
                   /\ counts_shown rows = []
                   /\ (length (offsets_shown rows) <= 5)%nat
  end.
Proof.
  unfold first_select_block, offset_rows.
  destruct l as [|e l]; [done|].
  change (take 5 (e :: l)) with (e :: take 4 l).
  destruct (events self) as [|first rest]; [done|].
  cbn [mbind res_bind mret res_ret].
  set (f := fun event : LogEvent =>
              OffsetRow (sub_us (timestamp event) (timestamp first)) (message event)).
  exists (Text label :: map f (e :: take 4 l)). split; [reflexivity|].
  assert (forall k : list LogEvent,
            counts_shown (map f k) = []
            /\ length (offsets_shown (map f k)) = length k) as Hk.
  { induction k as [|x k [IH1 IH2]]; [done|]. split; [exact IH1|].
    change (S (length (offsets_shown (map f k))) = S (length k)).
    by rewrite IH2. }
  destruct (Hk (e :: take 4 l)) as [H1 H2]. split; [exact H1|].
  change (length (offsets_shown (map f (e :: take 4 l))) <= 5)%nat.
  rewrite H2. cbn [length].
  rewrite length_take. lia.
Qed.

Lemma first_select_block_ok self label l :
  (events self = [] -> l = []) ->
  exists rows, first_select_block self label l = Ok rows
               /\ counts_shown rows = []
               /\ (length (offsets_shown rows) <= 5)%nat.
Proof.
  intros Hnil. pose proof (first_select_block_cases self label l) as H.
  destruct l as [|e l].
  - exists []. split; [exact H|]. split; [reflexivity|]. cbn. lia.
  - destruct (events self) as [|first rest]; [by specialize (Hnil eq_refl)|].
    exact H.
Qed.

Lemma of_type_partition x t (l : list LogEvent) :
  of_type t (filter (fun e => extension e = x) l) = events_of x t l.
Proof.
  unfold of_type, events_of. rewrite list_filter_filter.
  apply list_filter_iff. intros e. tauto.
Qed.

Lemma first_select_block_rows self label l :
  (events self = [] -> l = []) ->
  exists rows,
    first_select_block self label l = Ok rows
    /\ counts_shown rows = []
    /\ offsets_shown rows
       = map (fun e => (timestamp_key e
                        - default 0 (timestamp_key <$> head (events self)),
                        message e))
             (take 5 l).
Proof.
  intros Hnil. destruct (first_select_block_ok self label l Hnil) as (rows & Hr & Hc & _).
  exists rows. split; [exact Hr|]. split; [exact Hc|].
  destruct (events self) as [|first rest] eqn:Hev.
  - rewrite (Hnil eq_refl) in *. cbn in Hr. by injection Hr as <-.
  - destruct (first_select_block_spec self label l first rest Hev)
      as (rows' & Hr' & _ & _ & Ho).
    rewrite Hr in Hr'. injection Hr' as <-. rewrite Ho.
    apply Forall_fmap_ext_1, Forall_forall. intros e _.
    by rewrite sub_us_keys.
Qed.

(** On a store built from log files the comparison report is produced
    without an exception.  Its six counts are the numbers of stored
    events of each extension with the category OnGameSelected,
    VideoIsPlaying and _firstSelect, in this order.  Its offset rows are
    those of the first five _firstSelect events of UniPlaySong, in the
    order they were stored, followed by those of the first five of
    PlayniteSound: at most five rows for each extension, each with the
    offset from the first stored event and the whole message. *)
Theorem comparison_report_counts (files : list (list string)) :
  let self := store_of files in
  let row := fun e => (timestamp_key e
                       - default 0 (timestamp_key <$> head (events self)),
                       message e) in
  exists report,
    create_comparison_report self = Ok report
    /\ counts_shown report
       = [("  UniPlaySong: ", length (events_of UNIPLAYSONG ON_GAME_SELECTED (events self)));
          ("  PlayniteSound: ", length (events_of PLAYNITESOUND ON_GAME_SELECTED (events self)));
          ("  UniPlaySong: ", length (events_of UNIPLAYSONG VIDEO_IS_PLAYING_CHANGED (events self)));
          ("  PlayniteSound: ", length (events_of PLAYNITESOUND VIDEO_IS_PLAYING_CHANGED (events self)));
          ("  UniPlaySong: ", length (events_of UNIPLAYSONG FIRST_SELECT_STATE (events self)));
          ("  PlayniteSound: ", length (events_of PLAYNITESOUND FIRST_SELECT_STATE (events self)))]
    /\ exists ups_rows ps_rows,
         offsets_shown report = ups_rows ++ ps_rows
         /\ ups_rows
            = map row (take 5 (events_of UNIPLAYSONG FIRST_SELECT_STATE (events self)))
         /\ ps_rows
            = map row (take 5 (events_of PLAYNITESOUND FIRST_SELECT_STATE (events self)))
         /\ length ups_rows
            = (5 `min` length (events_of UNIPLAYSONG FIRST_SELECT_STATE (events self)))%nat
         /\ length ps_rows
            = (5 `min` length (events_of PLAYNITESOUND FIRST_SELECT_STATE (events self)))%nat
         /\ (length ups_rows <= 5)%nat /\ (length ps_rows <= 5)%nat.
Proof.
  intros self row. destruct (store_of_invariant files) as (Hu & Hp & _).
  fold self in Hu, Hp.
  unfold create_comparison_report. cbn zeta.
  rewrite Hu, Hp, !of_type_partition.
  assert (forall x t, events self = [] -> events_of x t (events self) = []) as Hnil.
  { intros x t ->. done. }
  destruct (first_selection_block_timing
              (events_of UNIPLAYSONG ON_GAME_SELECTED (events self))
              (events_of PLAYNITESOUND ON_GAME_SELECTED (events self))) as [_ Hsel].
  destruct (first_video_block_plain
              (events_of UNIPLAYSONG VIDEO_IS_PLAYING_CHANGED (events self))
              (events_of PLAYNITESOUND VIDEO_IS_PLAYING_CHANGED (events self)))
    as (_ & _ & Hvid).
  destruct (first_select_block_rows self "UniPlaySong _firstSelect changes:"
              (events_of UNIPLAYSONG FIRST_SELECT_STATE (events self)))
    as (r1 & -> & Hc1 & Ho1); [apply Hnil|].
  destruct (first_select_block_rows self "PlayniteSound _firstSelect changes:"
              (events_of PLAYNITESOUND FIRST_SELECT_STATE (events self)))
    as (r2 & -> & Hc2 & Ho2); [apply Hnil|].
  cbn [mbind res_bind mret res_ret]. eexists. split; [reflexivity|].
  rewrite !counts_shown_app, !offsets_shown_app.
  rewrite first_selection_block_counts, first_video_block_counts, Hc1, Hc2, Hsel, Hvid.
  split; [by rewrite ?app_nil_r|].
  exists (offsets_shown r1), (offsets_shown r2).
  split; [reflexivity|]. rewrite Ho1, Ho2. fold row.
  rewrite !length_map, !length_take.
  split_and!; [reflexivity | reflexivity | reflexivity | reflexivity | lia | lia].
Qed.

Lemma comparison_report_cases (self : LogAnalyzer) :
  (events self = []
   /\ (of_type FIRST_SELECT_STATE (uniplaysong_events self) <> []
       \/ of_type FIRST_SELECT_STATE (playnitesound_events self) <> [])
   /\ create_comparison_report self = Raise IndexError)
  \/ (~ (events self = []
         /\ (of_type FIRST_SELECT_STATE (uniplaysong_events self) <> []
             \/ of_type FIRST_SELECT_STATE (playnitesound_events self) <> []))
      /\ exists r, create_comparison_report self = Ok r).
Proof.
  unfold create_comparison_report. cbn zeta.
  pose proof (first_select_block_cases self "UniPlaySong _firstSelect changes:"
                (of_type FIRST_SELECT_STATE (uniplaysong_events self))) as H1.
  pose proof (first_select_block_cases self "PlayniteSound _firstSelect changes:"
                (of_type FIRST_SELECT_STATE (playnitesound_events self))) as H2.
  revert H1 H2.
  generalize (of_type FIRST_SELECT_STATE (uniplaysong_events self)).
  generalize (of_type FIRST_SELECT_STATE (playnitesound_events self)).
  intros b a.
  destruct (events self) as [|first rest].
  - destruct a as [|x a].
    + destruct b as [|y b]; lazy beta iota; intros -> H2; cbn [mbind res_bind].
      * right. rewrite H2. split; [|by eexists]. intros [_ [H|H]]; by apply H.
      * left. rewrite H2. split_and!; [done | by right | done].
    + lazy beta iota. intros -> _. left. split_and!; [done | by left | done].
  - intros H1 H2. right. split; [by intros [? _]|]. revert H1 H2.
    destruct a as [|x a]; destruct b as [|y b]; lazy beta iota.
    + intros -> ->. cbn [mbind res_bind]. by eexists.
    + intros -> (r2 & -> & _). cbn [mbind res_bind]. by eexists.
    + intros (r1 & -> & _) ->. cbn [mbind res_bind]. by eexists.
    + intros (r1 & -> & _) (r2 & -> & _). cbn [mbind res_bind]. by eexists.
Qed.

Section output_facts.
Context {world : Type}.
Variable os_makedirs : string -> @io world unit.
Variable os_path_join : string -> string -> string.
Variable write_text : string -> report_text -> @io world unit.
Variable print : string -> @io world unit.

(** An exception of the loop that writes the reports is the exception
    of one of its operations. *)
Lemma write_reports_raises output_dir l : forall w e w',
  write_reports os_path_join write_text print output_dir l w = (Raise e, w') ->
  exists w1,
    (exists path content, write_text path content w1 = (Raise e, w'))
    \/ (exists text, print text w1 = (Raise e, w')).
Proof.
  induction l as [|[name content] l IH]; intros w e w' H.
  - discriminate H.
  - cbn [write_reports] in H. unfold io_bind at 1 in H.
    destruct (write_text _ content w) as [[[]|e1] w1] eqn:Hw.
    + unfold io_bind at 1 in H.
      destruct (print _ w1) as [[[]|e2] w2] eqn:Hp.
      * by apply IH in H.
      * injection H as -> ->. exists w1. right. by eexists.
    + injection H as -> ->. exists w. left. by eexists _, _.
Qed.

(** [generate_all_reports] builds the four reports before it touches
    the file system.  [create_comparison_report] raises exactly when the
    full list of events is empty while one of the extension lists holds
    a [_firstSelect] event, and then it raises [IndexError];
    [generate_all_reports] then raises the same exception and leaves the
    world as it was.  Without an output directory ([None] or the empty
    text) it returns the reports and leaves the world as it was.  Any
    other exception it raises is the exception of [os.makedirs], of the
    writing of a file or of [print]; the reports it returns are those of
    the four [create_*_report] methods; on a store built from log files
    the comparison report never raises. *)
Theorem reports_raise_only_on_inconsistent_store (self : LogAnalyzer) :
  let generate := generate_all_reports os_makedirs os_path_join write_text print in
  ((exists e, create_comparison_report self = Raise e)
   <-> events self = []
       /\ (of_type FIRST_SELECT_STATE (uniplaysong_events self) <> []
           \/ of_type FIRST_SELECT_STATE (playnitesound_events self) <> []))
  /\ (forall e, create_comparison_report self = Raise e -> e = IndexError)
  /\ (forall e output_dir w,
        create_comparison_report self = Raise e ->
        generate self output_dir w = (Raise e, w))
  /\ (forall comparison output_dir w,
        create_comparison_report self = Ok comparison ->
        output_dir = None \/ output_dir = Some "" ->
        generate self output_dir w
        = (Ok (mk_reports (create_timeline_report self)
                          (create_critical_events_report self)
                          comparison (create_summary_report self)), w))
  /\ (forall output_dir w e w',
        generate self output_dir w = (Raise e, w') ->
        (create_comparison_report self = Raise e /\ w' = w)
        \/ exists dir w1,
             output_dir = Some dir /\ dir <> ""
             /\ (os_makedirs dir w1 = (Raise e, w')
                 \/ (exists path content, write_text path content w1 = (Raise e, w'))
                 \/ (exists text, print text w1 = (Raise e, w'))))
  /\ (forall output_dir w r w',
        generate self output_dir w = (Ok r, w') ->
        timeline r = create_timeline_report self
        /\ critical r = create_critical_events_report self
        /\ create_comparison_report self = Ok (comparison r)
        /\ summary r = create_summary_report self)
  /\ (forall files, exists comparison,
        create_comparison_report (store_of files) = Ok comparison).
Proof.
  intros generate.
  pose proof (comparison_report_cases self) as Hc.
  split_and!.
  - destruct Hc as [(Hev & Hfs & Hc)|(Hn & r & Hc)]; rewrite Hc.
    + split; [done | by exists IndexError].
    + split; [intros [e He]; discriminate He | done].
  - intros e. destruct Hc as [(Hev & Hfs & Hc)|(Hn & r & Hc)]; rewrite Hc;
      intros He; [by injection He | discriminate He].
  - intros e output_dir w He.
    unfold generate, generate_all_reports, io_bind, io_lift. cbn zeta.
    by rewrite He.
  - intros comparison output_dir w Hr Hdir.
    unfold generate, generate_all_reports, io_bind, io_lift. cbn zeta.
    rewrite Hr. by destruct Hdir as [-> | ->].
  - intros output_dir w e w' H.
    unfold generate, generate_all_reports in H. cbn zeta in H.
    unfold io_bind at 1 in H. unfold io_lift in H.
    destruct (create_comparison_report self) as [comparison|e0].
    + right. destruct output_dir as [dir|]; [|discriminate H].
      destruct dir as [|c dir]; [discriminate H|].
      exists (String c dir). unfold io_bind at 1 in H.
      destruct (os_makedirs (String c dir) w) as [[[]|e1] w1] eqn:Hm.
      * unfold io_bind at 1 in H.
        destruct (write_reports _ _ _ _ _ w1) as [[[]|e2] w2] eqn:Hw;
          [discriminate H|].
        injection H as -> ->.
        apply write_reports_raises in Hw as (w3 & Hw). exists w3.
        split_and!; [done | done |]. by right.
      * injection H as -> ->. exists w. split_and!; [done | done |]. by left.
    + left. by injection H as -> ->.
  - intros output_dir w r w' H.
    unfold generate, generate_all_reports in H. cbn zeta in H.
    unfold io_bind at 1 in H. unfold io_lift in H.
    destruct (create_comparison_report self) as [comparison|e0]; [|discriminate H].
    assert (r = mk_reports (create_timeline_report self)
                           (create_critical_events_report self)
                           comparison (create_summary_report self)) as ->;
      [|by split_and!].
    destruct output_dir as [dir|]; [|by injection H as <- _].
    destruct dir as [|c dir]; [by injection H as <- _|].
    unfold io_bind at 1 in H.
    destruct (os_makedirs (String c dir) w) as [[[]|e1] w1]; [|discriminate H].
    unfold io_bind at 1 in H.
    destruct (write_reports _ _ _ _ _ w1) as [[[]|e2] w2]; [|discriminate H].
    by injection H as <- _.
  - intros files.
    destruct (comparison_report_spec (store_of files) (store_of_invariant files))
      as (report & Hr & _).
    by exists report.
Qed.

End output_facts.

(* ================================================================== *)
(** * The order of a sorted list                                       *)
(* ================================================================== *)

Section sorted_order.
Context {A : Type} (key : A -> Z).

Lemma insert_sorted_ordered x l :
  StronglySorted (fun a b : A => key a <= key b) l -> StronglySorted (fun a b : A => key a <= key b) (insert_sorted key x l).
Proof.
  induction 1 as [|y l Hl IH Hy]; cbn.
  - by repeat constructor.
  - destruct (key x <=? key y) eqn:Hxy.
    + apply Z.leb_le in Hxy. constructor; [by constructor|].
      constructor; [done|]. eapply Forall_impl; [exact Hy|]. cbn. intros; lia.
    + apply Z.leb_gt in Hxy. constructor; [exact IH|].
      rewrite insert_sorted_perm. constructor; [lia | exact Hy].
Qed.

Lemma sorted_ordered l : StronglySorted (fun a b : A => key a <= key b) (sorted key l).
Proof.
  induction l as [|x l IH]; cbn; [constructor | by apply insert_sorted_ordered].
Qed.

Lemma sorted_of_ordered l : StronglySorted (fun a b : A => key a <= key b) l -> sorted key l = l.
Proof.
  induction 1 as [|x l Hl IH Hx]; cbn; [done|]. rewrite IH.
  destruct l as [|y l]; [done|]. cbn.
  apply Forall_cons in Hx as [Hxy _]. apply Z.leb_le in Hxy. by rewrite Hxy.
Qed.

Lemma filter_ordered (P : A -> Prop) `{!forall x, Decision (P x)} l :
  StronglySorted (fun a b : A => key a <= key b) l -> StronglySorted (fun a b : A => key a <= key b) (filter P l).
Proof.
  induction 1 as [|x l Hl IH Hx]; [constructor|].
  rewrite filter_cons. case_decide; [|exact IH].
  constructor; [exact IH|]. rewrite Forall_forall in Hx |- *.
  intros y [_ Hy]%list_elem_of_filter. by apply Hx.
Qed.

Lemma insert_sorted_filter_key x l k :
  filter (fun e => key e = k) (insert_sorted key x l)
  = filter (fun e => key e = k) (x :: l).
Proof.
  induction l as [|y l IH]; [done|]. cbn [insert_sorted].
  destruct (key x <=? key y) eqn:Hxy; [done|]. apply Z.leb_gt in Hxy.
  rewrite (filter_cons _ y), IH, !filter_cons.
  repeat case_decide; try done; lia.
Qed.

(** The sort is stable: events with the same key keep their order. *)
Lemma sorted_stable l k :
  filter (fun e => key e = k) (sorted key l) = filter (fun e => key e = k) l.
Proof.
  induction l as [|x l IH]; [done|]. cbn [sorted].
  by rewrite insert_sorted_filter_key, !filter_cons, IH.
Qed.

End sorted_order.

Lemma ordered_weaken {A} (R1 R2 : A -> A -> Prop) l :
  (forall a b, R1 a b -> R2 a b) -> StronglySorted R1 l -> StronglySorted R2 l.
Proof.
  intros HR. induction 1 as [|x l Hl IH Hx]; constructor; [exact IH|].
  eapply Forall_impl; [exact Hx|]. apply HR.
Qed.

Lemma ordered_strict (l : list Z) :
  StronglySorted Z.le l -> NoDup l -> StronglySorted Z.lt l.
Proof.
  induction 1 as [|x l Hl IH Hx]; intros Hnd; [constructor|].
  apply NoDup_cons in Hnd as [Hx' Hnd]. constructor; [by apply IH|].
  rewrite Forall_forall in Hx |- *. intros y Hy.
  assert (x <> y) by (intros ->; done). specialize (Hx y Hy). lia.
Qed.

Lemma ordered_map {A B} (f : A -> B) (R : B -> B -> Prop) l :
  StronglySorted (fun a b => R (f a) (f b)) l -> StronglySorted R (map f l).
Proof.
  induction 1 as [|x l Hl IH Hx]; cbn; constructor; [exact IH|].
  clear Hl IH. induction Hx as [|y l Hy Hl IH]; cbn; constructor; assumption.
Qed.

(* ================================================================== *)
(** * The windows of the timeline report                               *)
(* ================================================================== *)

Lemma filter_none {A} (P : A -> Prop) `{!forall x, Decision (P x)} (l : list A) :
  Forall (fun x => ~ P x) l -> filter P l = [].
Proof.
  induction 1 as [|x l Hx Hl IH]; [done|].
  rewrite filter_cons. by case_decide.
Qed.

Lemma filter_all {A} (P : A -> Prop) `{!forall x, Decision (P x)} (l : list A) :
  Forall P l -> filter P l = l.
Proof.
  induction 1 as [|x l Hx Hl IH]; [done|].
  rewrite filter_cons. case_decide; [by rewrite IH | done].
Qed.

Section windows.
Context {A : Type} (win : A -> Z).

Lemma least_window_first w (l : list A) :
  StronglySorted (fun a b => win a <= win b) l ->
  Forall (fun e => w <= win e) l ->
  l = filter (fun e => win e = w) l ++ filter (fun e => win e <> w) l.
Proof.
  induction 1 as [|x l Hl IH Hx]; intros Hw; [done|].
  apply Forall_cons in Hw as [Hwx Hw]. rewrite !filter_cons.
  case_decide as Hxw; case_decide as Hxw'; try done.
  - cbn. f_equal. by apply IH.
  - assert (filter (fun e => win e = w) l = []) as ->.
    { apply filter_none. eapply Forall_impl; [exact Hx|]. cbn. intros; lia. }
    cbn. f_equal. symmetry. apply filter_all.
    eapply Forall_impl; [exact Hx|]. cbn. intros; lia.
Qed.

Lemma concat_windows (ws : list Z) (l : list A) :
  StronglySorted Z.lt ws ->
  StronglySorted (fun a b => win a <= win b) l ->
  Forall (fun e => win e ∈ ws) l ->
  concat (map (fun w => filter (fun e => win e = w) l) ws) = l.
Proof.
  intros Hws. revert l. induction Hws as [|w ws Hws IH Hw]; intros l Hl Hin.
  - destruct l as [|x l]; [done|]. apply Forall_cons in Hin as [Hx _].
    by apply elem_of_nil in Hx.
  - cbn [map concat]. rewrite Forall_forall in Hw.
    assert (Forall (fun e => w <= win e) l) as Hleast.
    { rewrite Forall_forall in Hin |- *. intros e He.
      specialize (Hin e He). cbn in Hin. apply elem_of_cons in Hin as [->|Hin]; [lia|].
      specialize (Hw _ Hin). lia. }
    etrans; [|symmetry; exact (least_window_first w l Hl Hleast)]. f_equal.
    rewrite <- (IH (filter (fun e => win e <> w) l)).
    + clear - Hw. induction ws as [|w' ws IHws]; [done|]. cbn [map concat].
      f_equal.
      * rewrite list_filter_filter. apply list_filter_iff. intros e. split; [|tauto].
        intros He. split; [done|]. rewrite He. intros ->.
        specialize (Hw w (list_elem_of_here _ _)). lia.
      * apply IHws. intros y Hy. apply Hw. by apply list_elem_of_further.
    + by apply (filter_ordered win).
    + rewrite Forall_forall in Hin |- *. intros e [He1 He2]%list_elem_of_filter.
      specialize (Hin e He2). cbn in Hin.
      apply elem_of_cons in Hin as [Heq|Hin]; [by destruct He1 | exact Hin].
Qed.

End windows.

Lemma add_to_window_is_Some baseline tw e w :
  is_Some (add_to_window baseline tw e !! w)
  <-> is_Some (tw !! w) \/ window_of baseline e = w.
Proof.
  unfold add_to_window. cbn zeta.
  destruct (decide (window_of baseline e = w)) as [->|Hw].
  - rewrite lookup_insert_eq. split; [by right | by eexists].
  - rewrite lookup_insert_ne by done. tauto.
Qed.

Lemma group_windows_is_Some baseline l w :
  is_Some (group_windows baseline l !! w)
  <-> exists e, e ∈ l /\ window_of baseline e = w.
Proof.
  unfold group_windows.
  assert (forall tw, is_Some (foldl (add_to_window baseline) tw l !! w)
            <-> is_Some (tw !! w) \/ exists e, e ∈ l /\ window_of baseline e = w)
    as H.
  { induction l as [|x l IH]; intros tw; cbn [foldl].
    - split; [by left|]. intros [H|(e & He & _)]; [done | by apply elem_of_nil in He].
    - rewrite IH, add_to_window_is_Some. split.
      + intros [[H|H]|(e & He & Hw)]; [by left | right | right].
        * exists x. split; [apply list_elem_of_here | done].
        * exists e. split; [by apply list_elem_of_further | done].
      + intros [H|(e & He & Hw)]; [by left; left|].
        apply elem_of_cons in He as [->|He]; [by left; right|].
        right. by exists e. }
  rewrite H, lookup_empty. split; [|by right].
  intros [[? Hx]|Hx]; [discriminate Hx | exact Hx].
Qed.

Lemma sorted_keys_spec (tw : gmap Z (list LogEvent)) :
  StronglySorted Z.lt (sorted id (map fst (map_to_list tw)))
  /\ forall w, w ∈ sorted id (map fst (map_to_list tw)) <-> is_Some (tw !! w).
Proof.
  split.
  - apply ordered_strict.
    + apply (sorted_ordered id).
    + rewrite (sorted_perm id). apply (NoDup_fst_map_to_list tw).
  - intros w. rewrite (elem_of_sorted id). split.
    + intros ([w' l] & -> & Hin)%list_elem_of_fmap.
      apply elem_of_map_to_list in Hin. by exists l.
    + intros [l Hl]. apply list_elem_of_fmap. exists (w, l).
      split; [done|]. by apply elem_of_map_to_list.
Qed.

Lemma timeline_rows_app l1 l2 :
  timeline_rows (l1 ++ l2) = timeline_rows l1 ++ timeline_rows l2.
Proof. apply omap_app. Qed.

Lemma window_headers_app l1 l2 :
  window_headers (l1 ++ l2) = window_headers l1 ++ window_headers l2.
Proof. apply omap_app. Qed.

Lemma timeline_rows_map baseline l :
  timeline_rows (map (timeline_row baseline) l)
  = map (fun e => (sub_us (timestamp e) baseline, extension e, event_type e,
                   str_take 60 (message e))) l
  /\ window_headers (map (timeline_row baseline) l) = []
  /\ counts_shown (map (timeline_row baseline) l) = [].
Proof.
  induction l as [|e l (IH1 & IH2 & IH3)]; [done|]. split_and!.
  - change (timeline_rows (map (timeline_row baseline) (e :: l)))
      with ((sub_us (timestamp e) baseline, extension e, event_type e,
             str_take 60 (message e))
            :: timeline_rows (map (timeline_row baseline) l)).
    by rewrite IH1.
  - exact IH2.
  - exact IH3.
Qed.

Lemma window_blocks_rows baseline tw ws :
  timeline_rows (concat (map (window_block baseline tw) ws))
  = map (fun e => (sub_us (timestamp e) baseline, extension e, event_type e,
                   str_take 60 (message e)))
        (concat (map (fun w => sorted timestamp_key (default [] (tw !! w))) ws))
  /\ window_headers (concat (map (window_block baseline tw) ws)) = ws
  /\ counts_shown (concat (map (window_block baseline tw) ws)) = [].
Proof.
  induction ws as [|w ws (IH1 & IH2 & IH3)]; [done|].
  cbn [map concat]. unfold window_block at 1 3 5.
  destruct (timeline_rows_map baseline
              (sorted timestamp_key (default [] (tw !! w)))) as (H1 & H2 & H3).
  split_and!.
  - change (timeline_rows ((WindowHeader w :: ?l) ++ ?k))
      with (timeline_rows (l ++ k)).
    by rewrite timeline_rows_app, H1, IH1, map_app.
  - change (window_headers ((WindowHeader w :: ?l) ++ ?k))
      with (w :: window_headers (l ++ k)).
    by rewrite window_headers_app, H2, IH2.
  - change (counts_shown ((WindowHeader w :: ?l) ++ ?k))
      with (counts_shown (l ++ k)).
    by rewrite counts_shown_app, H3, IH3.
Qed.

Lemma window_of_mono baseline (a b : LogEvent) :
  timestamp_key a <= timestamp_key b -> window_of baseline a <= window_of baseline b.
Proof.
  unfold window_of, int_div, sub_us, timestamp_key.
  generalize (to_microseconds (timestamp a)) (to_microseconds (timestamp b))
             (to_microseconds baseline).
  intros ka kb k0 Hab. apply Z.quot_le_mono; lia.
Qed.

(** The windows of a sorted list of events, taken in increasing order and
    each sorted again, give the list back. *)
Lemma windows_concat baseline (l : list LogEvent) :
  StronglySorted (fun a b => timestamp_key a <= timestamp_key b) l ->
  concat (map (fun w => sorted timestamp_key
                          (default [] (group_windows baseline l !! w)))
              (sorted id (map fst (map_to_list (group_windows baseline l)))))
  = l.
Proof.
  intros Hl.
  destruct (sorted_keys_spec (group_windows baseline l)) as [Hws Hin].
  etrans; [|apply (concat_windows (window_of baseline)
                (sorted id (map fst (map_to_list (group_windows baseline l)))) l)].
  - f_equal. apply Forall_fmap_ext_1, Forall_forall. intros w _.
    rewrite group_windows_lookup. apply sorted_of_ordered.
    by apply (filter_ordered timestamp_key).
  - exact Hws.
  - eapply ordered_weaken; [|exact Hl]. apply window_of_mono.
  - apply Forall_forall. intros e He. apply Hin, group_windows_is_Some. by exists e.
Qed.

Lemma str_take_str_all (p : ascii -> bool) n : forall s,
  str_all p s = true -> str_all p (str_take n s) = true.
Proof.
  induction n as [|n IH]; intros [|c s]; cbn; try done.
  intros [-> Hs]%andb_true_iff. by apply IH.
Qed.

Lemma str_take_length n : forall s, (String.length (str_take n s) <= n)%nat.
Proof.
  induction n as [|n IH]; intros [|c s]; cbn; try lia.
  specialize (IH s). lia.
Qed.

Lemma timeline_report_parts (self : LogAnalyzer) first rest :
  sorted timestamp_key (events self) = first :: rest ->
  let tw := group_windows (timestamp first) (first :: rest) in
  let body := concat (map (window_block (timestamp first) tw)
                          (sorted id (map fst (map_to_list tw)))) in
  timeline_rows (create_timeline_report self) = timeline_rows body
  /\ window_headers (create_timeline_report self) = window_headers body
  /\ counts_shown (create_timeline_report self)
     = [("Total events: ", length (first :: rest));
        ("UniPlaySong events: ", length (uniplaysong_events self));
        ("PlayniteSound events: ", length (playnitesound_events self))]
       ++ counts_shown body.
Proof.
  intros Hs tw body. unfold create_timeline_report. rewrite Hs.
  fold tw. fold body. by split_and!.
Qed.

Lemma sorted_nil_inv {A} (key : A -> Z) l : sorted key l = [] -> l = [].
Proof.
  intros Hs. apply Permutation_nil_r. rewrite <- Hs. symmetry. apply sorted_perm.
Qed.

Lemma sorted_first_least (l : list LogEvent) first rest :
  sorted timestamp_key l = first :: rest ->
  earliest_us l = Some (timestamp_key first)
  /\ Forall (fun e => timestamp_key first <= timestamp_key e) (first :: rest).
Proof.
  intros Hs. split; [by eapply earliest_is_sorted_head|].
  pose proof (sorted_ordered timestamp_key l) as Hord. rewrite Hs in Hord.
  apply StronglySorted_inv in Hord as [_ Hle]. constructor; [lia | exact Hle].
Qed.

(** For messages of ASCII characters (where a slice of the model
    text is the slice [message[:60]] of Python), the timeline report
    lists every stored event once, in the order of the timestamps, each
    with its extension, its category, the first 60 characters of its
    message and its offset from the earliest timestamp, which is never
    negative.  The order is that of a stable sort: the events of one
    timestamp are in the order in which they were stored.  The grouping
    in windows of one second loses, repeats and reorders nothing.  With
    no event the report is the single line "No events found in log
    file.". *)
Theorem timeline_lists_events_in_order (self : LogAnalyzer) :
  forallb (fun e => is_ascii (message e)) (events self) = true ->
  let report := create_timeline_report self in
  let anchor := default 0 (earliest_us (events self)) in
  timeline_rows report
  = map (fun e => (timestamp_key e - anchor, extension e, event_type e,
                   str_take 60 (message e)))
        (sorted timestamp_key (events self))
  /\ StronglySorted (fun e1 e2 => timestamp_key e1 <= timestamp_key e2)
                    (sorted timestamp_key (events self))
  /\ sorted timestamp_key (events self) ≡ₚ events self
  /\ (forall k, filter (fun e => timestamp_key e = k)
                       (sorted timestamp_key (events self))
                = filter (fun e => timestamp_key e = k) (events self))
  /\ Forall (fun row => 0 <= row.1.1.1) (timeline_rows report)
  /\ Forall (fun row => is_ascii row.2 = true /\ (String.length row.2 <= 60)%nat)
            (timeline_rows report)
  /\ (events self = [] <-> report = [Text "No events found in log file."]).
Proof.
  intros Hascii report anchor.
  pose proof (sorted_ordered timestamp_key (events self)) as Hord.
  pose proof (sorted_perm timestamp_key (events self)) as Hperm.
  assert (timeline_rows report
          = map (fun e => (timestamp_key e - anchor, extension e, event_type e,
                           str_take 60 (message e)))
                (sorted timestamp_key (events self))
          /\ Forall (fun e => 0 <= timestamp_key e - anchor)
                    (sorted timestamp_key (events self))) as [Hrows Hpos].
  { unfold report, anchor.
    destruct (sorted timestamp_key (events self)) as [|first rest] eqn:Hs.
    - unfold create_timeline_report. rewrite Hs. by split.
    - destruct (timeline_report_parts self first rest Hs) as (-> & _ & _).
      destruct (sorted_first_least _ _ _ Hs) as [-> Hle].
      destruct (window_blocks_rows (timestamp first)
                  (group_windows (timestamp first) (first :: rest))
                  (sorted id (map fst (map_to_list
                     (group_windows (timestamp first) (first :: rest))))))
        as (-> & _ & _).
      rewrite (windows_concat (timestamp first) (first :: rest) Hord).
      split.
      * apply Forall_fmap_ext_1, Forall_forall. intros e _.
        by rewrite sub_us_keys.
      * eapply Forall_impl; [exact Hle|]. cbn.
        intros e. generalize (timestamp_key e) (timestamp_key first). intros; lia. }
  split_and!; [exact Hrows | exact Hord | exact Hperm | | | |].
  - intros k. apply sorted_stable.
  - rewrite Hrows. clear Hrows.
    apply Forall_fmap. eapply Forall_impl; [exact Hpos|]. intros e He. exact He.
  - rewrite Hrows. clear Hrows.
    apply Forall_fmap, Forall_forall. intros e He. cbn [snd compose].
    rewrite (elem_of_sorted timestamp_key) in He.
    rewrite forallb_forall in Hascii.
    specialize (Hascii e (proj1 (list_elem_of_In _ _) He)). cbn beta in Hascii.
    unfold is_ascii in *.
    split; [by apply str_take_str_all | apply str_take_length].
  - unfold report, create_timeline_report. split.
    + by intros ->.
    + destruct (sorted timestamp_key (events self)) as [|first rest] eqn:Hs.
      * intros _. by eapply sorted_nil_inv.
      * intros H. discriminate H.
Qed.

Lemma timeline_lists_events_in_order_witness :
  let self := store_of [windowing_lines] in
  forallb (fun e => is_ascii (message e)) (events self) = true
  /\ events self <> []
  /\ timeline_rows (create_timeline_report self)
     = map (fun e => (timestamp_key e - default 0 (earliest_us (events self)),
                      extension e, event_type e, str_take 60 (message e)))
           (sorted timestamp_key (events self)).
Proof.
  intros self.
  assert (forallb (fun e => is_ascii (message e)) (events self) = true) as H
    by (vm_compute; reflexivity).
  split_and!; [exact H | vm_compute; discriminate |].
  exact (proj1 (timeline_lists_events_in_order self H)).
Defined.

(** The window headers of the timeline report are strictly
    increasing; a window is shown exactly when a stored event falls in
    it, so no empty window appears and none is below zero.  The three
    counts of the header are the lengths of the three lists of the store,
    with no count at all when there is no event. *)
Theorem timeline_windows_and_counts (self : LogAnalyzer) :
  let report := create_timeline_report self in
  let anchor := default 0 (earliest_us (events self)) in
  StronglySorted Z.lt (window_headers report)
  /\ (forall w, w ∈ window_headers report
        <-> exists e, e ∈ events self /\ (timestamp_key e - anchor) / 1000000 = w)
  /\ Forall (fun w => 0 <= w) (window_headers report)
  /\ counts_shown report
     = match events self with
       | [] => []
       | _ => [("Total events: ", length (events self));
               ("UniPlaySong events: ", length (uniplaysong_events self));
               ("PlayniteSound events: ", length (playnitesound_events self))]
       end.
Proof.
  intros report anchor.
  assert (StronglySorted Z.lt (window_headers report)
          /\ (forall w, w ∈ window_headers report
                <-> exists e, e ∈ events self
                              /\ (timestamp_key e - anchor) / 1000000 = w)
          /\ counts_shown report
             = match events self with
               | [] => []
               | _ => [("Total events: ", length (events self));
                       ("UniPlaySong events: ", length (uniplaysong_events self));
                       ("PlayniteSound events: ", length (playnitesound_events self))]
               end) as (H1 & H2 & H3).
  { unfold report, anchor.
    destruct (sorted timestamp_key (events self)) as [|first rest] eqn:Hs.
    - unfold create_timeline_report. rewrite Hs.
      rewrite (sorted_nil_inv _ _ Hs). split_and!; [constructor | | done].
      intros w. split; [by intros ?%elem_of_nil|].
      by intros (e & ?%elem_of_nil & _).
    - destruct (timeline_report_parts self first rest Hs) as (_ & -> & ->).
      destruct (sorted_first_least _ _ _ Hs) as [-> Hle].
      destruct (window_blocks_rows (timestamp first)
                  (group_windows (timestamp first) (first :: rest))
                  (sorted id (map fst (map_to_list
                     (group_windows (timestamp first) (first :: rest))))))
        as (_ & -> & ->).
      destruct (sorted_keys_spec (group_windows (timestamp first) (first :: rest)))
        as [Hws Hin].
      split_and!.
      + exact Hws.
      + intros w. rewrite Hin, group_windows_is_Some.
        rewrite Forall_forall in Hle.
        assert (forall e, e ∈ first :: rest ->
                  window_of (timestamp first) e
                  = (timestamp_key e - timestamp_key first) / 1000000) as Hwin.
        { intros e He. specialize (Hle e He). cbn beta in Hle.
          unfold window_of, int_div. rewrite sub_us_keys. revert Hle.
          generalize (timestamp_key e) (timestamp_key first). intros ke k0 Hle.
          apply Z.quot_div_nonneg; lia. }
        split; intros (e & He & Hw); exists e.
        * split; [by rewrite <- (elem_of_sorted timestamp_key), Hs|].
          rewrite <- Hwin; [exact Hw | exact He].
        * rewrite <- (elem_of_sorted timestamp_key), Hs in He.
          split; [exact He|]. rewrite Hwin; [exact Hw | exact He].
      + assert (length (first :: rest) = length (events self)) as ->.
        { rewrite <- Hs. apply Permutation_length, sorted_perm. }
        assert (events self <> []) as Hne.
        { intros Hnil. rewrite Hnil in Hs. discriminate Hs. }
        destruct (events self); [done|]. by rewrite app_nil_r. }
  split_and!; [exact H1 | exact H2 | | exact H3].
  apply Forall_forall. intros w Hw. apply H2 in Hw as (e & He & <-).
  apply Z.div_pos; [|lia].
  unfold anchor.
  destruct (sorted timestamp_key (events self)) as [|first rest] eqn:Hs.
  - rewrite (sorted_nil_inv _ _ Hs) in He. by apply elem_of_nil in He.
  - destruct (sorted_first_least _ _ _ Hs) as [-> Hle].
    rewrite Forall_forall in Hle.
    rewrite <- (elem_of_sorted timestamp_key), Hs in He.
    specialize (Hle e He). cbn beta in Hle. cbn [default from_option id].
    revert Hle. generalize (timestamp_key e) (timestamp_key first). intros; lia.
Qed.

(* ================================================================== *)
(** * The critical events report                                       *)
(* ================================================================== *)

Lemma critical_rows_app l1 l2 :
  critical_rows (l1 ++ l2) = critical_rows l1 ++ critical_rows l2.
Proof. apply omap_app. Qed.

Lemma critical_found_app l1 l2 :
  critical_found (l1 ++ l2) = critical_found l1 ++ critical_found l2.
Proof. apply omap_app. Qed.

Lemma critical_event_lines_rows baseline l :
  critical_rows (concat (map (critical_event_lines baseline) l))
  = map (fun e => (sub_us (timestamp e) baseline, event_type e)) l
  /\ critical_found (concat (map (critical_event_lines baseline) l)) = [].
Proof.
  induction l as [|e l [IH1 IH2]]; [done|]. cbn [map concat].
  rewrite critical_rows_app, critical_found_app, IH1, IH2.
  unfold critical_event_lines. by case_bool_decide.
Qed.

Lemma critical_block_rows baseline l x :
  critical_rows (critical_block baseline l x)
  = map (fun e => (sub_us (timestamp e) baseline, event_type e))
        (filter (fun e => extension e = x) l)
  /\ critical_found (critical_block baseline l x) = [].
Proof.
  unfold critical_block.
  destruct (filter (fun e => extension e = x) l) as [|e k]; [done|].
  destruct (critical_event_lines_rows baseline (e :: k)) as [H1 H2].
  split; [exact H1 | exact H2].
Qed.

Lemma partition_perm (l : list LogEvent) :
  Forall (fun e => extension e <> UNKNOWN) l ->
  filter (fun e => extension e = UNIPLAYSONG) l
  ++ filter (fun e => extension e = PLAYNITESOUND) l ≡ₚ l.
Proof.
  induction 1 as [|e l He Hl IH]; [done|].
  rewrite !filter_cons. destruct (extension e) eqn:Hx; [| |done].
  - rewrite decide_True, decide_False by done. cbn. by rewrite IH.
  - rewrite decide_False, decide_True by done.
    rewrite <- Permutation_middle. by rewrite IH.
Qed.

Lemma critical_report_parts (self : LogAnalyzer) first rest :
  critical_events_of self = first :: rest ->
  critical_rows (create_critical_events_report self)
  = map (fun e => (timestamp_key e - timestamp_key first, event_type e))
        (filter (fun e => extension e = UNIPLAYSONG) (first :: rest)
         ++ filter (fun e => extension e = PLAYNITESOUND) (first :: rest))
  /\ critical_found (create_critical_events_report self) = [length (first :: rest)].
Proof.
  intros Hc. unfold create_critical_events_report. rewrite Hc. cbn zeta.
  destruct (critical_block_rows (timestamp first) (first :: rest) UNIPLAYSONG)
    as [Hu1 Hu2].
  destruct (critical_block_rows (timestamp first) (first :: rest) PLAYNITESOUND)
    as [Hp1 Hp2].
  cbn [map concat]. rewrite app_nil_r.
  rewrite !critical_rows_app, !critical_found_app, Hu1, Hu2, Hp1, Hp2.
  split; [|reflexivity]. cbn [critical_rows omap list_omap app].
  rewrite <- map_app. apply Forall_fmap_ext_1, Forall_forall. intros e _.
  by rewrite sub_us_keys.
Qed.

(** The critical events report shows the events whose category is
    one of the nine critical ones, sorted by timestamp, UniPlaySong's
    first and then PlayniteSound's; every row has a critical category
    and an offset from the earliest critical event that is never
    negative; the number announced is the number of critical events
    stored.  The report is the single line "No critical events found."
    exactly when no stored event has a critical category. *)
Theorem critical_report_rows (self : LogAnalyzer) :
  let report := create_critical_events_report self in
  let critical_events :=
    filter (fun e => event_type e ∈ critical_types) (events self) in
  let anchor := default 0 (earliest_us critical_events) in
  critical_rows report
  = map (fun e => (timestamp_key e - anchor, event_type e))
        (filter (fun e => extension e = UNIPLAYSONG) (critical_events_of self)
         ++ filter (fun e => extension e = PLAYNITESOUND) (critical_events_of self))
  /\ critical_events_of self ≡ₚ critical_events
  /\ StronglySorted (fun e1 e2 => timestamp_key e1 <= timestamp_key e2)
                    (critical_events_of self)
  /\ Forall (fun row => 0 <= row.1 /\ row.2 ∈ critical_types) (critical_rows report)
  /\ critical_found report
     = match critical_events with [] => [] | _ => [length critical_events] end
  /\ ((forall e, e ∈ events self -> event_type e ∉ critical_types)
      <-> report = [CText "No critical events found."]).
Proof.
  intros report critical_events anchor.
  assert (StronglySorted (fun e1 e2 => timestamp_key e1 <= timestamp_key e2)
                         (critical_events_of self)) as Hord
    by apply (sorted_ordered timestamp_key).
  assert (critical_events_of self ≡ₚ critical_events) as Hperm
    by apply (sorted_perm timestamp_key).
  assert (forall e, e ∈ critical_events_of self -> event_type e ∈ critical_types)
    as Hcrit.
  { intros e He. rewrite Hperm in He. by apply list_elem_of_filter in He as [He _]. }
  assert (critical_events = [] <->
          forall e, e ∈ events self -> event_type e ∉ critical_types) as Hnone.
  { split.
    - intros Hnil e He Hc.
      assert (e ∈ critical_events) as Hin by (by apply list_elem_of_filter).
      rewrite Hnil in Hin. by apply elem_of_nil in Hin.
    - intros Hno. apply filter_none, Forall_forall. exact Hno. }
  unfold report, anchor.
  destruct (critical_events_of self) as [|first rest] eqn:Hc.
  - assert (critical_events = []) as Hnil by (symmetry; by apply Permutation_nil_l).
    unfold create_critical_events_report. rewrite Hc, Hnil.
    split_and!; [done | done | apply SSorted_nil | apply Forall_nil_2 | done |].
    split; [done|]. intros _. by apply Hnone.
  - destruct (critical_report_parts self first rest Hc) as [Hrows Hfound].
    destruct (sorted_first_least critical_events first rest Hc) as [-> Hle].
    assert (critical_events <> []) as Hne.
    { intros Hnil. rewrite Hnil in Hperm. by apply Permutation_nil_r in Hperm. }
    split_and!; [exact Hrows | exact Hperm | exact Hord | | |].
    + rewrite Hrows. apply Forall_fmap, Forall_forall.
      intros e He. cbn. split.
      * rewrite Forall_forall in Hle.
        assert (timestamp_key first <= timestamp_key e) as Hfe.
        { apply elem_of_app in He as [He|He];
            apply list_elem_of_filter in He as [_ He]; exact (Hle e He). }
        revert Hfe. generalize (timestamp_key e) (timestamp_key first). intros; lia.
      * apply Hcrit.
        by apply elem_of_app in He as [He|He];
          apply list_elem_of_filter in He as [_ He].
    + rewrite Hfound, (Permutation_length Hperm).
      by destruct critical_events.
    + split.
      * intros Hno. by apply Hnone in Hno.
      * unfold create_critical_events_report. rewrite Hc. intros H. discriminate H.
Qed.

(** On a store built from log files the critical events report
    lists every stored critical event exactly once, and the number it
    announces is the number of rows it shows. *)
Theorem critical_report_complete (files : list (list string)) :
  let self := store_of files in
  let report := create_critical_events_report self in
  let critical_events :=
    filter (fun e => event_type e ∈ critical_types) (events self) in
  let anchor := default 0 (earliest_us critical_events) in
  critical_rows report
  ≡ₚ map (fun e => (timestamp_key e - anchor, event_type e)) critical_events
  /\ critical_found report
     = match critical_rows report with
       | [] => []
       | rows => [length rows]
       end.
Proof.
  intros self report critical_events anchor.
  destruct (critical_report_rows self) as (Hrows & Hperm & _ & _ & Hfound & _).
  fold report critical_events anchor in Hrows, Hperm, Hfound.
  destruct (store_of_invariant files) as (_ & _ & Hknown). fold self in Hknown.
  assert (Forall (fun e => extension e <> UNKNOWN) (critical_events_of self)) as Hk.
  { apply Forall_forall. intros e He. rewrite Hperm in He.
    apply list_elem_of_filter in He as [_ He].
    rewrite Forall_forall in Hknown. by apply Hknown. }
  assert (critical_rows report
          ≡ₚ map (fun e => (timestamp_key e - anchor, event_type e)) critical_events)
    as Hall.
  { rewrite Hrows. apply Permutation_map. by rewrite (partition_perm _ Hk). }
  split; [exact Hall|]. rewrite Hfound.
  pose proof (Permutation_length Hall) as Hlen. rewrite length_map in Hlen.
  destruct critical_events as [|e l].
  - apply Permutation_nil_r in Hall. by rewrite Hall.
  - destruct (critical_rows report) as [|r rows]; [done|]. by rewrite Hlen.
Qed.

(* ================================================================== *)
(** * The order of texts, and sorting by it                            *)
(* ================================================================== *)

Lemma code_inj x y : code x = code y -> x = y.
Proof.
  unfold code. intros H%(inj Z.of_N).
  by rewrite <- (ascii_N_embedding x), <- (ascii_N_embedding y), H.
Qed.

Lemma str_leb_total a b : str_leb a b = true \/ str_leb b a = true.
Proof.
  revert b. induction a as [|x a IH]; intros [|y b]; cbn; auto.
  destruct (Z.ltb_spec (code x) (code y)), (Z.ltb_spec (code y) (code x));
    auto; lia.
Qed.

Lemma str_leb_trans a b c :
  str_leb a b = true -> str_leb b c = true -> str_leb a c = true.
Proof.
  revert b c. induction a as [|x a IH]; intros [|y b] [|z c]; cbn; try done.
  destruct (Z.ltb_spec (code x) (code y)), (Z.ltb_spec (code y) (code x)),
           (Z.ltb_spec (code y) (code z)), (Z.ltb_spec (code z) (code y)),
           (Z.ltb_spec (code x) (code z)), (Z.ltb_spec (code z) (code x));
    try done; try lia. apply IH.
Qed.

Lemma str_leb_antisym a b :
  str_leb a b = true -> str_leb b a = true -> a = b.
Proof.
  revert b. induction a as [|x a IH]; intros [|y b]; cbn; try done.
  destruct (Z.ltb_spec (code x) (code y)), (Z.ltb_spec (code y) (code x));
    try done; try lia.
  intros Hab Hba. assert (x = y) as -> by (apply code_inj; lia).
  f_equal. by apply IH.
Qed.

Lemma EventType_value_inj a b : EventType_value a = EventType_value b -> a = b.
Proof. destruct a, b; intros H; first [reflexivity | discriminate H]. Qed.

Section sort_by_order.
Context {A : Type} (leb : A -> A -> bool).
Hypothesis leb_total : forall a b, leb a b = true \/ leb b a = true.
Hypothesis leb_trans : forall a b c, leb a b = true -> leb b c = true -> leb a c = true.

Lemma insert_by_perm x l : insert_by leb x l ≡ₚ x :: l.
Proof.
  induction l as [|y l IH]; cbn; [done|].
  destruct (leb x y); [done|]. rewrite IH. apply Permutation_swap.
Qed.

Lemma sort_by_perm l : sort_by leb l ≡ₚ l.
Proof.
  induction l as [|x l IH]; cbn; [done|]. by rewrite insert_by_perm, IH.
Qed.

Lemma insert_by_ordered x l :
  StronglySorted (fun a b => leb a b = true) l ->
  StronglySorted (fun a b => leb a b = true) (insert_by leb x l).
Proof.
  induction 1 as [|y l Hl IH Hy]; cbn.
  - by repeat constructor.
  - destruct (leb x y) eqn:Hxy.
    + constructor; [by constructor|]. constructor; [done|].
      eapply Forall_impl; [exact Hy|]. cbn. intros z Hz. by eapply leb_trans.
    + constructor; [exact IH|]. rewrite insert_by_perm. constructor; [|exact Hy].
      destruct (leb_total x y) as [H|H]; [congruence | exact H].
Qed.

Lemma sort_by_ordered l : StronglySorted (fun a b => leb a b = true) (sort_by leb l).
Proof.
  induction l as [|x l IH]; cbn; [constructor | by apply insert_by_ordered].
Qed.

End sort_by_order.

Lemma ordered_NoDup_strict {A} (R : A -> A -> Prop) (l : list A) :
  StronglySorted R l -> NoDup l ->
  StronglySorted (fun a b => R a b /\ a <> b) l.
Proof.
  induction 1 as [|x l Hl IH Hx]; intros Hnd; [constructor|].
  apply NoDup_cons in Hnd as [Hx' Hnd]. constructor; [by apply IH|].
  rewrite Forall_forall in Hx |- *. intros y Hy. split; [by apply Hx|].
  by intros ->.
Qed.

(* ================================================================== *)
(** * The summary report                                               *)
(* ================================================================== *)

Lemma count_types_fold (l : list LogEvent) t :
  forall counts,
    foldl count_event counts l !! t
    = match length (of_type t l) with
      | O => counts !! t
      | S n => Some (default 0 (counts !! t) + S n)%nat
      end.
Proof.
  induction l as [|e l IH]; intros counts; [done|].
  cbn [foldl]. rewrite IH. unfold of_type. rewrite filter_cons.
  unfold count_event. case_decide as Ht.
  - subst t. rewrite lookup_insert_eq. cbn [length default].
    destruct (length (filter (fun e0 => event_type e0 = event_type e) l));
      f_equal; unfold id; lia.
  - by rewrite lookup_insert_ne.
Qed.

Lemma count_types_lookup (l : list LogEvent) t :
  default 0%nat (count_types l !! t) = length (of_type t l)
  /\ (t ∈ dom (count_types l) <-> of_type t l <> []).
Proof.
  unfold count_types. rewrite elem_of_dom, count_types_fold, lookup_empty.
  destruct (of_type t l) as [|e k]; cbn.
  - split; [done|]. split; [by intros [? ?] | done].
  - split; [done|]. split; [done | by eexists].
Qed.

Lemma count_rows_app l1 l2 : count_rows (l1 ++ l2) = count_rows l1 ++ count_rows l2.
Proof. apply omap_app. Qed.

Lemma count_rows_map ups_counts ps_counts ts :
  count_rows (map (count_row ups_counts ps_counts) ts)
  = map (fun t =>
           let u := default 0%nat (ups_counts !! t) in
           let p := default 0%nat (ps_counts !! t) in
           (t, u, p,
            if bool_decide (Z.of_nat u - Z.of_nat p = 0) then None
            else Some (Z.of_nat u - Z.of_nat p))) ts.
Proof.
  induction ts as [|t ts IH]; [done|].
  cbn [map]. unfold count_rows. cbn [omap list_omap count_row]. f_equal. exact IH.
Qed.

Lemma findings_no_rows l1 l2 l3 :
  count_rows (selection_video_finding l1 l2) = []
  /\ count_rows (first_clear_finding l1 l3) = [].
Proof.
  unfold selection_video_finding, first_clear_finding.
  destruct l1 as [|s l1], l2 as [|v l2], l3 as [|c l3]; try done;
    repeat match goal with |- context [if ?b then _ else _] => destruct b end;
    done.
Qed.

Lemma summary_report_rows (self : LogAnalyzer) :
  events self <> [] ->
  count_rows (create_summary_report self)
  = map (fun t =>
           let u := length (of_type t (uniplaysong_events self)) in
           let p := length (of_type t (playnitesound_events self)) in
           (t, u, p,
            if bool_decide (Z.of_nat u - Z.of_nat p = 0) then None
            else Some (Z.of_nat u - Z.of_nat p)))
        (sort_by value_leb
           (elements (dom (count_types (uniplaysong_events self))
                      ∪ dom (count_types (playnitesound_events self))))).
Proof.
  intros Hne. unfold create_summary_report.
  destruct (events self) as [|e0 l0]; [done|]. cbn zeta.
  destruct (findings_no_rows
              (of_type ON_GAME_SELECTED (uniplaysong_events self))
              (of_type VIDEO_IS_PLAYING_CHANGED (uniplaysong_events self))
              (filter (fun e => event_type e = FIRST_SELECT_STATE
                                /\ contains "false" (lower (message e)) = true)
                      (uniplaysong_events self))) as [H1 H2].
  rewrite !count_rows_app, H1, H2, count_rows_map.
  cbn [count_rows omap list_omap app]. rewrite !app_nil_r.
  apply Forall_fmap_ext_1, Forall_forall. intros t _. cbn zeta.
  destruct (count_types_lookup (uniplaysong_events self) t) as [-> _].
  by destruct (count_types_lookup (playnitesound_events self) t) as [-> _].
Qed.

(** The table of the summary report has one row for each category
    that occurs among the events of either extension and none for the
    others; the row shows the number of events of that category of
    UniPlaySong and of PlayniteSound, and their difference exactly when
    the two numbers differ; the rows are in the strictly increasing order
    of the names of the categories.  With an empty event list the report
    is the single line "No events to analyze.". *)
Theorem summary_count_table (self : LogAnalyzer) :
  let report := create_summary_report self in
  (forall t u p d,
     (t, u, p, d) ∈ count_rows report
     <-> events self <> []
         /\ u = length (of_type t (uniplaysong_events self))
         /\ p = length (of_type t (playnitesound_events self))
         /\ (0 < u + p)%nat
         /\ d = (if decide (u = p) then None else Some (Z.of_nat u - Z.of_nat p)))
  /\ StronglySorted
       (fun r1 r2 =>
          str_leb (EventType_value r1.1.1.1) (EventType_value r2.1.1.1) = true
          /\ r1.1.1.1 <> r2.1.1.1)
       (count_rows report)
  /\ (events self = [] <-> report = [SText "No events to analyze."]).
Proof.
  intros report.
  assert (events self = [] <-> report = [SText "No events to analyze."]) as Hempty.
  { unfold report, create_summary_report.
    destruct (events self); [done|]. split; intros H; discriminate H. }
  destruct (decide (events self = [])) as [Hnil|Hne].
  { assert (count_rows report = []) as ->.
    { apply Hempty in Hnil. by rewrite Hnil. }
    split_and!; [|constructor|exact Hempty].
    intros t u p d. split; [by intros ?%elem_of_nil | by intros [? _]]. }
  unfold report. rewrite (summary_report_rows self Hne).
  set (ts := sort_by value_leb
               (elements (dom (count_types (uniplaysong_events self))
                          ∪ dom (count_types (playnitesound_events self))))).
  assert (forall t, t ∈ ts <->
            (0 < length (of_type t (uniplaysong_events self))
                 + length (of_type t (playnitesound_events self)))%nat) as Hts.
  { intros t. unfold ts. rewrite sort_by_perm, elem_of_elements, elem_of_union.
    destruct (count_types_lookup (uniplaysong_events self) t) as [_ ->].
    destruct (count_types_lookup (playnitesound_events self) t) as [_ ->].
    destruct (of_type t (uniplaysong_events self)),
             (of_type t (playnitesound_events self)); cbn; split;
      first [ intros [H|H]; by destruct H | lia | intros _; by left
            | intros _; by right ]. }
  split_and!; [| |exact Hempty].
  - intros t u p d. rewrite list_elem_of_fmap. split.
    + intros (t' & Heq & Ht'). cbn zeta in Heq. injection Heq as -> -> -> ->.
      split_and!; [done | done | done | by apply Hts |].
      case_bool_decide; case_decide; try done; lia.
    + intros (_ & -> & -> & Hpos & ->). exists t. split; [|by apply Hts].
      cbn zeta. do 3 f_equal. case_bool_decide; case_decide; try done; lia.
  - apply ordered_map with
      (f := fun t => (t, length (of_type t (uniplaysong_events self)),
                      length (of_type t (playnitesound_events self)),
                      if bool_decide
                           (Z.of_nat (length (of_type t (uniplaysong_events self)))
                            - Z.of_nat (length (of_type t (playnitesound_events self)))
                            = 0)
                      then None
                      else Some (Z.of_nat (length (of_type t (uniplaysong_events self)))
                                 - Z.of_nat (length (of_type t (playnitesound_events self))))))
      (R := fun r1 r2 =>
              str_leb (EventType_value r1.1.1.1) (EventType_value r2.1.1.1) = true
              /\ r1.1.1.1 <> r2.1.1.1).
    cbn. apply (ordered_NoDup_strict (fun a b => value_leb a b = true)).
    + apply sort_by_ordered.
      * intros a b. apply str_leb_total.
      * intros a b c. apply str_leb_trans.
    + unfold ts. rewrite sort_by_perm. apply NoDup_elements.
Qed.

Lemma summary_report_elem (self : LogAnalyzer) (i : summary_item) :
  (forall s, i <> SText s) -> (forall c n, i <> SRule c n) ->
  (forall t u p d, i <> SCountRow t u p d) ->
  i ∈ create_summary_report self
  <-> events self <> []
      /\ (i ∈ selection_video_finding
                (of_type ON_GAME_SELECTED (uniplaysong_events self))
                (of_type VIDEO_IS_PLAYING_CHANGED (uniplaysong_events self))
          \/ i ∈ first_clear_finding
                   (of_type ON_GAME_SELECTED (uniplaysong_events self))
                   (filter (fun e => event_type e = FIRST_SELECT_STATE
                                     /\ contains "false" (lower (message e)) = true)
                           (uniplaysong_events self))).
Proof.
  intros Ht Hr Hc. unfold create_summary_report.
  destruct (events self) as [|e0 l0].
  - split; [|by intros [? _]]. intros H. apply list_elem_of_singleton in H.
    by destruct (Ht _ H).
  - cbn zeta. rewrite !elem_of_app. split.
    + intros [H|[H|[H|H]]].
      * exfalso.
        repeat (apply elem_of_cons in H as [H|H];
                [first [by destruct (Ht _ H) | by destruct (Hr _ _ H)]|]).
        by apply elem_of_nil in H.
      * exfalso. apply list_elem_of_fmap in H as (t & H & _).
        unfold count_row in H. cbn zeta in H. by destruct (Hc _ _ _ _ H).
      * exfalso.
        repeat (apply elem_of_cons in H as [H|H];
                [first [by destruct (Ht _ H) | by destruct (Hr _ _ H)]|]).
        by apply elem_of_nil in H.
      * split; [done | exact H].
    + intros [_ H]. by do 3 right.
Qed.

Lemma selection_video_finding_elem (sel vid : list LogEvent) (i : summary_item) :
  i ∈ selection_video_finding sel vid
  <-> exists s v,
        head sel = Some s /\ head vid = Some v
        /\ (timestamp_key s < timestamp_key v
            /\ i ∈ [SSelectionBeforeVideo;
                    STimestamp "   OnGameSelected: " (timestamp s);
                    STimestamp "   VideoIsPlaying: " (timestamp v);
                    SDifference (timestamp_key v - timestamp_key s)]
            \/ timestamp_key v <= timestamp_key s /\ i = SVideoBeforeSelection).
Proof.
  unfold selection_video_finding. destruct sel as [|s sel], vid as [|v vid].
  - split; [by intros ?%elem_of_nil | by intros (? & ? & ? & _)].
  - split; [by intros ?%elem_of_nil | by intros (? & ? & ? & _)].
  - split; [by intros ?%elem_of_nil | by intros (? & ? & _ & ? & _)].
  - cbn [head]. rewrite sub_us_keys.
    destruct (Z.ltb_spec (timestamp_key s) (timestamp_key v)) as [Hlt|Hge].
    + split.
      * intros H. exists s, v. split_and!; [done | done |]. left.
        split; [exact Hlt | exact H].
      * intros (s' & v' & [= <-] & [= <-] & [[_ H]|[Hle _]]); [exact H | lia].
    + split.
      * intros H%list_elem_of_singleton. exists s, v.
        split_and!; [done | done |]. right. by split.
      * intros (s' & v' & [= <-] & [= <-] & [[Hlt _]|[_ ->]]); [lia|].
        apply list_elem_of_here.
Qed.

Lemma first_clear_finding_elem (sel clr : list LogEvent) (i : summary_item) :
  i ∈ first_clear_finding sel clr
  <-> exists s c,
        head sel = Some s /\ head clr = Some c
        /\ (Z.abs (timestamp_key c - timestamp_key s) < 100000
            /\ i = SFirstSelectImmediate
            \/ 100000 <= Z.abs (timestamp_key c - timestamp_key s)
               /\ i = SFirstSelectDiffers).
Proof.
  unfold first_clear_finding. destruct sel as [|s sel], clr as [|c clr].
  - split; [by intros ?%elem_of_nil | by intros (? & ? & ? & _)].
  - split; [by intros ?%elem_of_nil | by intros (? & ? & ? & _)].
  - split; [by intros ?%elem_of_nil | by intros (? & ? & _ & ? & _)].
  - cbn [head]. rewrite sub_us_keys.
    destruct (Z.ltb_spec (Z.abs (timestamp_key c - timestamp_key s)) 100000)
      as [Hlt|Hge].
    + split.
      * intros H%list_elem_of_singleton. exists s, c.
        split_and!; [done | done |]. left. by split.
      * intros (s' & c' & [= <-] & [= <-] & [[_ ->]|[Hle _]]); [|lia].
        apply list_elem_of_here.
    + split.
      * intros H%list_elem_of_singleton. exists s, c.
        split_and!; [done | done |]. right. by split.
      * intros (s' & c' & [= <-] & [= <-] & [[Hlt _]|[_ ->]]); [lia|].
        apply list_elem_of_here.
Qed.

(** The key findings of the summary report look at UniPlaySong's
    events only, and at the first stored event of each kind.  The report
    says that OnGameSelected fires before VideoIsPlaying exactly when
    the first selection is strictly older than the first video change,
    and the opposite otherwise, never both; the difference it prints
    is then positive.  It says that [_firstSelect] is cleared
    immediately exactly when the first [_firstSelect] message containing
    "false" is less than 100 ms away from the first selection, before or
    after it. *)
Theorem summary_key_findings (self : LogAnalyzer) :
  let report := create_summary_report self in
  let selections := of_type ON_GAME_SELECTED (uniplaysong_events self) in
  let video := of_type VIDEO_IS_PLAYING_CHANGED (uniplaysong_events self) in
  let clears :=
    filter (fun e => event_type e = FIRST_SELECT_STATE
                     /\ contains "false" (lower (message e)) = true)
           (uniplaysong_events self) in
  (SSelectionBeforeVideo ∈ report
   <-> events self <> []
       /\ exists s v, head selections = Some s /\ head video = Some v
                      /\ timestamp_key s < timestamp_key v)
  /\ (SVideoBeforeSelection ∈ report
      <-> events self <> []
          /\ exists s v, head selections = Some s /\ head video = Some v
                         /\ timestamp_key v <= timestamp_key s)
  /\ (forall d, SDifference d ∈ report
        <-> events self <> []
            /\ exists s v, head selections = Some s /\ head video = Some v
                           /\ timestamp_key s < timestamp_key v
                           /\ d = timestamp_key v - timestamp_key s)
  /\ (forall d, SDifference d ∈ report -> 0 < d /\ SSelectionBeforeVideo ∈ report)
  /\ ~ (SSelectionBeforeVideo ∈ report /\ SVideoBeforeSelection ∈ report)
  /\ (SFirstSelectImmediate ∈ report
      <-> events self <> []
          /\ exists s c, head selections = Some s /\ head clears = Some c
                         /\ Z.abs (timestamp_key c - timestamp_key s) < 100000)
  /\ (SFirstSelectDiffers ∈ report
      <-> events self <> []
          /\ exists s c, head selections = Some s /\ head clears = Some c
                         /\ 100000 <= Z.abs (timestamp_key c - timestamp_key s)).
Proof.
  intros report selections video clears.
  assert (forall i, (forall s, i <> SText s) -> (forall c n, i <> SRule c n) ->
                    (forall t u p d, i <> SCountRow t u p d) ->
            i ∈ report
            <-> events self <> []
                /\ ((exists s v,
                       head selections = Some s /\ head video = Some v
                       /\ (timestamp_key s < timestamp_key v
                           /\ i ∈ [SSelectionBeforeVideo;
                                   STimestamp "   OnGameSelected: " (timestamp s);
                                   STimestamp "   VideoIsPlaying: " (timestamp v);
                                   SDifference (timestamp_key v - timestamp_key s)]
                           \/ timestamp_key v <= timestamp_key s
                              /\ i = SVideoBeforeSelection))
                    \/ (exists s c,
                          head selections = Some s /\ head clears = Some c
                          /\ (Z.abs (timestamp_key c - timestamp_key s) < 100000
                              /\ i = SFirstSelectImmediate
                              \/ 100000 <= Z.abs (timestamp_key c - timestamp_key s)
                                 /\ i = SFirstSelectDiffers)))) as Hin.
  { intros i H1 H2 H3. unfold report.
    rewrite (summary_report_elem self i H1 H2 H3).
    by rewrite selection_video_finding_elem, first_clear_finding_elem. }
  assert (SSelectionBeforeVideo ∈ report
          <-> events self <> []
              /\ exists s v, head selections = Some s /\ head video = Some v
                             /\ timestamp_key s < timestamp_key v) as Hbefore.
  { rewrite Hin by done. split.
    - intros [Hne [(s & v & Hs & Hv & [[Hlt _]|[_ H]])|(s & c & _ & _ & [[_ H]|[_ H]])]];
        try discriminate H. split; [done|]. by exists s, v.
    - intros [Hne (s & v & Hs & Hv & Hlt)]. split; [done|]. left. exists s, v.
      split_and!; [done | done |]. left. split; [done|]. apply list_elem_of_here. }
  assert (SVideoBeforeSelection ∈ report
          <-> events self <> []
              /\ exists s v, head selections = Some s /\ head video = Some v
                             /\ timestamp_key v <= timestamp_key s) as Hafter.
  { rewrite Hin by done. split.
    - intros [Hne [(s & v & Hs & Hv & [[_ H]|[Hle _]])|(s & c & _ & _ & [[_ H]|[_ H]])]];
        try discriminate H.
      + repeat (apply elem_of_cons in H as [H|H]; [discriminate H|]).
        by apply elem_of_nil in H.
      + split; [done|]. by exists s, v.
    - intros [Hne (s & v & Hs & Hv & Hle)]. split; [done|]. left. exists s, v.
      split_and!; [done | done |]. right. by split. }
  assert (forall d, SDifference d ∈ report
            <-> events self <> []
                /\ exists s v, head selections = Some s /\ head video = Some v
                               /\ timestamp_key s < timestamp_key v
                               /\ d = timestamp_key v - timestamp_key s) as Hdiff.
  { intros d. rewrite Hin by done. split.
    - intros [Hne [(s & v & Hs & Hv & [[Hlt H]|[_ H]])|(s & c & _ & _ & [[_ H]|[_ H]])]];
        try discriminate H.
      split; [done|]. exists s, v. split_and!; [done | done | done |].
      repeat (apply elem_of_cons in H as [H|H]; [first [discriminate H | by injection H]|]).
      by apply elem_of_nil in H.
    - intros [Hne (s & v & Hs & Hv & Hlt & ->)]. split; [done|]. left. exists s, v.
      split_and!; [done | done |]. left. split; [done|].
      do 3 apply list_elem_of_further. apply list_elem_of_here. }
  split_and!; [exact Hbefore | exact Hafter | exact Hdiff | | | |].
  - intros d Hd. pose proof Hd as Hd'. apply Hdiff in Hd' as [Hne (s & v & Hs & Hv & Hlt & ->)].
    split; [lia|]. apply Hbefore. split; [done|]. by exists s, v.
  - intros [[_ (s & v & Hs & Hv & Hlt)]%Hbefore [_ (s' & v' & Hs' & Hv' & Hle)]%Hafter].
    rewrite Hs in Hs'. rewrite Hv in Hv'. injection Hs' as <-. injection Hv' as <-. lia.
  - rewrite Hin by done. split.
    + intros [Hne [(s & v & Hs & Hv & [[_ H]|[_ H]])|(s & c & Hs & Hc & [[Hlt _]|[_ H]])]];
        try discriminate H.
      * repeat (apply elem_of_cons in H as [H|H]; [discriminate H|]).
        by apply elem_of_nil in H.
      * split; [done|]. by exists s, c.
    + intros [Hne (s & c & Hs & Hc & Hlt)]. split; [done|]. right. exists s, c.
      split_and!; [done | done |]. left. by split.
  - rewrite Hin by done. split.
    + intros [Hne [(s & v & Hs & Hv & [[_ H]|[_ H]])|(s & c & Hs & Hc & [[_ H]|[Hge _]])]];
        try discriminate H.
      * repeat (apply elem_of_cons in H as [H|H]; [discriminate H|]).
        by apply elem_of_nil in H.
      * split; [done|]. by exists s, c.
    + intros [Hne (s & c & Hs & Hc & Hge)]. split; [done|]. right. exists s, c.
      split_and!; [done | done |]. right. by split.
Qed.

(* ================================================================== *)
(** * The bias of the resolution towards UniPlaySong                   *)
(* ================================================================== *)

Lemma name_in_UniPlaySong text :
  contains "UniPlaySong" (name_in text) = contains "UniPlaySong" text.
Proof.
  unfold name_in. pose proof (bracketed_UniPlaySong text) as Hb.
  destruct (contains "[UniPlaySong]" text), (contains "UniPlaySong" text);
    try (by discriminate (Hb eq_refl)); cbn [orb]; try reflexivity;
    by destruct (contains "[PlayniteSound]" text || contains "PlayniteSound" text).
Qed.

Lemma name_in_PlayniteSound text :
  contains "UniPlaySong" text = false ->
  contains "PlayniteSound" (name_in text) = contains "PlayniteSound" text.
Proof.
  intros Ha. unfold name_in. pose proof (bracketed_UniPlaySong text) as Hb.
  pose proof (bracketed_PlayniteSound text) as Hc. rewrite Ha in *.
  destruct (contains "[UniPlaySong]" text); [by discriminate (Hb eq_refl)|].
  cbn [orb].
  destruct (contains "[PlayniteSound]" text), (contains "PlayniteSound" text);
    try (by discriminate (Hc eq_refl)); reflexivity.
Qed.

(** C9, counterexample: the tabular line below has PlayniteSound in its
    source-hint and the bare name UniPlaySong in its message, so it
    contains the names of both extensions; the bare name in the message
    of a tabular line is never looked for, and the event is stored as a
    PlayniteSound event. *)
Lemma C9_bare_name_in_tabular_message :
  let raw := "2024-01-01 10:00:00.050 | INFO | PlayniteSound | UniPlaySong started" in
  let p := mk_parsed Tabular "2024-01-01 10:00:00.050" (Some "INFO")
                     "PlayniteSound" "UniPlaySong started" in
  recognise (strip raw) = Ok (Some p)
  /\ names_uniplaysong p = true
  /\ names_playnitesound p = true
  /\ resolve_extension (extension_name p) (parsed_message p) = PLAYNITESOUND
  /\ match process_line raw with
     | Ok (Some e) => extension e = PLAYNITESOUND
     | _ => False
     end.
Proof. vm_compute. by split_and!. Qed.

(** C9: for a recognised line that contains the names of both
    extensions, the event is attributed to UniPlaySong exactly when one
    of the tests for UniPlaySong applies: always in the bracketed and in
    the bare format, and in the tabular format when the source-hint
    contains its name or the message its bracketed name; these tests
    come before those for PlayniteSound in both format branches and in
    the final resolution.  Otherwise the line is tabular with the
    bare name UniPlaySong in its message only, and it is attributed to
    PlayniteSound when the hint contains that name or the message its
    bracketed name, and dropped when PlayniteSound too is a bare name of
    the message only. *)
Theorem C9_source_A_bias (raw : string) (p : parsed) :
  recognise (strip raw) = Ok (Some p) ->
  names_uniplaysong p = true ->
  names_playnitesound p = true ->
  let ext := resolve_extension (extension_name p) (parsed_message p) in
  (ext = UNIPLAYSONG <-> marks_uniplaysong p = true)
  /\ (format p <> Tabular -> ext = UNIPLAYSONG)
  /\ (ext <> UNIPLAYSONG ->
        format p = Tabular
        /\ contains "UniPlaySong" (extension_name p) = false
        /\ contains "[UniPlaySong]" (parsed_message p) = false
        /\ contains "UniPlaySong" (parsed_message p) = true
        /\ (ext = PLAYNITESOUND <-> marks_playnitesound p = true)
        /\ (ext = UNKNOWN <->
              contains "PlayniteSound" (extension_name p) = false
              /\ contains "[PlayniteSound]" (parsed_message p) = false
              /\ contains "PlayniteSound" (parsed_message p) = true))
  /\ (forall e, process_line raw = Ok (Some e) -> extension e = ext).
Proof.
  intros Hp Ha Hb ext.
  assert (forall e, process_line raw = Ok (Some e) -> extension e = ext) as Hstored.
  { intros e (p' & Hp' & _ & He & _)%process_line_inv.
    rewrite Hp in Hp'. injection Hp' as <-. exact He. }
  unfold names_uniplaysong in Ha. unfold names_playnitesound in Hb.
  pose proof (bracketed_UniPlaySong (parsed_message p)) as Hba.
  pose proof (bracketed_PlayniteSound (parsed_message p)) as Hbb.
  destruct (format p) eqn:Hf.
  - (* the tabular format *)
    unfold ext in *. clear ext.
    unfold resolve_extension, marks_uniplaysong, marks_playnitesound in *.
    rewrite Hf. revert Hstored.
    destruct (contains "UniPlaySong" (extension_name p)),
             (contains "[UniPlaySong]" (parsed_message p)),
             (contains "UniPlaySong" (parsed_message p));
      try (by discriminate (Hba eq_refl)); try discriminate Ha; cbn [orb];
      try (intros Hstored; split_and!; [done | done | done | exact Hstored]).
    destruct (contains "PlayniteSound" (extension_name p)),
             (contains "[PlayniteSound]" (parsed_message p)),
             (contains "PlayniteSound" (parsed_message p));
      try (by discriminate (Hbb eq_refl)); try discriminate Hb; cbn [orb];
      intros Hstored;
      (split_and!; [done | done | | exact Hstored]);
      intros _; split_and!; try done; split; try done; by intros (? & ? & ?).
  - (* the bracketed format *)
    assert (ext = UNIPLAYSONG) as Hext.
    { unfold ext, resolve_extension.
      rewrite (recognise_name_in _ _ Hp) in * by (rewrite Hf; discriminate).
      rewrite name_in_UniPlaySong in *. rewrite orb_diag in Ha. by rewrite Ha. }
    assert (marks_uniplaysong p = true) as Hm.
    { unfold marks_uniplaysong. rewrite Hf.
      rewrite (recognise_name_in _ _ Hp) in Ha by (rewrite Hf; discriminate).
      rewrite name_in_UniPlaySong, orb_diag in Ha. rewrite Ha. apply orb_true_r. }
    split_and!; [done | done | done | exact Hstored].
  - (* the bare format *)
    assert (ext = UNIPLAYSONG) as Hext.
    { unfold ext, resolve_extension.
      rewrite (recognise_name_in _ _ Hp) in * by (rewrite Hf; discriminate).
      rewrite name_in_UniPlaySong in *. rewrite orb_diag in Ha. by rewrite Ha. }
    assert (marks_uniplaysong p = true) as Hm.
    { unfold marks_uniplaysong. rewrite Hf.
      rewrite (recognise_name_in _ _ Hp) in Ha by (rewrite Hf; discriminate).
      rewrite name_in_UniPlaySong, orb_diag in Ha. rewrite Ha. apply orb_true_r. }
    split_and!; [done | done | done | exact Hstored].
Qed.

Lemma C9_source_A_bias_witness :
  let raw := "2024-01-01 10:00:00.050 PlayniteSound before UniPlaySong" in
  let p := mk_parsed Simple "2024-01-01 10:00:00.050" (Some "INFO")
                     "UniPlaySong" "PlayniteSound before UniPlaySong" in
  recognise (strip raw) = Ok (Some p)
  /\ names_uniplaysong p = true
  /\ names_playnitesound p = true
  /\ resolve_extension (extension_name p) (parsed_message p) = UNIPLAYSONG.
Proof.
  intros raw p.
  assert (recognise (strip raw) = Ok (Some p)) as H by (vm_compute; reflexivity).
  assert (names_uniplaysong p = true) as Ha by (vm_compute; reflexivity).
  assert (names_playnitesound p = true) as Hb by (vm_compute; reflexivity).
  split_and!; [exact H | exact Ha | exact Hb |].
  destruct (C9_source_A_bias raw p H Ha Hb) as (_ & Hnt & _).
  apply Hnt. discriminate.
Defined.
